(** * SPH fluid core: a shallow embedding of [src/src/Math/SPH.cpp]

    The engine of [SPH.cpp] (with [Vec.h], [Particle.h], [Rules.h]) is
    rendered as pure functions over an explicit engine state.

    Conventions of the embedding:
    - [float] is modelled by exact rationals [Q]: rounding, infinities and
      NaN are outside the model.  [std::sqrt] is a parameter of the platform.
    - [int] is a [Z] wrapped to 32 bits ([wrap32]); [uint32_t]/[size_t] sizes
      and indices are [nat] (particle counts stay far below 2^32, so the
      casts between the two are the identity).
    - [std::vector] is a [list]; in-place writes are stdpp's [<[i:=x]>].
    - The pressure and viscosity walks read [_particles[idx]] and
      [velocitySnapshot[idx]] with [idx] possibly equal to the size of the
      vector.  Such a read returns whatever lies behind the storage; the
      platform supplies that value ([strayParticle], [strayVelocity]).
    - [std::ranges::sort] is a parameter of the platform ([std_sort]); the
      standard fixes only its postcondition, which is stated as the boolean
      check [sort_post].
    - The worker threads of one pass write disjoint ranges and read only
      fields no worker writes during that pass, so a pass is rendered as the
      ranges run one after the other, barrier by barrier.

    The camera ([Camera.h], [Camera.cpp]), the meshes ([Mesh.h], [Mesh.cpp]),
    the colour of [Particle::draw] and the box of [Renderer::draw] follow:
    - [std::cos], [std::sin] and [std::tan] are parameters ([Libm]); a thrown
      exception is [None].
    - Of OpenGL and GLFW the model keeps the data: the floats a mesh uploads,
      the vertices a draw call reads, the matrix a uniform receives, the keys
      that are held. *)

From Stdlib Require Import ZArith QArith Qabs Qpower Qround Lia Lqa.
From stdpp Require Import base list.

Set Default Proof Using "Type".

(** ** Vec.h *)

Record Vec3 (T : Type) : Type := mkVec3 { d0 : T; d1 : T; d2 : T }.
Arguments mkVec3 {T} _ _ _.
Arguments d0 {T} _.
Arguments d1 {T} _.
Arguments d2 {T} _.

Definition wrap32 (z : Z) : Z := ((z + 2 ^ 31) mod 2 ^ 32 - 2 ^ 31)%Z.

Module Vec.
Local Open Scope Q_scope.

Definition zero : Vec3 Q := mkVec3 0 0 0.

(* operator+(const Vec3&), operator-(const Vec3&) *)
Definition add (a b : Vec3 Q) : Vec3 Q :=
  mkVec3 (d0 a + d0 b) (d1 a + d1 b) (d2 a + d2 b).
Definition sub (a b : Vec3 Q) : Vec3 Q :=
  mkVec3 (d0 a - d0 b) (d1 a - d1 b) (d2 a - d2 b).

(* operator*(T scalar), operator/(T scalar) *)
Definition scale (a : Vec3 Q) (k : Q) : Vec3 Q :=
  mkVec3 (d0 a * k) (d1 a * k) (d2 a * k).
Definition divs (a : Vec3 Q) (k : Q) : Vec3 Q :=
  mkVec3 (d0 a / k) (d1 a / k) (d2 a / k).

(* T operator*(const Vec3&): the dot product *)
Definition dot (a b : Vec3 Q) : Q :=
  d0 a * d0 b + d1 a * d1 b + d2 a * d2 b.

(* Vec3<int> operator+ : 32-bit additions *)
Definition addi (a b : Vec3 Z) : Vec3 Z :=
  mkVec3 (wrap32 (d0 a + d0 b)) (wrap32 (d1 a + d1 b)) (wrap32 (d2 a + d2 b)).

(* static_cast<int>(float): truncation toward zero *)
Definition truncQ (q : Q) : Z := Z.quot (Qnum q) (Zpos (Qden q)).

(* explicit Vec3<int>(const Vec3<float>&) *)
Definition toInt (a : Vec3 Q) : Vec3 Z :=
  mkVec3 (wrap32 (truncQ (d0 a))) (wrap32 (truncQ (d1 a))) (wrap32 (truncQ (d2 a))).
End Vec.

(** ** Particle.h, Particle.cpp *)

Record Particle : Type := mkParticle {
  _position : Vec3 Q;
  _predicted : Vec3 Q;
  _velocity : Vec3 Q;
  _density : Q;
  _nearDensity : Q
}.

(* Particle::Particle(position, velocity) *)
Definition Particle_new (position velocity : Vec3 Q) : Particle :=
  {| _position := position; _predicted := position; _velocity := velocity;
     _density := 0; _nearDensity := 0 |}.

(** ** SPH.h *)

Record SPHConfig : Type := mkConfig {
  gravity : Q;
  smoothingRadius : Q;
  targetDensity : Q;
  pressureMultiplier : Q;
  nearPressureMultiplier : Q;
  viscosityStrength : Q;
  collisionDamping : Q;
  bounds : Vec3 Q
}.

Definition SPHConfig_default : SPHConfig :=
  {| gravity := -9.81; smoothingRadius := 0.2; targetDensity := 1000;
     pressureMultiplier := 30; nearPressureMultiplier := 25;
     viscosityStrength := 0.035; collisionDamping := 0.85;
     bounds := mkVec3 1 1 1 |}%Q.

(** The engine object.  [_threads] keeps only the size of the thread vector,
    which is all [step] reads of it. *)
Record SPH : Type := mkSPH {
  _config : SPHConfig;
  _particles : list Particle;
  _threads : nat;
  K_SpikyPow2 : Q;
  K_SpikyPow3 : Q;
  K_SpikyPow2Grad : Q;
  K_SpikyPow3Grad : Q;
  _keys : list nat;
  _sortedIndices : list nat;
  _offsets : list nat;
  _reorderBuffer : list Particle;
  _velocitySnapshot : list (Vec3 Q);
  _useViscosity : bool
}.

(* static SPH instance {} *)
Definition SPH_instance : SPH :=
  {| _config := SPHConfig_default; _particles := []; _threads := 0;
     K_SpikyPow2 := 0; K_SpikyPow3 := 0; K_SpikyPow2Grad := 0; K_SpikyPow3Grad := 0;
     _keys := []; _sortedIndices := []; _offsets := []; _reorderBuffer := [];
     _velocitySnapshot := []; _useViscosity := true |}.

Definition with_particles (ps : list Particle) (s : SPH) : SPH :=
  {| _config := _config s; _particles := ps; _threads := _threads s;
     K_SpikyPow2 := K_SpikyPow2 s; K_SpikyPow3 := K_SpikyPow3 s;
     K_SpikyPow2Grad := K_SpikyPow2Grad s; K_SpikyPow3Grad := K_SpikyPow3Grad s;
     _keys := _keys s; _sortedIndices := _sortedIndices s; _offsets := _offsets s;
     _reorderBuffer := _reorderBuffer s; _velocitySnapshot := _velocitySnapshot s;
     _useViscosity := _useViscosity s |}.

Definition with_snapshot (vs : list (Vec3 Q)) (s : SPH) : SPH :=
  {| _config := _config s; _particles := _particles s; _threads := _threads s;
     K_SpikyPow2 := K_SpikyPow2 s; K_SpikyPow3 := K_SpikyPow3 s;
     K_SpikyPow2Grad := K_SpikyPow2Grad s; K_SpikyPow3Grad := K_SpikyPow3Grad s;
     _keys := _keys s; _sortedIndices := _sortedIndices s; _offsets := _offsets s;
     _reorderBuffer := _reorderBuffer s; _velocitySnapshot := vs;
     _useViscosity := _useViscosity s |}.

(** What the machine and the C++ library contribute. *)
Class Platform : Type := {
  (* std::sqrt *)
  sqrtf : Q -> Q;
  (* std::thread::hardware_concurrency() *)
  hardware_concurrency : nat;
  (* std::ranges::sort(range, comp) *)
  std_sort : (nat -> nat -> bool) -> list nat -> list nat;
  (* the storage behind the last element of _particles / velocitySnapshot *)
  strayParticle : Particle;
  strayVelocity : Vec3 Q
}.

(* vector::resize(n): keep the first n entries, value-initialise the rest *)
Definition resize {A} (n : nat) (d : A) (l : list A) : list A :=
  take n l ++ replicate (n - length l) d.

(** ** Rules.h *)

Definition PI : Q := 3.1415926.

Definition Qmax (a b : Q) : Q := if Qle_bool b a then a else b.
Definition Qltb (a b : Q) : bool := negb (Qle_bool b a).

(* std::clamp(v, lo, hi) *)
Definition clamp (v lo hi : Q) : Q :=
  if Qltb v lo then lo else if Qltb hi v then hi else v.

(** [spawnParticlesInBox]: the three [uniform_real_distribution]s draw
    [a + u * (b - a)] from a canonical sample [u] of the generator; the
    samples the generator hands out are the argument [draws], one triple per
    particle. *)
Definition uniform (a b u : Q) : Q := (a + u * (b - a))%Q.

Definition spawnParticlesInBox (count : nat) (boxSize margin minHeightRatio : Q)
    (draws : list (Q * Q * Q)) : list Particle :=
  let halfBox := (boxSize * 0.5)%Q in
  let clampedMargin := clamp margin 0 halfBox in
  let maxY := (halfBox - clampedMargin)%Q in
  let minY0 := Qmax (- halfBox + clampedMargin)%Q (minHeightRatio * halfBox)%Q in
  let minY := if Qltb maxY minY0 then maxY else minY0 in
  fmap (fun '(ux, uy, uz) =>
         let position :=
           mkVec3 (uniform (- halfBox + clampedMargin) (halfBox - clampedMargin) ux)
                  (uniform minY maxY uy)
                  (uniform (- halfBox + clampedMargin) (halfBox - clampedMargin) uz) in
         Particle_new position (mkVec3 0 0 0)%Q)
      (take count draws).

(** ** SPH.cpp *)

Inductive fault : Type :=
| DivideByZero      (* an integer division with divisor 0 *)
| IteratorOverrun.  (* a range whose start lies behind the end of the vector *)

Inductive outcome : Type :=
| Completed (s : SPH)
| Faulted (f : fault).

Section Engine.
Context `{Platform}.
Local Open Scope Q_scope.

Definition init (config : SPHConfig) (particles : list Particle) (s : SPH) : SPH :=
  let n := length particles in
  let threadCount := Nat.min (Nat.max 1 hardware_concurrency) n in
  let smoothingRadius := smoothingRadius config in
  {| _config := config;
     _particles := particles;
     _threads := threadCount;
     K_SpikyPow2 := 15 / (2 * PI * smoothingRadius ^ 5);
     K_SpikyPow3 := 15 / (PI * smoothingRadius ^ 6);
     K_SpikyPow2Grad := 15 / (PI * smoothingRadius ^ 5);
     K_SpikyPow3Grad := 45 / (PI * smoothingRadius ^ 6);
     _keys := resize n 0%nat (_keys s);
     _sortedIndices := resize n 0%nat (_sortedIndices s);
     _offsets := resize n 0%nat (_offsets s);
     _reorderBuffer := resize n (Particle_new Vec.zero Vec.zero) (_reorderBuffer s);
     _velocitySnapshot := resize n Vec.zero (_velocitySnapshot s);
     _useViscosity := _useViscosity s |}.

(* Offsets for the 3x3x3 neighborhood around a cell (including the cell itself). *)
Definition OFFSETS_3D : list (Vec3 Z) :=
  [ mkVec3 (-1) (-1) (-1); mkVec3 0 (-1) (-1); mkVec3 1 (-1) (-1); mkVec3 (-1) 0 (-1);
    mkVec3 0 0 (-1); mkVec3 1 0 (-1); mkVec3 (-1) 1 (-1); mkVec3 0 1 (-1);
    mkVec3 1 1 (-1); mkVec3 (-1) (-1) 0; mkVec3 0 (-1) 0; mkVec3 1 (-1) 0;
    mkVec3 (-1) 0 0; mkVec3 0 0 0; mkVec3 1 0 0; mkVec3 (-1) 1 0; mkVec3 0 1 0;
    mkVec3 1 1 0; mkVec3 (-1) (-1) 1; mkVec3 0 (-1) 1; mkVec3 1 (-1) 1;
    mkVec3 (-1) 0 1; mkVec3 0 0 1; mkVec3 1 0 1; mkVec3 (-1) 1 1; mkVec3 0 1 1;
    mkVec3 1 1 1 ]%Z.

Definition HASH_X : Z := 73856093.
Definition HASH_Y : Z := 19349663.
Definition HASH_Z : Z := 83492791.

Definition setConfig (config : SPHConfig) (s : SPH) : SPH :=
  {| _config := config;
     _particles := _particles s; _threads := _threads s;
     K_SpikyPow2 := K_SpikyPow2 s; K_SpikyPow3 := K_SpikyPow3 s;
     K_SpikyPow2Grad := K_SpikyPow2Grad s; K_SpikyPow3Grad := K_SpikyPow3Grad s;
     _keys := _keys s; _sortedIndices := _sortedIndices s; _offsets := _offsets s;
     _reorderBuffer := _reorderBuffer s; _velocitySnapshot := _velocitySnapshot s;
     _useViscosity := _useViscosity s |}.

Definition config (s : SPH) : SPHConfig := _config s.

(** *** Kernels *)

Definition densityKernel (s : SPH) (distance : Q) : Q :=
  let h := smoothingRadius (_config s) in
  if Qltb distance h then
    let v := h - distance in v * v * K_SpikyPow2 s
  else 0.

Definition nearDensityKernel (s : SPH) (distance : Q) : Q :=
  let h := smoothingRadius (_config s) in
  if Qltb distance h then
    let v := h - distance in v * v * v * K_SpikyPow3 s
  else 0.

Definition densityDerivative (s : SPH) (distance : Q) : Q :=
  let h := smoothingRadius (_config s) in
  if Qle_bool distance h then
    let v := h - distance in - v * K_SpikyPow2Grad s
  else 0.

Definition nearDensityDerivative (s : SPH) (distance : Q) : Q :=
  let h := smoothingRadius (_config s) in
  if Qle_bool distance h then
    let v := h - distance in - v * v * K_SpikyPow3Grad s
  else 0.

Definition poly6Kernel (s : SPH) (distance : Q) : Q :=
  let h := smoothingRadius (_config s) in
  if Qltb distance h then
    let scale := 315 / (64 * PI * h ^ 9) in
    let v := h * h - distance * distance in
    v * v * v * scale
  else 0.

Definition pressureFromDensity (s : SPH) (density : Q) : Q :=
  (density - targetDensity (_config s)) * pressureMultiplier (_config s).

Definition nearPressureFromDensity (s : SPH) (nearDensity : Q) : Q :=
  nearDensity * nearPressureMultiplier (_config s).

(** *** Spatial hash *)

Definition getCell (s : SPH) (particle : Particle) : Vec3 Z :=
  Vec.toInt (Vec.divs (_predicted particle) (smoothingRadius (_config s))).

(* cell[0] * HASH_X ^ cell[1] * HASH_Y ^ cell[2] * HASH_Z, on 32-bit ints *)
Definition hash (cell : Vec3 Z) : Z :=
  Z.lxor (Z.lxor (wrap32 (d0 cell * HASH_X)) (wrap32 (d1 cell * HASH_Y)))
         (wrap32 (d2 cell * HASH_Z)).

(* The argument is converted to uint32_t; [%] by 0 particles is not
   reached from [step], which faults earlier. *)
Definition keyFromHash (s : SPH) (hash : Z) : nat :=
  Z.to_nat ((hash mod 2 ^ 32) mod Z.of_nat (length (_particles s)))%Z.

Definition sign (v : Q) : Q := if Qle_bool 0 v then 1 else -1.

(* One iteration of the zip over (position, velocity, halfBound). *)
Definition resolveAxis (s : SPH) (position velocity halfBound : Q) : Q * Q :=
  if Qle_bool (halfBound - Qabs position) 0 then
    (halfBound * sign position, velocity * - collisionDamping (_config s))
  else (position, velocity).

Definition resolveCollisions (s : SPH) (particle : Particle) : Particle :=
  let b := bounds (_config s) in
  let '(p0, v0) := resolveAxis s (d0 (_position particle)) (d0 (_velocity particle)) (d0 b) in
  let '(p1, v1) := resolveAxis s (d1 (_position particle)) (d1 (_velocity particle)) (d1 b) in
  let '(p2, v2) := resolveAxis s (d2 (_position particle)) (d2 (_velocity particle)) (d2 b) in
  {| _position := mkVec3 p0 p1 p2; _predicted := _predicted particle;
     _velocity := mkVec3 v0 v1 v2;
     _density := _density particle; _nearDensity := _nearDensity particle |}.

(** *** Loops over a range of particles *)

(* for (auto particleIt = start; particleIt != end; ++particleIt) *)
Definition forParticles (body : SPH -> nat -> Particle -> Particle)
    (start end_ : nat) (s : SPH) : SPH :=
  fold_left
    (fun s i =>
       match _particles s !! i with
       | Some particle => with_particles (<[i := body s i particle]> (_particles s)) s
       | None => s
       end)
    (seq start (end_ - start)) s.

Definition externalForcesBody (dt : Q) (s : SPH) (id : nat) (particle : Particle)
    : Particle :=
  let v := _velocity particle in
  let velocity := mkVec3 (d0 v) (d1 v + gravity (_config s) * dt) (d2 v) in
  {| _position := _position particle;
     _predicted := Vec.add (_position particle) (Vec.scale velocity dt);
     _velocity := velocity;
     _density := _density particle; _nearDensity := _nearDensity particle |}.

Definition applyExternalForces (dt : Q) : nat -> nat -> SPH -> SPH :=
  forParticles (externalForcesBody dt).

(* _keys[a] < _keys[b] *)
Definition keyLess (keys : list nat) (a b : nat) : bool :=
  (default 0%nat (keys !! a) <? default 0%nat (keys !! b))%nat.

Definition buildSpatialHash (s : SPH) : SPH :=
  let n := Nat.min (length (_particles s)) (length (_keys s)) in
  let keys :=
    fmap (fun particle => keyFromHash s (hash (getCell s particle))) (take n (_particles s))
    ++ drop n (_keys s) in
  {| _config := _config s; _particles := _particles s; _threads := _threads s;
     K_SpikyPow2 := K_SpikyPow2 s; K_SpikyPow3 := K_SpikyPow3 s;
     K_SpikyPow2Grad := K_SpikyPow2Grad s; K_SpikyPow3Grad := K_SpikyPow3Grad s;
     _keys := keys;
     _sortedIndices := std_sort (keyLess keys) (seq 0 (length (_sortedIndices s)));
     _offsets := _offsets s;
     _reorderBuffer := _reorderBuffer s; _velocitySnapshot := _velocitySnapshot s;
     _useViscosity := _useViscosity s |}.

(* _particles[i]; behind the end (i = size) the read is the platform's *)
Definition particleAt (s : SPH) (i : nat) : Particle :=
  default strayParticle (_particles s !! i).

Definition reorderParticles (s : SPH) : SPH :=
  let keysCopy := _keys s in
  let n := Nat.min (length (_sortedIndices s))
                   (Nat.min (length (_keys s)) (length (_reorderBuffer s))) in
  let visited := take n (_sortedIndices s) in
  let buffer := fmap (particleAt s) visited ++ drop n (_reorderBuffer s) in
  let keys := fmap (fun sortedIndex => default 0%nat (keysCopy !! sortedIndex)) visited
              ++ drop n (_keys s) in
  {| _config := _config s; _particles := buffer; _threads := _threads s;
     K_SpikyPow2 := K_SpikyPow2 s; K_SpikyPow3 := K_SpikyPow3 s;
     K_SpikyPow2Grad := K_SpikyPow2Grad s; K_SpikyPow3Grad := K_SpikyPow3Grad s;
     _keys := keys; _sortedIndices := _sortedIndices s; _offsets := _offsets s;
     _reorderBuffer := buffer; _velocitySnapshot := _velocitySnapshot s;
     _useViscosity := _useViscosity s |}.

(* std::ranges::fill(_offsets, N), then the loop that lowers _offsets[k] *)
Definition fillOffsets (keys : list nat) (n size : nat) : list nat :=
  fold_left
    (fun offsets i =>
       let k := default 0%nat (keys !! i) in
       if (i <? default 0%nat (offsets !! k))%nat then <[k := i]> offsets else offsets)
    (seq 0 size) (replicate size n).

Definition computeOffsets (s : SPH) : SPH :=
  {| _config := _config s; _particles := _particles s; _threads := _threads s;
     K_SpikyPow2 := K_SpikyPow2 s; K_SpikyPow3 := K_SpikyPow3 s;
     K_SpikyPow2Grad := K_SpikyPow2Grad s; K_SpikyPow3Grad := K_SpikyPow3Grad s;
     _keys := _keys s; _sortedIndices := _sortedIndices s;
     _offsets := fillOffsets (_keys s) (length (_particles s)) (length (_offsets s));
     _reorderBuffer := _reorderBuffer s; _velocitySnapshot := _velocitySnapshot s;
     _useViscosity := negb (Qeq_bool (viscosityStrength (_config s)) 0) |}.

(** *** Neighbour walks *)

(* The 27 keys  keyFromHash(hash(originCell + offset)). *)
Definition neighborKeys (s : SPH) (particle : Particle) : list nat :=
  fmap (fun offset => keyFromHash s (hash (Vec.addi (getCell s particle) offset)))
      OFFSETS_3D.

(** [while (neighborIndex < _particles.size() && _keys[neighborIndex] == key)]:
    the values of [neighborIndex] at which the loop test succeeds, in
    order.  The index grows by one per iteration, so the loop runs at most
    [n - idx] times; [fuel] counts the iterations left. *)
Fixpoint bucketRun (keys : list nat) (n key : nat) (fuel idx : nat) : list nat :=
  match fuel with
  | O => []
  | S fuel' =>
      if ((idx <? n)%nat && (default 0%nat (keys !! idx) =? key)%nat)%bool
      then idx :: bucketRun keys n key fuel' (S idx)
      else []
  end.

Definition bucketWalk (s : SPH) (key : nat) : list nat :=
  let n := length (_particles s) in
  let neighborIndex := default 0%nat (_offsets s !! key) in
  bucketRun (_keys s) n key (n - neighborIndex) neighborIndex.

(* calculateDensities dereferences neighborIndex, then increments it. *)
Definition densityReads (s : SPH) (particle : Particle) : list nat :=
  flat_map (bucketWalk s) (neighborKeys s particle).

(* calculatePressureForce and calculateViscosity increment neighborIndex,
   then dereference it. *)
Definition neighborReads (s : SPH) (particle : Particle) : list nat :=
  flat_map (fun key => S <$> bucketWalk s key) (neighborKeys s particle).

Definition squareDistance (particle neighbor : Particle) : Q :=
  let distanceToNeighbor := Vec.sub (_predicted neighbor) (_predicted particle) in
  Vec.dot distanceToNeighbor distanceToNeighbor.

(* squareDistance <= squareRadius *)
Definition withinRadius (s : SPH) (particle neighbor : Particle) : bool :=
  Qle_bool (squareDistance particle neighbor) (smoothingRadius (_config s) ^ 2).

(** *** Physics passes *)

Definition densityBody (s : SPH) (id : nat) (particle : Particle) : Particle :=
  let hits :=
    filter (fun j => withinRadius s particle (particleAt s j) = true)
           (densityReads s particle) in
  let distance j :=
    (* distanceToNeighbor.norm() *)
    sqrtf (squareDistance particle (particleAt s j)) in
  {| _position := _position particle; _predicted := _predicted particle;
     _velocity := _velocity particle;
     _density := fold_left (fun density j => density + densityKernel s (distance j)) hits 0;
     _nearDensity :=
       fold_left (fun nearDensity j => nearDensity + nearDensityKernel s (distance j)) hits 0
  |}.

Definition calculateDensities : nat -> nat -> SPH -> SPH :=
  forParticles densityBody.

(** The neighbours that pass both tests of the pressure loop, in the order
    the loop meets them: [neighbor != particle] compares addresses, that is
    positions in [_particles]. *)
Definition acceptedNeighbors (s : SPH) (id : nat) (particle : Particle) : list nat :=
  filter (fun j => j <> id /\ withinRadius s particle (particleAt s j) = true)
         (neighborReads s particle).

(* The two terms one accepted neighbour adds to pressureForce. *)
Definition pressureTerm (s : SPH) (particle neighbor : Particle) : Vec3 Q :=
  let pressure := pressureFromDensity s (_density particle) in
  let nearPressure := nearPressureFromDensity s (_nearDensity particle) in
  let distanceToNeighbor := Vec.sub (_predicted neighbor) (_predicted particle) in
  let sharedPressure := (pressure + pressureFromDensity s (_density neighbor)) * 0.5 in
  let sharedNearPressure :=
    (nearPressure + nearPressureFromDensity s (_density neighbor)) * 0.5 in
  let dstToNeighbor := sqrtf (squareDistance particle neighbor) in
  let dirToNeighbor :=
    if Qltb (1 # 1000000) dstToNeighbor then Vec.divs distanceToNeighbor dstToNeighbor
    else Vec.zero in
  Vec.add
    (Vec.divs (Vec.scale (Vec.scale dirToNeighbor (densityDerivative s dstToNeighbor))
                         sharedPressure)
              (_density neighbor))
    (Vec.divs (Vec.scale (Vec.scale dirToNeighbor (nearDensityDerivative s dstToNeighbor))
                         sharedNearPressure)
              (Qmax (1 # 1000000) (_nearDensity neighbor))).

Definition pressureBody (dt : Q) (s : SPH) (id : nat) (particle : Particle) : Particle :=
    let accepted := acceptedNeighbors s id particle in
    let pressureForce :=
      fold_left (fun force j => Vec.add force (pressureTerm s particle (particleAt s j)))
                accepted Vec.zero in
    let neighborCount := length accepted in
    let acceleration :=
      Vec.scale pressureForce (1 / Qmax (1 # 1000000) (_density particle)) in
    let velocity := Vec.add (_velocity particle) (Vec.scale acceleration dt) in
    (* Airborne drag *)
    let velocity :=
      if (neighborCount <? 8)%nat
      then Vec.sub velocity (Vec.scale (Vec.scale velocity dt) 0.75)
      else velocity in
    {| _position := _position particle; _predicted := _predicted particle;
       _velocity := velocity;
       _density := _density particle; _nearDensity := _nearDensity particle |}.

Definition calculatePressureForce (dt : Q) : nat -> nat -> SPH -> SPH :=
  forParticles (pressureBody dt).

(* _velocitySnapshot[i] = _particles[i]._velocity, for the worker's range *)
Definition writeSnapshot (start end_ : nat) (s : SPH) : SPH :=
  fold_left
    (fun s i => with_snapshot (<[i := _velocity (particleAt s i)]> (_velocitySnapshot s)) s)
    (seq start (end_ - start)) s.

(* velocitySnapshot[i]; behind the end the read is the platform's *)
Definition snapshotAt (s : SPH) (i : nat) : Vec3 Q :=
  default strayVelocity (_velocitySnapshot s !! i).

Definition viscosityBody (dt : Q) (s : SPH) (id : nat) (particle : Particle) : Particle :=
    let velocity := snapshotAt s id in
    let accepted := acceptedNeighbors s id particle in
    let viscosityForce :=
      fold_left
        (fun force neighborIndex =>
           let distance := sqrtf (squareDistance particle (particleAt s neighborIndex)) in
           Vec.add force
             (Vec.scale (Vec.sub (snapshotAt s neighborIndex) velocity)
                        (poly6Kernel s distance)))
        accepted Vec.zero in
    {| _position := _position particle; _predicted := _predicted particle;
       _velocity :=
         Vec.add (_velocity particle)
                 (Vec.scale (Vec.scale viscosityForce (viscosityStrength (_config s))) dt);
       _density := _density particle; _nearDensity := _nearDensity particle |}.

Definition calculateViscosity (dt : Q) : nat -> nat -> SPH -> SPH :=
  forParticles (viscosityBody dt).

Definition positionBody (dt : Q) (s : SPH) (id : nat) (particle : Particle) : Particle :=
  resolveCollisions s
    {| _position := Vec.add (_position particle) (Vec.scale (_velocity particle) dt);
       _predicted := _predicted particle; _velocity := _velocity particle;
       _density := _density particle; _nearDensity := _nearDensity particle |}.

Definition updatePositions (dt : Q) : nat -> nat -> SPH -> SPH :=
  forParticles (positionBody dt).

(** *** The step *)

(* start = begin + t * chunk,  end = min(start + chunk, end()) *)
Definition threadRange (n chunk t : nat) : nat * nat :=
  let start := (t * chunk)%nat in (start, Nat.min (start + chunk) n).

Definition threadRanges (n threadCount chunk : nat) : list (nat * nat) :=
  threadRange n chunk <$> seq 0 threadCount.

(* All workers run one pass on their ranges, up to the next rendezvous. *)
Definition dispatch (pass : nat -> nat -> SPH -> SPH) (ranges : list (nat * nat))
    (s : SPH) : SPH :=
  fold_left (fun s r => pass (fst r) (snd r) s) ranges s.

(* Step 2 and 3 of step(): hash, sort, reorder, offsets. *)
Definition buildIndex (s : SPH) : SPH :=
  computeOffsets (reorderParticles (buildSpatialHash s)).

(* chunk = (_particles.size() + threadCount - 1) / threadCount, and the
   ranges of the threadCount workers. *)
Definition stepRanges (s : SPH) : list (nat * nat) :=
  let n := length (_particles s) in
  let threadCount := _threads s in
  let chunk := ((n + threadCount - 1) / threadCount)%nat in
  threadRanges n threadCount chunk.

Definition step (dt : Q) (s : SPH) : outcome :=
  let n := length (_particles s) in
  let threadCount := _threads s in
  if (threadCount =? 0)%nat then Faulted DivideByZero else
  let ranges := stepRanges s in
  if existsb (fun r => (n <? fst r)%nat) ranges then Faulted IteratorOverrun else
  (* 1) Apply external forces and compute predicted positions. *)
  let s := dispatch (applyExternalForces dt) ranges s in
  (* 2), 3) Spatial hash, reorder, offsets. *)
  let s := buildIndex s in
  (* 4) Density -> pressure -> viscosity -> position update. *)
  let s := dispatch calculateDensities ranges s in
  let s := dispatch (calculatePressureForce dt) ranges s in
  let s :=
    if _useViscosity s
    then dispatch (calculateViscosity dt) ranges (dispatch writeSnapshot ranges s)
    else s in
  Completed (dispatch (updatePositions dt) ranges s).

End Engine.

(** ** Contracts and invariants used by the statements *)

(* a <= b for every adjacent pair *)
Fixpoint nondecreasing (l : list nat) : bool :=
  match l with
  | a :: (b :: _) as rest => (a <=? b)%nat && nondecreasing rest
  | _ => true
  end.

(** What [std::ranges::sort] guarantees for the call in [buildSpatialHash]:
    the result rearranges [0 .. n-1] and, read through [keys], never
    descends.  Ties may come out in any order. *)
Definition sort_post (keys : list nat) (n : nat) (sorted : list nat) : bool :=
  bool_decide (length sorted = n)
  && forallb (fun i => (i <? n)%nat) sorted
  && bool_decide (NoDup sorted)
  && nondecreasing (fmap (fun i => default 0%nat (keys !! i)) sorted).

(* The sort of this step kept its contract. *)
Definition sortOk `{Platform} (s : SPH) : bool :=
  let s1 := buildSpatialHash s in
  sort_post (_keys s1) (length (_sortedIndices s)) (_sortedIndices s1).

(* Buffer sizing: every scratch buffer is as long as the particle array. *)
Definition sized (s : SPH) : Prop :=
  length (_keys s) = length (_particles s)
  /\ length (_sortedIndices s) = length (_particles s)
  /\ length (_offsets s) = length (_particles s)
  /\ length (_reorderBuffer s) = length (_particles s)
  /\ length (_velocitySnapshot s) = length (_particles s).

(* The configuration and the coefficients derived from it at [init]. *)
Definition coefficients (s : SPH) : SPHConfig * (Q * Q * Q * Q) :=
  (_config s, (K_SpikyPow2 s, K_SpikyPow3 s, K_SpikyPow2Grad s, K_SpikyPow3Grad s)).

(* [s'] differs from [s] in the contents of the particle array only. *)
Definition frame (s s' : SPH) : Prop :=
  coefficients s' = coefficients s
  /\ _threads s' = _threads s
  /\ _keys s' = _keys s
  /\ _sortedIndices s' = _sortedIndices s
  /\ _offsets s' = _offsets s
  /\ _reorderBuffer s' = _reorderBuffer s
  /\ _velocitySnapshot s' = _velocitySnapshot s
  /\ _useViscosity s' = _useViscosity s
  /\ length (_particles s') = length (_particles s).

(* One iteration of the loop that lowers _offsets[k]. *)
Definition lowerOffset (keys : list nat) (offsets : list nat) (i : nat) : list nat :=
  let k := default 0%nat (keys !! i) in
  if (i <? default 0%nat (offsets !! k))%nat then <[k := i]> offsets else offsets.

(* [v] is where bucket [k] starts among the first [m] keys, or [n] if none
   of them is [k]. *)
Definition startOf (keys : list nat) (n m k v : nat) : Prop :=
  ((v < m)%nat /\ keys !! v = Some k /\ forall j, (j < v)%nat -> keys !! j <> Some k)
  \/ (v = n /\ forall j, (j < m)%nat -> keys !! j <> Some k).

(** The state of the spatial index the physics passes rely on: keys and
    offsets as long as the particle array, keys ascending, each key the hash
    key of the particle stored at its index, and each offset the start of
    its bucket (or N for an empty bucket). *)
Definition indexed (s : SPH) : Prop :=
  let n := length (_particles s) in
  length (_keys s) = n
  /\ length (_offsets s) = n
  /\ (forall i j a b, (i <= j)%nat ->
        _keys s !! i = Some a -> _keys s !! j = Some b -> (a <= b)%nat)
  /\ (forall i p, _particles s !! i = Some p ->
        _keys s !! i = Some (keyFromHash s (hash (getCell s p))))
  /\ (forall k, (k < n)%nat ->
        exists v, _offsets s !! k = Some v /\ startOf (_keys s) n n k v).

(** [s'] has the index of [s]: same configuration, keys, offsets and size,
    and the same predicted position at every index.  The density, pressure,
    snapshot and viscosity passes only move a state within this relation. *)
Definition sameIndex (s s' : SPH) : Prop :=
  _config s' = _config s
  /\ _keys s' = _keys s
  /\ _offsets s' = _offsets s
  /\ length (_particles s') = length (_particles s)
  /\ (forall i p p', _particles s !! i = Some p -> _particles s' !! i = Some p' ->
        _predicted p' = _predicted p).

(* The keys buildSpatialHash writes when the buffers have the right size. *)
Definition hashedKeys (s : SPH) : list nat :=
  (fun particle => keyFromHash s (hash (getCell s particle))) <$> _particles s.

(* How often index [j] occurs in a list of visited indices. *)
Definition occurrences (j : nat) (l : list nat) : nat :=
  length (filter (fun x => x = j) l).

(* A canonical sample of the generator. *)
Definition unitSample (u : Q) : Prop := (0 <= u <= 1)%Q.

Definition unitDraw (d : Q * Q * Q) : Prop :=
  unitSample (fst (fst d)) /\ unitSample (snd (fst d)) /\ unitSample (snd d).

(* What C10 promises of one seeded particle. *)
Definition seededInside (boxSize : Q) (p : Particle) : Prop :=
  (Qabs (d0 (_position p)) <= boxSize / 2)%Q
  /\ (Qabs (d1 (_position p)) <= boxSize / 2)%Q
  /\ (Qabs (d2 (_position p)) <= boxSize / 2)%Q
  /\ _velocity p = mkVec3 0%Q 0%Q 0%Q
  /\ _predicted p = _position p.

(* One of the three steps of a neighbourhood offset. *)
Definition unitStep (z : Z) : Prop := z = (-1)%Z \/ z = 0%Z \/ z = 1%Z.

(* [s'] has the thread count and the buffer lengths of [s]. *)
Definition sameShape (s s' : SPH) : Prop :=
  _threads s' = _threads s
  /\ length (_particles s') = length (_particles s)
  /\ length (_keys s') = length (_keys s)
  /\ length (_sortedIndices s') = length (_sortedIndices s)
  /\ length (_offsets s') = length (_offsets s)
  /\ length (_reorderBuffer s') = length (_reorderBuffer s)
  /\ length (_velocitySnapshot s') = length (_velocitySnapshot s).

(** ** A concrete platform, for running the engine *)

Module Demo.

(* An insertion sort that leaves equal keys in reverse order: one of the
   results std::ranges::sort may produce. *)
Fixpoint insertKey (lt : nat -> nat -> bool) (a : nat) (l : list nat) : list nat :=
  match l with
  | [] => [a]
  | b :: l' => if lt a b then a :: l else b :: insertKey lt a l'
  end.

Definition insertionSort (lt : nat -> nat -> bool) (l : list nat) : list nat :=
  fold_right (insertKey lt) [] l.

(* Square root to six decimals. *)
Definition Qsqrt (q : Q) : Q :=
  (Z.sqrt (Qnum q * Zpos (Qden q) * 10 ^ 12) # (Qden q * 10 ^ 6)).

(* A particle far outside every box used below. *)
Definition far : Particle := Particle_new (mkVec3 100 100 100)%Q Vec.zero.

#[export] Instance platform : Platform :=
  {| sqrtf := Qsqrt; hardware_concurrency := 8; std_sort := insertionSort;
     strayParticle := far; strayVelocity := Vec.zero |}.

(* Floor bounce: pressure and viscosity off, no gravity, damping 0.5. *)
Definition bounceConfig : SPHConfig :=
  {| gravity := 0; smoothingRadius := 0.2; targetDensity := 1000;
     pressureMultiplier := 0; nearPressureMultiplier := 0;
     viscosityStrength := 0; collisionDamping := 0.5;
     bounds := mkVec3 1 1 1 |}%Q.

Definition bounceParticle : Particle :=
  Particle_new (mkVec3 0 (-1) 0)%Q (mkVec3 0 (-2) 0)%Q.

(* Two particles of one cell, 0.05 * sqrt 3 apart. *)
Definition pairA : Particle := Particle_new (mkVec3 0.05 0.05 0.05)%Q Vec.zero.
Definition pairB : Particle := Particle_new (mkVec3 0.1 0.1 0.1)%Q Vec.zero.

(* Violates every constraint the configuration table states. *)
Definition invalidConfig : SPHConfig :=
  {| gravity := -9.81; smoothingRadius := -1; targetDensity := 1000;
     pressureMultiplier := 30; nearPressureMultiplier := 25;
     viscosityStrength := 0.035; collisionDamping := -1;
     bounds := mkVec3 0 0 0 |}%Q.

(* The default configuration with the smoothing radius doubled. *)
Definition widerConfig : SPHConfig :=
  {| gravity := -9.81; smoothingRadius := 0.4; targetDensity := 1000;
     pressureMultiplier := 30; nearPressureMultiplier := 25;
     viscosityStrength := 0.035; collisionDamping := 0.85;
     bounds := mkVec3 1 1 1 |}%Q.

(* The default configuration with smoothing radius 1. *)
Definition unitConfig : SPHConfig :=
  {| gravity := -9.81; smoothingRadius := 1; targetDensity := 1000;
     pressureMultiplier := 30; nearPressureMultiplier := 25;
     viscosityStrength := 0.035; collisionDamping := 0.85;
     bounds := mkVec3 1 1 1 |}%Q.

(* No gravity, default radius 0.2: predicted positions stay where the
   particles are seeded. *)
Definition pairStart : SPH := init bounceConfig [pairA; pairB] SPH_instance.

(* Two workers, one particle each. *)
Definition pairRanges : list (nat * nat) := threadRanges 2 2 1.

(* The state in which step (1/60) builds the index of the pair ... *)
Definition pairPredicted : SPH := dispatch (applyExternalForces (1 # 60)) pairRanges pairStart.

(* ... and the state in which it starts the pressure pass. *)
Definition pairPressure : SPH := dispatch calculateDensities pairRanges (buildIndex pairPredicted).

(* Three particles in three different cells. *)
Definition tripleStart : SPH :=
  init bounceConfig
    [Particle_new (mkVec3 0.5 0.5 0.5)%Q Vec.zero; pairA;
     Particle_new (mkVec3 (-0.3) 0.1 0.7)%Q Vec.zero] SPH_instance.

(* The same platform with four hardware threads ... *)
Definition quad : Platform :=
  {| sqrtf := Qsqrt; hardware_concurrency := 4; std_sort := insertionSort;
     strayParticle := far; strayVelocity := Vec.zero |}.

(* ... and five particles for it. *)
Definition five : list Particle := [pairA; pairB; pairA; pairB; pairA].

End Demo.

(* The floor-bounce engine: one particle on the floor, moving down. *)
Definition bounceStart `{Platform} : SPH :=
  init Demo.bounceConfig [Demo.bounceParticle] SPH_instance.

(** ** Views of the loops, for the statements about whole passes *)

(* One iteration of the loop of [forParticles]. *)
Definition visit (body : SPH -> nat -> Particle -> Particle) (s : SPH) (i : nat) : SPH :=
  match _particles s !! i with
  | Some particle => with_particles (<[i := body s i particle]> (_particles s)) s
  | None => s
  end.

(* The indices the workers of one pass visit, worker after worker. *)
Definition visited (ranges : list (nat * nat)) : list nat :=
  flat_map (fun r => seq (fst r) (snd r - fst r)) ranges.

(* |position| <= |bounds| on every axis. *)
Definition insideBox (b : Vec3 Q) (p : Particle) : Prop :=
  (Qabs (d0 (_position p)) <= Qabs (d0 b))%Q
  /\ (Qabs (d1 (_position p)) <= Qabs (d1 b))%Q
  /\ (Qabs (d2 (_position p)) <= Qabs (d2 b))%Q.

(** The states of [step] at its rendezvous, for an engine whose step does
    not fault: after the prediction, after the index build, after the
    density pass, after the pressure pass and after the viscosity pass. *)
Section Rendezvous.
Context `{Platform}.

Definition predictedState (dt : Q) (s : SPH) : SPH :=
  dispatch (applyExternalForces dt) (stepRanges s) s.

Definition indexState (dt : Q) (s : SPH) : SPH := buildIndex (predictedState dt s).

Definition densityState (dt : Q) (s : SPH) : SPH :=
  dispatch calculateDensities (stepRanges s) (indexState dt s).

Definition pressureState (dt : Q) (s : SPH) : SPH :=
  dispatch (calculatePressureForce dt) (stepRanges s) (densityState dt s).

Definition viscosityState (dt : Q) (s : SPH) : SPH :=
  if _useViscosity (pressureState dt s)
  then dispatch (calculateViscosity dt) (stepRanges s)
         (dispatch writeSnapshot (stepRanges s) (pressureState dt s))
  else pressureState dt s.

End Rendezvous.

(* The neighbours the density loop accumulates, in the order it meets them. *)
Definition densityHits `{Platform} (s : SPH) (particle : Particle) : list nat :=
  filter (fun j => withinRadius s particle (particleAt s j) = true)
         (densityReads s particle).

(** [s'] has the index, the coefficients and the velocity snapshot of [s]:
    all that the density pass reads of the engine and of other particles. *)
Definition sameWalk (s s' : SPH) : Prop :=
  sameIndex s s'
  /\ coefficients s' = coefficients s
  /\ _velocitySnapshot s' = _velocitySnapshot s.

(** ... and, in addition, the densities at every index: all that the
    pressure and viscosity passes read of the engine and of other
    particles. *)
Definition sameFluid (s s' : SPH) : Prop :=
  sameWalk s s'
  /\ (forall i p p', _particles s !! i = Some p -> _particles s' !! i = Some p' ->
        _density p' = _density p /\ _nearDensity p' = _nearDensity p).

(* Gravity, then the airborne drag of [pressureBody] with no pressure force:
   the velocity of a particle that no neighbour pushes. *)
Definition draggedVelocity `{Platform} (dt : Q) (s : SPH) (p : Particle) : Vec3 Q :=
  let v := _velocity (externalForcesBody dt s 0 p) in
  Vec.sub v (Vec.scale (Vec.scale v dt) 0.75).


(** ** Vec.h: norm, cross product, normalize *)

(* Vec3 operator|(const Vec3&) *)
Definition cross (a b : Vec3 Q) : Vec3 Q :=
  mkVec3 (d1 a * d2 b - d2 a * d1 b)%Q (d2 a * d0 b - d0 a * d2 b)%Q
         (d0 a * d1 b - d1 a * d0 b)%Q.

Section VecNorm.
Context `{Platform}.
Local Open Scope Q_scope.

(* T norm() const *)
Definition norm (a : Vec3 Q) : Q := sqrtf (d0 a * d0 a + d1 a * d1 a + d2 a * d2 a).

(* Vec3 normalize(): throws for a zero norm ([None]); otherwise it returns
   the scaled copy and leaves the vector itself as it is. *)
Definition normalize (a : Vec3 Q) : option (Vec3 Q) :=
  let norm := norm a in
  if Qeq_bool norm 0 then None else Some (Vec.divs a norm).

(* Particle::draw: the colour it hands to the uniform uColor. *)
Definition drawColor (particle : Particle) : Q * Q * Q :=
  let r := clamp (norm (_velocity particle) / 5) 0 1 in
  let g := 0.2 + (1 - r) * 0.3 in
  let b := 1 - r in
  (r, g, b).

End VecNorm.

(** ** Rules.h, continued; the C library and GLFW *)

Definition toRadians (degrees : Q) : Q := (degrees * PI / 180)%Q.

(* std::cos, std::sin, std::tan *)
Class Libm : Type := {
  cosf : Q -> Q;
  sinf : Q -> Q;
  tanf : Q -> Q
}.

(* The keys the camera's code asks glfwGetKey for, and the two arrow keys
   its header lists. *)
Inductive Key : Type :=
| GLFW_KEY_W | GLFW_KEY_S | GLFW_KEY_A | GLFW_KEY_D
| GLFW_KEY_SPACE | GLFW_KEY_LEFT_SHIFT
| GLFW_KEY_Q | GLFW_KEY_E | GLFW_KEY_R | GLFW_KEY_T
| GLFW_KEY_EQUAL | GLFW_KEY_KP_ADD | GLFW_KEY_MINUS | GLFW_KEY_KP_SUBTRACT
| GLFW_KEY_UP | GLFW_KEY_DOWN.

(** [uProjection * uView * vec4(aPos, 1.0)] in the vertex shaders of
    [Renderer::init]: a matrix handed over by glUniformMatrix4fv with
    transpose GL_FALSE is read column by column. *)
Definition mat4_mul (m : list Q) (v : Q * Q * Q * Q) : Q * Q * Q * Q :=
  let '(x, y, z, w) := v in
  match m with
  | [m0; m1; m2; m3; m4; m5; m6; m7; m8; m9; m10; m11; m12; m13; m14; m15] =>
      (m0 * x + m4 * y + m8 * z + m12 * w,
       m1 * x + m5 * y + m9 * z + m13 * w,
       m2 * x + m6 * y + m10 * z + m14 * w,
       m3 * x + m7 * y + m11 * z + m15 * w)%Q
  | _ => (0, 0, 0, 0)%Q
  end.

(** ** Camera.h, Camera.cpp *)

Module Camera.
Local Open Scope Q_scope.

(* The cached matrices are what getViewMatrix and getProjectionMatrix
   return; they are not kept in the record. *)
Record t : Type := mk {
  _position : Vec3 Q;
  _front : Vec3 Q;
  _up : Vec3 Q;
  _right : Vec3 Q;
  _yaw : Q;
  _pitch : Q;
  _fov : Q
}.

Definition _worldUp : Vec3 Q := mkVec3 0 1 0.
Definition MIN_PITCH : Q := -89.
Definition MAX_PITCH : Q := 89.
Definition _movementSpeed : Q := 2.5.
Definition _rotationSpeed : Q := 45.
Definition _zoomSpeed : Q := 30.
Definition MIN_ZOOM : Q := 1.
Definition MAX_ZOOM : Q := 90.
Definition _nearZoom : Q := 1.
Definition _farZoom : Q := 30.

(* The default member initialisers. *)
Definition members : t :=
  {| _position := mkVec3 0 1.5 3.5; _front := mkVec3 0 0 (-1); _up := mkVec3 0 1 0;
     _right := mkVec3 1 0 0; _yaw := -90; _pitch := -22.5; _fov := 65 |}.

Definition set_position (p : Vec3 Q) (c : t) : t :=
  {| _position := p; _front := _front c; _up := _up c; _right := _right c;
     _yaw := _yaw c; _pitch := _pitch c; _fov := _fov c |}.
Definition set_yaw (yaw : Q) (c : t) : t :=
  {| _position := _position c; _front := _front c; _up := _up c; _right := _right c;
     _yaw := yaw; _pitch := _pitch c; _fov := _fov c |}.
Definition set_pitch (pitch : Q) (c : t) : t :=
  {| _position := _position c; _front := _front c; _up := _up c; _right := _right c;
     _yaw := _yaw c; _pitch := pitch; _fov := _fov c |}.
Definition set_fov (fov : Q) (c : t) : t :=
  {| _position := _position c; _front := _front c; _up := _up c; _right := _right c;
     _yaw := _yaw c; _pitch := _pitch c; _fov := fov |}.

Section Methods.
Context `{Platform} `{Libm}.

(** The three calls of [normalize] drop the vector they return; what is
    left of them is the exception for a zero norm. *)
Definition updateCameraVectors (c : t) : option t :=
  let yawRad := toRadians (_yaw c) in
  let pitchRad := toRadians (_pitch c) in
  let front :=
    mkVec3 (cosf yawRad * cosf pitchRad) (sinf pitchRad) (sinf yawRad * cosf pitchRad) in
  _ ← normalize front;
  let right := cross front _worldUp in
  _ ← normalize right;
  let up := cross right front in
  _ ← normalize up;
  Some {| _position := _position c; _front := front; _up := up; _right := right;
          _yaw := _yaw c; _pitch := _pitch c; _fov := _fov c |}.

(* Camera::Camera() *)
Definition new : option t := updateCameraVectors members.

(** [processInput], block by block; [pressed k] is
    [glfwGetKey(window, k) == GLFW_PRESS]. *)

(* Movement controls *)
Definition movementControls (pressed : Key -> bool) (velocity : Q) (c : t) : t :=
  let c :=
    if pressed GLFW_KEY_W
    then set_position (Vec.add (_position c) (Vec.scale (_front c) velocity)) c else c in
  let c :=
    if pressed GLFW_KEY_S
    then set_position (Vec.sub (_position c) (Vec.scale (_front c) velocity)) c else c in
  let c :=
    if pressed GLFW_KEY_A
    then set_position (Vec.sub (_position c) (Vec.scale (_right c) velocity)) c else c in
  let c :=
    if pressed GLFW_KEY_D
    then set_position (Vec.add (_position c) (Vec.scale (_right c) velocity)) c else c in
  let c :=
    if pressed GLFW_KEY_SPACE
    then set_position (mkVec3 (d0 (_position c)) (d1 (_position c) + velocity)
                              (d2 (_position c))) c
    else c in
  if pressed GLFW_KEY_LEFT_SHIFT
  then set_position (mkVec3 (d0 (_position c)) (d1 (_position c) - velocity)
                            (d2 (_position c))) c
  else c.

(* Rotation controls (Q/E for yaw, up/down arrows for pitch) *)
Definition rotationControls (pressed : Key -> bool) (rotationVelocity : Q) (c : t)
    : option t :=
  c ← (if pressed GLFW_KEY_Q
       then updateCameraVectors (set_yaw (_yaw c - rotationVelocity) c) else Some c);
  c ← (if pressed GLFW_KEY_E
       then updateCameraVectors (set_yaw (_yaw c + rotationVelocity) c) else Some c);
  c ← (if pressed GLFW_KEY_R
       then updateCameraVectors
              (set_pitch (clamp (_pitch c + rotationVelocity) MIN_PITCH MAX_PITCH) c)
       else Some c);
  if pressed GLFW_KEY_T
  then updateCameraVectors
         (set_pitch (clamp (_pitch c - rotationVelocity) MIN_PITCH MAX_PITCH) c)
  else Some c.

(* Zoom controls (+/= to zoom in, - to zoom out) *)
Definition zoomControls (pressed : Key -> bool) (zoomVelocity : Q) (c : t) : t :=
  let c :=
    if pressed GLFW_KEY_EQUAL || pressed GLFW_KEY_KP_ADD
    then set_fov (clamp (_fov c - zoomVelocity) MIN_ZOOM MAX_ZOOM) c else c in
  if pressed GLFW_KEY_MINUS || pressed GLFW_KEY_KP_SUBTRACT
  then set_fov (clamp (_fov c + zoomVelocity) MIN_ZOOM MAX_ZOOM) c else c.

Definition processInput (pressed : Key -> bool) (deltaTime : Q) (c : t) : option t :=
  let velocity := _movementSpeed * deltaTime in
  let rotationVelocity := _rotationSpeed * deltaTime in
  let zoomVelocity := _zoomSpeed * deltaTime in
  c ← rotationControls pressed rotationVelocity (movementControls pressed velocity c);
  Some (zoomControls pressed zoomVelocity c).

Definition getViewMatrix (c : t) : list Q :=
  [ d0 (_right c); d0 (_up c); - d0 (_front c); 0;
    d1 (_right c); d1 (_up c); - d1 (_front c); 0;
    d2 (_right c); d2 (_up c); - d2 (_front c); 0;
    - Vec.dot (_right c) (_position c); - Vec.dot (_up c) (_position c);
    Vec.dot (_front c) (_position c); 1 ].

Definition getProjectionMatrix (aspect : Q) (c : t) : list Q :=
  let tanHalfFov := tanf (toRadians (_fov c) / 2) in
  [ 1 / (aspect * tanHalfFov); 0; 0; 0;
    0; 1 / tanHalfFov; 0; 0;
    0; 0; - (_farZoom + _nearZoom) / (_farZoom - _nearZoom); -1;
    0; 0; - (2 * _farZoom * _nearZoom) / (_farZoom - _nearZoom); 0 ].

End Methods.
End Camera.

(** ** Mesh.h, Mesh.cpp *)

Inductive Primitive : Type := Triangles | Lines | Points.

Module Mesh.

(* [_vao] and [_vbo] name objects of the GPU; the model keeps the floats
   that glBufferData uploaded. *)
Record t : Type := mk {
  buffer : list Q;
  _vertexCount : nat;
  _primitive : Primitive
}.

(* Mesh() = default *)
Definition empty : t := {| buffer := []; _vertexCount := 0; _primitive := Triangles |}.

(* explicit Mesh(vertices, primitive): nothing is uploaded for no vertex *)
Definition new (vertices : list Q) (primitive : Primitive) : t :=
  let vertexCount := (length vertices / 3)%nat in
  {| buffer := if (vertexCount =? 0)%nat then [] else vertices;
     _vertexCount := vertexCount; _primitive := primitive |}.

(* Attribute 0: three floats per vertex, tightly packed. *)
Fixpoint triples (l : list Q) : list (Vec3 Q) :=
  match l with
  | x :: y :: z :: l' => mkVec3 x y z :: triples l'
  | _ => []
  end.

(* Mesh::draw: the vertices glDrawArrays(primitive, 0, _vertexCount) reads;
   none for a mesh without vertices. *)
Definition draw (m : t) : list (Vec3 Q) := take (_vertexCount m) (triples (buffer m)).

(* GL_LINES: the vertices two by two. *)
Fixpoint segments (l : list (Vec3 Q)) : list (Vec3 Q * Vec3 Q) :=
  match l with
  | a :: b :: l' => (a, b) :: segments l'
  | _ => []
  end.

End Mesh.

Module MeshFactory.
Local Open Scope Q_scope.

(* for (int i = 0; i < n; ++i) *)
Definition upto (n : Z) : list Z := Z.of_nat <$> seq 0 (Z.to_nat n).

Definition buildSphereVertices `{Libm} (radius : Q) (rings segments : Z) : list Q :=
  flat_map
    (fun i : Z =>
       let phi1 := PI * inject_Z i / inject_Z rings in
       let phi2 := PI * inject_Z (i + 1) / inject_Z rings in
       let y1 := radius * cosf phi1 in
       let r1 := radius * sinf phi1 in
       let y2 := radius * cosf phi2 in
       let r2 := radius * sinf phi2 in
       flat_map
         (fun j : Z =>
            let theta1 := 2 * PI * inject_Z j / inject_Z segments in
            let theta2 := 2 * PI * inject_Z (j + 1) / inject_Z segments in
            let x11 := r1 * cosf theta1 in
            let z11 := r1 * sinf theta1 in
            let x12 := r1 * cosf theta2 in
            let z12 := r1 * sinf theta2 in
            let x21 := r2 * cosf theta1 in
            let z21 := r2 * sinf theta1 in
            let x22 := r2 * cosf theta2 in
            let z22 := r2 * sinf theta2 in
            [ x11; y1; z11;  x21; y2; z21;  x12; y1; z12;
              x12; y1; z12;  x21; y2; z21;  x22; y2; z22 ])
         (upto segments))
    (upto rings).

Definition createSphere `{Libm} (radius : Q) (rings segments : Z) : Mesh.t :=
  Mesh.new (buildSphereVertices radius rings segments) Triangles.

Definition createBox (halfSize : Vec3 Q) : Mesh.t :=
  let hx := d0 halfSize in
  let hy := d1 halfSize in
  let hz := d2 halfSize in
  Mesh.new
    [ (* Bottom face *)
      - hx; - hy; - hz;  hx; - hy; - hz;
      hx; - hy; - hz;  hx; - hy; hz;
      hx; - hy; hz;  - hx; - hy; hz;
      - hx; - hy; hz;  - hx; - hy; - hz;
      (* Top face *)
      - hx; hy; - hz;  hx; hy; - hz;
      hx; hy; - hz;  hx; hy; hz;
      hx; hy; hz;  - hx; hy; hz;
      - hx; hy; hz;  - hx; hy; - hz;
      (* Vertical edges *)
      - hx; - hy; - hz;  - hx; hy; - hz;
      hx; - hy; - hz;  hx; hy; - hz;
      hx; - hy; hz;  hx; hy; hz;
      - hx; - hy; hz;  - hx; hy; hz ]
    Lines.

End MeshFactory.

(** ** Renderer.h, Renderer.cpp: the wireframe of the box *)

Module Renderer.
Local Open Scope Q_scope.

Record t : Type := mk {
  _boxMesh : Mesh.t;
  _boxHalfSize : Vec3 Q
}.

(* Renderer::init builds the box of the engine's bounds; _boxHalfSize keeps
   its member initialiser. *)
Definition init (bounds : Vec3 Q) : t :=
  {| _boxMesh := MeshFactory.createBox bounds; _boxHalfSize := mkVec3 1 1 1 |}.

(* Renderer::draw, "Refresh box mesh if bounds changed", for the bounds of
   the engine's configuration: the test ... *)
Definition boundsChanged (bounds : Vec3 Q) (r : t) : bool :=
  let diff := Vec.sub bounds (_boxHalfSize r) in
  Qltb 0.0001 (Qabs (d0 diff)) || Qltb 0.0001 (Qabs (d1 diff))
  || Qltb 0.0001 (Qabs (d2 diff)).

(* ... and the refresh. *)
Definition refreshBox (bounds : Vec3 Q) (r : t) : t :=
  if boundsChanged bounds r
  then {| _boxMesh := MeshFactory.createBox bounds; _boxHalfSize := _boxHalfSize r |}
  else r.

End Renderer.

(* The corner of the box of half size [halfSize] with the given signs. *)
Definition boxCorner (halfSize : Vec3 Q) (sx sy sz : bool) : Vec3 Q :=
  mkVec3 (if sx then d0 halfSize else - d0 halfSize)%Q
         (if sy then d1 halfSize else - d1 halfSize)%Q
         (if sz then d2 halfSize else - d2 halfSize)%Q.

(* A stand-in for the C library on the rationals that keeps cos^2 + sin^2 = 1
   exactly: the rational parametrisation of the circle, the argument taken
   in lowest terms. *)
Definition circle : Libm :=
  {| cosf := fun t => let u := Qred t in ((1 - u * u) / (1 + u * u))%Q;
     sinf := fun t => let u := Qred t in (2 * u / (1 + u * u))%Q;
     tanf := fun t => let u := Qred t in (2 * u / (1 - u * u))%Q |}.

(* A camera that looks along x, tilted up: on [circle] its pitch has cosine
   3/5 and sine 4/5. *)
Definition tilted : Camera.t :=
  Camera.set_pitch (900000000 # 31415926) (Camera.set_yaw 0 Camera.members).

(* A keyboard on which only W is held. *)
Definition onlyW (k : Key) : bool :=
  match k with GLFW_KEY_W => true | _ => false end.

(** * Properties *)

(** ** Lifecycle: init, setConfig, empty simulations *)

Section Lifecycle.
Context `{Platform}.

Lemma length_resize {A} (n : nat) (d : A) (l : list A) : length (resize n d l) = n.
Proof.
  unfold resize. rewrite length_app, length_take, length_replicate. lia.
Qed.

Lemma init_sized config particles s : sized (init config particles s).
Proof.
  unfold sized, init; simpl. rewrite !length_resize. tauto.
Qed.

Lemma init_threads config particles s :
  _threads (init config particles s)
  = Nat.min (Nat.max 1 hardware_concurrency) (length particles).
Proof. reflexivity. Qed.

(** C9: [setConfig] writes the stored configuration and nothing else: the
    particle array, the five scratch buffers and the four kernel
    coefficients are those of the state it was called on. *)
Theorem setConfig_frame (s : SPH) (c : SPHConfig) :
  config (setConfig c s) = c
  /\ _particles (setConfig c s) = _particles s
  /\ _keys (setConfig c s) = _keys s
  /\ _sortedIndices (setConfig c s) = _sortedIndices s
  /\ _offsets (setConfig c s) = _offsets s
  /\ _reorderBuffer (setConfig c s) = _reorderBuffer s
  /\ _velocitySnapshot (setConfig c s) = _velocitySnapshot s
  /\ K_SpikyPow2 (setConfig c s) = K_SpikyPow2 s
  /\ K_SpikyPow3 (setConfig c s) = K_SpikyPow3 s
  /\ K_SpikyPow2Grad (setConfig c s) = K_SpikyPow2Grad s
  /\ K_SpikyPow3Grad (setConfig c s) = K_SpikyPow3Grad s.
Proof. unfold config, setConfig; simpl. repeat split. Qed.

(** C4, as the code has it: neither [init] nor [setConfig] inspects the
    configuration.  Whatever its smoothing radius, damping and bounds, the
    configuration handed in is the stored one afterwards; [setConfig] keeps
    the particles, [init] installs the new ones with buffers of their size. *)
Theorem config_installed_unchecked (c : SPHConfig) (particles : list Particle) (s : SPH) :
  config (setConfig c s) = c
  /\ _particles (setConfig c s) = _particles s
  /\ config (init c particles s) = c
  /\ _particles (init c particles s) = particles
  /\ sized (init c particles s).
Proof.
  repeat split; try reflexivity; apply init_sized.
Qed.

(** C3: after [init] with no particles the thread vector is empty, and
    [step] divides by its size when it computes the chunk length. *)
Theorem step_empty_divides_by_zero (c : SPHConfig) (s : SPH) (dt : Q) :
  _threads (init c [] s) = 0%nat
  /\ step dt (init c [] s) = Faulted DivideByZero.
Proof.
  assert (Ht : _threads (init c [] s) = 0%nat).
  { rewrite init_threads. simpl. apply Nat.min_0_r. }
  split; [exact Ht|].
  unfold step. rewrite Ht. reflexivity.
Qed.

(** Uneven chunks: with 4 hardware threads and 5 particles [init] starts 4
    workers, [step] computes chunk = 2, and the range of the fourth worker
    starts at index 6, behind the end of the particle array. *)
Theorem step_overruns_uneven_chunks (c : SPHConfig) (particles : list Particle)
    (s0 : SPH) (dt : Q) :
  hardware_concurrency = 4%nat -> length particles = 5%nat ->
  stepRanges (init c particles s0) = [(0, 2); (2, 4); (4, 5); (6, 5)]%nat
  /\ step dt (init c particles s0) = Faulted IteratorOverrun.
Proof.
  intros Hhw Hlen.
  assert (Hranges : stepRanges (init c particles s0) = [(0, 2); (2, 4); (4, 5); (6, 5)]%nat).
  { unfold stepRanges. rewrite init_threads. cbn [_particles init].
    rewrite Hhw, Hlen. reflexivity. }
  split; [exact Hranges|].
  unfold step. rewrite Hranges, init_threads. cbn [_particles init].
  rewrite Hhw, Hlen. reflexivity.
Qed.

End Lifecycle.

(** Five particles on the four-thread platform. *)
Lemma step_overruns_uneven_chunks_witness :
  hardware_concurrency (Platform := Demo.quad) = 4%nat
  /\ length Demo.five = 5%nat
  /\ step (H := Demo.quad) (1 # 60) (init (H := Demo.quad) SPHConfig_default Demo.five SPH_instance)
     = Faulted IteratorOverrun.
Proof.
  split; [reflexivity|]. split; [reflexivity|].
  exact (proj2 (step_overruns_uneven_chunks (H := Demo.quad) SPHConfig_default Demo.five
                  SPH_instance (1 # 60) eq_refl eq_refl)).
Defined.

(** C4, the claim as stated fails: a configuration with smoothing radius
    [-1], damping [-1] and bounds [(0, 0, 0)] replaces the default one in
    both entry points. *)
Lemma invalid_config_accepted :
  let s := init (H := Demo.platform) SPHConfig_default [Demo.pairA] SPH_instance in
  (smoothingRadius Demo.invalidConfig <= 0)%Q
  /\ (collisionDamping Demo.invalidConfig < 0)%Q
  /\ (d0 (bounds Demo.invalidConfig) <= 0)%Q
  /\ config s = SPHConfig_default
  /\ config (setConfig Demo.invalidConfig s) = Demo.invalidConfig
  /\ config (init (H := Demo.platform) Demo.invalidConfig [Demo.pairA] s) = Demo.invalidConfig
  /\ Demo.invalidConfig <> SPHConfig_default.
Proof.
  cbv zeta. repeat split; try reflexivity; try discriminate.
Qed.

(** ** What the passes leave alone *)

Section Frames.
Context `{Platform}.

Lemma fold_left_preserves {A B} (P : A -> Prop) (f : A -> B -> A) (l : list B) (a : A) :
  P a -> (forall a b, P a -> P (f a b)) -> P (fold_left f l a).
Proof.
  intros Ha Hf. revert a Ha. induction l as [|b l IH]; simpl; auto.
Qed.

Lemma frame_refl s : frame s s.
Proof. unfold frame. tauto. Qed.

Lemma frame_trans s1 s2 s3 : frame s1 s2 -> frame s2 s3 -> frame s1 s3.
Proof.
  unfold frame. intros (?&?&?&?&?&?&?&?&?) (?&?&?&?&?&?&?&?&?).
  repeat split; congruence.
Qed.

Lemma frame_with_particles s ps :
  length ps = length (_particles s) -> frame s (with_particles ps s).
Proof. intros Hlen. unfold frame; simpl. repeat split; assumption. Qed.

Lemma forParticles_frame body start end_ s : frame s (forParticles body start end_ s).
Proof.
  unfold forParticles. apply fold_left_preserves; [apply frame_refl|].
  intros a i Ha. destruct (_particles a !! i) as [p|]; [|exact Ha].
  eapply frame_trans; [exact Ha|].
  apply frame_with_particles, length_insert.
Qed.

Lemma dispatch_frame pass ranges s :
  (forall a b s, frame s (pass a b s)) -> frame s (dispatch pass ranges s).
Proof.
  intros Hp. unfold dispatch. apply fold_left_preserves; [apply frame_refl|].
  intros a r Ha. eapply frame_trans; [exact Ha|apply Hp].
Qed.

Lemma sized_frame s s' : frame s s' -> sized s -> sized s'.
Proof.
  unfold frame, sized.
  intros (_ & _ & Hk & Hs & Ho & Hb & Hv & _ & Hn) (? & ? & ? & ? & ?).
  rewrite Hk, Hs, Ho, Hb, Hv, Hn. tauto.
Qed.

Lemma writeSnapshot_coefficients start end_ s :
  coefficients (writeSnapshot start end_ s) = coefficients s.
Proof.
  unfold writeSnapshot.
  apply (fold_left_preserves (fun a => coefficients a = coefficients s)); [reflexivity|].
  intros a i Ha. exact Ha.
Qed.

Lemma dispatch_coefficients pass ranges s :
  (forall a b s, coefficients (pass a b s) = coefficients s) ->
  coefficients (dispatch pass ranges s) = coefficients s.
Proof.
  intros Hp. unfold dispatch.
  apply (fold_left_preserves (fun a => coefficients a = coefficients s)); [reflexivity|].
  intros a r Ha. rewrite Hp. exact Ha.
Qed.

Lemma forParticles_coefficients body a b s :
  coefficients (forParticles body a b s) = coefficients s.
Proof. apply (forParticles_frame body a b s). Qed.

Lemma buildIndex_coefficients s : coefficients (buildIndex s) = coefficients s.
Proof. reflexivity. Qed.

(** No pass of [step] writes the configuration or a kernel coefficient. *)
Lemma step_coefficients dt s s' :
  step dt s = Completed s' -> coefficients s' = coefficients s.
Proof.
  unfold step.
  destruct (_threads s =? 0)%nat; [discriminate|].
  destruct (existsb _ _); [discriminate|].
  intros [= <-].
  rewrite dispatch_coefficients by (intros; apply forParticles_coefficients).
  match goal with
  | |- coefficients (if ?b then _ else _) = _ => destruct b
  end.
  - rewrite dispatch_coefficients by (intros; apply forParticles_coefficients).
    rewrite dispatch_coefficients by (intros; apply writeSnapshot_coefficients).
    rewrite !dispatch_coefficients by (intros; apply forParticles_coefficients).
    rewrite buildIndex_coefficients.
    apply dispatch_coefficients; intros; apply forParticles_coefficients.
  - rewrite !dispatch_coefficients by (intros; apply forParticles_coefficients).
    rewrite buildIndex_coefficients.
    apply dispatch_coefficients; intros; apply forParticles_coefficients.
Qed.

(** [step] faults only on an empty thread vector or on a range that starts
    behind the end of the particle array. *)
Lemma step_faulted dt s f :
  step dt s = Faulted f ->
  _threads s = 0%nat
  \/ existsb (fun r => (length (_particles s) <? fst r)%nat) (stepRanges s) = true.
Proof.
  unfold step.
  destruct (_threads s =? 0)%nat eqn:Ht; [left; apply Nat.eqb_eq, Ht|].
  destruct (existsb _ _) eqn:Hr; [right; reflexivity|discriminate].
Qed.

End Frames.

(** C5: the engine is initialised with radius 0.2, [setConfig] installs
    radius 0.4, and a step runs.  The step reads the new radius but the
    coefficients are still those [init] derived from 0.2: nothing after
    [init] recomputes them. *)
Theorem setConfig_leaves_coefficients_stale :
  let s := init (H := Demo.platform) SPHConfig_default [Demo.pairA] SPH_instance in
  exists s',
    step (H := Demo.platform) (1 # 60) (setConfig Demo.widerConfig s) = Completed s'
    /\ smoothingRadius (config s') = 0.4%Q
    /\ (K_SpikyPow2 s' == 15 / (2 * PI * 0.2 ^ 5)
        /\ K_SpikyPow3 s' == 15 / (PI * 0.2 ^ 6)
        /\ K_SpikyPow2Grad s' == 15 / (PI * 0.2 ^ 5)
        /\ K_SpikyPow3Grad s' == 45 / (PI * 0.2 ^ 6))%Q
    /\ (~ K_SpikyPow2 s' == 15 / (2 * PI * 0.4 ^ 5)
        /\ ~ K_SpikyPow3 s' == 15 / (PI * 0.4 ^ 6)
        /\ ~ K_SpikyPow2Grad s' == 15 / (PI * 0.4 ^ 5)
        /\ ~ K_SpikyPow3Grad s' == 45 / (PI * 0.4 ^ 6))%Q.
Proof.
  intros s.
  destruct (step (H := Demo.platform) (1 # 60) (setConfig Demo.widerConfig s)) as [s'|f] eqn:E.
  - exists s'. split; [reflexivity|].
    apply (step_coefficients (H := Demo.platform)) in E.
    unfold coefficients in E. injection E as Hc H2 H3 H2g H3g.
    unfold config. rewrite Hc, H2, H3, H2g, H3g.
    split; [reflexivity|].
    split; (repeat split); unfold Qeq; vm_compute; congruence.
  - apply (step_faulted (H := Demo.platform)) in E.
    destruct E as [E|E]; vm_compute in E; discriminate E.
Qed.

(** ** Comparisons on rationals *)

Lemma Qltb_true (a b : Q) : Qltb a b = true -> (a < b)%Q.
Proof.
  unfold Qltb. intros Hn. apply Qnot_le_lt. intros Hle.
  apply Qle_bool_iff in Hle. rewrite Hle in Hn. discriminate.
Qed.

Lemma Qltb_false (a b : Q) : Qltb a b = false -> (b <= a)%Q.
Proof.
  unfold Qltb. intros Hn. apply Qle_bool_iff.
  destruct (Qle_bool b a); [reflexivity|discriminate].
Qed.

Lemma Qle_bool_false (a b : Q) : Qle_bool a b = false -> (b < a)%Q.
Proof.
  intros Hn. apply Qnot_le_lt. intros Hle.
  apply Qle_bool_iff in Hle. congruence.
Qed.

Lemma Qltb_intro (a b : Q) : (a < b)%Q -> Qltb a b = true.
Proof.
  intros Hlt. destruct (Qltb a b) eqn:E; [reflexivity|].
  apply Qltb_false in E. lra.
Qed.

Lemma Qltb_elim (a b : Q) : (b <= a)%Q -> Qltb a b = false.
Proof.
  intros Hle. destruct (Qltb a b) eqn:E; [|reflexivity].
  apply Qltb_true in E. lra.
Qed.

(** ** The seeder *)

Section Seeder.
Local Open Scope Q_scope.

Lemma clamp_bounds (v lo hi : Q) : lo <= hi -> lo <= clamp v lo hi <= hi.
Proof.
  intros Hle. unfold clamp.
  destruct (Qltb v lo) eqn:E1; [lra|].
  apply Qltb_false in E1.
  destruct (Qltb hi v) eqn:E2; [lra|].
  apply Qltb_false in E2. lra.
Qed.

Lemma Qmax_lower (a b : Q) : a <= Qmax a b.
Proof.
  unfold Qmax. destruct (Qle_bool b a) eqn:E; [lra|].
  apply Qle_bool_false in E. lra.
Qed.

Lemma uniform_bounds (a b u : Q) :
  a <= b -> 0 <= u <= 1 -> a <= uniform a b u <= b.
Proof. unfold uniform. intros Hab [H0 H1]. split; nra. Qed.

(** C10: for a non-negative box size and any margin and height ratio, every
    particle [spawnParticlesInBox] returns lies within half the box size of
    the origin on each axis, is at rest, and has its predicted position at
    its position. *)
Theorem spawnParticlesInBox_inside (count : nat) (boxSize margin minHeightRatio : Q)
    (draws : list (Q * Q * Q)) :
  0 <= boxSize ->
  Forall unitDraw draws ->
  Forall (seededInside boxSize) (spawnParticlesInBox count boxSize margin minHeightRatio draws).
Proof.
  intros Hbox Hdraws. unfold spawnParticlesInBox.
  set (halfBox := boxSize * 0.5).
  set (cm := clamp margin 0 halfBox).
  set (maxY := halfBox - cm).
  set (minY0 := Qmax (- halfBox + cm) (minHeightRatio * halfBox)).
  set (minY := if Qltb maxY minY0 then maxY else minY0).
  assert (Hhalf : 0 <= halfBox) by (unfold halfBox; lra).
  assert (Hcm : 0 <= cm <= halfBox) by (apply clamp_bounds; exact Hhalf).
  assert (HminY : - halfBox <= minY /\ minY <= maxY).
  { unfold minY. destruct (Qltb maxY minY0) eqn:E.
    - unfold maxY. lra.
    - apply Qltb_false in E. split; [|exact E].
      pose proof (Qmax_lower (- halfBox + cm) (minHeightRatio * halfBox)) as Hm.
      fold minY0 in Hm. lra. }
  apply Forall_forall. intros p Hin.
  apply list_elem_of_fmap in Hin. destruct Hin as [[[ux uy] uz] [-> Hin]].
  assert (Hu : unitDraw (ux, uy, uz)).
  { rewrite Forall_forall in Hdraws. apply Hdraws.
    apply elem_of_take in Hin. destruct Hin as (i & Hi & _).
    eapply list_elem_of_lookup_2, Hi. }
  destruct Hu as (Hx & Hy & Hz); simpl in Hx, Hy, Hz.
  pose proof (uniform_bounds (- halfBox + cm) (halfBox - cm) ux ltac:(lra) Hx) as Bx.
  pose proof (uniform_bounds minY maxY uy ltac:(lra) Hy) as By.
  pose proof (uniform_bounds (- halfBox + cm) (halfBox - cm) uz ltac:(lra) Hz) as Bz.
  assert (Hb : boxSize / 2 == halfBox) by (unfold halfBox; field).
  unfold seededInside, Particle_new; cbn [_position _velocity _predicted d0 d1 d2].
  rewrite !Hb. fold maxY in Bx, By, Bz. destruct HminY as [Hlow Hhigh].
  assert (Hmax : maxY <= halfBox) by (unfold maxY; lra).
  repeat apply conj; try reflexivity; apply Qabs_Qle_condition; lra.
Qed.

End Seeder.

(** C10 at work: two particles for a box of side 2 with an oversized margin
    and a floor ratio above 1. *)
Lemma spawnParticlesInBox_inside_witness :
  let draws := [(0, 1 # 2, 1); (1 # 3, 1, 3 # 4); (1, 1, 1)]%Q in
  (0 <= 2)%Q
  /\ Forall unitDraw draws
  /\ Forall (seededInside 2) (spawnParticlesInBox 2 2 5 3 draws).
Proof.
  cbv zeta.
  assert (Hbox : (0 <= 2)%Q) by (unfold Qle; simpl; lia).
  assert (Hdraws : Forall unitDraw [(0, 1 # 2, 1); (1 # 3, 1, 3 # 4); (1, 1, 1)]%Q).
  { repeat constructor; unfold Qle; simpl; lia. }
  split; [exact Hbox|]. split; [exact Hdraws|].
  exact (spawnParticlesInBox_inside 2 2 5 3 _ Hbox Hdraws).
Defined.

(** ** Kernels *)

Section Kernels.
Context `{Platform}.
Local Open Scope Q_scope.

Lemma PI_pos : 0 < PI.
Proof. reflexivity. Qed.

Lemma Qdiv_pos (a b : Q) : 0 < a -> 0 < b -> 0 < a / b.
Proof.
  intros Ha Hb. unfold Qdiv. apply Qmult_lt_0_compat; [exact Ha|].
  apply Qinv_lt_0_compat, Hb.
Qed.

Lemma square_mono (u v : Q) : 0 <= u -> u <= v -> u * u <= v * v.
Proof. intros. nra. Qed.

Lemma cube_mono (u v : Q) : 0 <= u -> u <= v -> u * u * u <= v * v * v.
Proof.
  intros Hu Huv.
  assert (Hsq : u * u <= v * v) by (apply square_mono; assumption).
  assert (Hv : 0 <= v) by lra.
  assert (H1 : u * u * u <= v * v * u) by (apply Qmult_le_compat_r; assumption).
  assert (H2 : v * v * u <= v * v * v).
  { rewrite !(Qmult_comm (v * v)). apply Qmult_le_compat_r; [assumption|nra]. }
  lra.
Qed.

(* The coefficients [init] derives from a positive radius are positive. *)
Lemma init_coefficients_pos c particles s0 :
  0 < smoothingRadius c ->
  let s := init c particles s0 in
  0 < K_SpikyPow2 s /\ 0 < K_SpikyPow3 s /\ 0 < K_SpikyPow2Grad s /\ 0 < K_SpikyPow3Grad s.
Proof.
  intros Hh. cbn [init K_SpikyPow2 K_SpikyPow3 K_SpikyPow2Grad K_SpikyPow3Grad].
  pose proof PI_pos as Hpi.
  pose proof (Qpower_0_lt _ 5 Hh) as H5.
  pose proof (Qpower_0_lt _ 6 Hh) as H6.
  repeat split; apply Qdiv_pos; try reflexivity;
    repeat (apply Qmult_lt_0_compat; try assumption; try reflexivity).
Qed.

Lemma poly6_scale_pos (h : Q) : 0 < h -> 0 < 315 / (64 * PI * h ^ 9).
Proof.
  intros Hh. pose proof PI_pos. pose proof (Qpower_0_lt _ 9 Hh).
  apply Qdiv_pos; [reflexivity|].
  repeat (apply Qmult_lt_0_compat; try assumption; try reflexivity).
Qed.

(** C8, as the code has it: with the coefficients [init] computes from a
    radius [h > 0], [densityKernel h] is 0, [densityKernel 0] is
    [h * h * K_SpikyPow2], all five kernels vanish beyond [h]; on [0, h] the
    three value kernels (density, near density, poly6) never increase, and
    the two derivative kernels never decrease: they climb from a negative
    value at 0 to 0 at [h]. *)
Theorem kernel_support_and_monotonicity (c : SPHConfig) (particles : list Particle) (s0 : SPH) :
  0 < smoothingRadius c ->
  let s := init c particles s0 in
  let h := smoothingRadius c in
  densityKernel s h == 0
  /\ densityKernel s 0 == h * h * K_SpikyPow2 s
  /\ (forall d, h < d ->
        densityKernel s d == 0 /\ nearDensityKernel s d == 0
        /\ densityDerivative s d == 0 /\ nearDensityDerivative s d == 0
        /\ poly6Kernel s d == 0)
  /\ (forall a b, 0 <= a -> a <= b -> b <= h ->
        densityKernel s b <= densityKernel s a
        /\ nearDensityKernel s b <= nearDensityKernel s a
        /\ poly6Kernel s b <= poly6Kernel s a
        /\ densityDerivative s a <= densityDerivative s b
        /\ nearDensityDerivative s a <= nearDensityDerivative s b).
Proof.
  intros Hh s h.
  destruct (init_coefficients_pos c particles s0 Hh) as (K2 & K3 & K2g & K3g).
  fold s in K2, K3, K2g, K3g.
  pose proof (poly6_scale_pos h Hh) as Hscale.
  assert (Hcfg : smoothingRadius (_config s) = h) by reflexivity.
  unfold densityKernel, nearDensityKernel, densityDerivative, nearDensityDerivative,
    poly6Kernel.
  rewrite !Hcfg. cbv zeta.
  split; [|split; [|split]].
  - rewrite Qltb_elim by lra. reflexivity.
  - rewrite Qltb_intro by exact Hh. ring.
  - intros d Hd.
    rewrite !(Qltb_elim d h) by lra.
    destruct (Qle_bool d h) eqn:E; [apply Qle_bool_iff in E; lra|].
    repeat split; reflexivity.
  - intros a b Ha Hab Hb.
    assert (Hale : Qle_bool a h = true) by (apply Qle_bool_iff; lra).
    assert (Hble : Qle_bool b h = true) by (apply Qle_bool_iff; lra).
    rewrite Hale, Hble.
    set (scale := 315 / (64 * PI * h ^ 9)) in *.
    assert (Hu : 0 <= h - b) by lra.
    assert (Huv : h - b <= h - a) by lra.
    pose proof (square_mono _ _ Hu Huv) as Hsq.
    pose proof (cube_mono _ _ Hu Huv) as Hcu.
    assert (Hpu : 0 <= h * h - b * b) by nra.
    assert (Hpuv : h * h - b * b <= h * h - a * a) by nra.
    pose proof (cube_mono _ _ Hpu Hpuv) as Hpcu.
    assert (Hva2 : 0 <= (h - a) * (h - a)) by nra.
    assert (Hva3 : 0 <= (h - a) * (h - a) * (h - a))
      by (repeat apply Qmult_le_0_compat; lra).
    assert (Hpa3 : 0 <= (h * h - a * a) * (h * h - a * a) * (h * h - a * a))
      by (repeat apply Qmult_le_0_compat; lra).
    split; [|split; [|split; [|split]]].
    + destruct (Qltb b h) eqn:Eb.
      * apply Qltb_true in Eb. rewrite Qltb_intro by lra.
        apply Qmult_le_compat_r; [exact Hsq|lra].
      * destruct (Qltb a h); [|lra].
        apply Qmult_le_0_compat; [exact Hva2|lra].
    + destruct (Qltb b h) eqn:Eb.
      * apply Qltb_true in Eb. rewrite Qltb_intro by lra.
        apply Qmult_le_compat_r; [exact Hcu|lra].
      * destruct (Qltb a h); [|lra].
        apply Qmult_le_0_compat; [exact Hva3|lra].
    + destruct (Qltb b h) eqn:Eb.
      * apply Qltb_true in Eb. rewrite Qltb_intro by lra.
        apply Qmult_le_compat_r; [exact Hpcu|lra].
      * destruct (Qltb a h); [|lra].
        apply Qmult_le_0_compat; [exact Hpa3|lra].
    + assert (Hm : (h - b) * K_SpikyPow2Grad s <= (h - a) * K_SpikyPow2Grad s)
        by (apply Qmult_le_compat_r; lra).
      lra.
    + assert (Hm : (h - b) * (h - b) * K_SpikyPow3Grad s
                   <= (h - a) * (h - a) * K_SpikyPow3Grad s)
        by (apply Qmult_le_compat_r; lra).
      lra.
Qed.

End Kernels.

(** C8 at work, for the default radius 0.2. *)
Lemma kernel_support_and_monotonicity_witness :
  let s := init (H := Demo.platform) SPHConfig_default [] SPH_instance in
  (0 < smoothingRadius SPHConfig_default)%Q
  /\ (densityKernel s 0.2 == 0)%Q
  /\ (densityKernel s 0 == 0.2 * 0.2 * K_SpikyPow2 s)%Q.
Proof.
  cbv zeta.
  assert (Hh : (0 < smoothingRadius SPHConfig_default)%Q) by reflexivity.
  split; [exact Hh|].
  pose proof (kernel_support_and_monotonicity (H := Demo.platform)
                SPHConfig_default [] SPH_instance Hh) as (Hend & Hzero & _).
  split; [exact Hend|exact Hzero].
Defined.

(** C8, the claim as stated fails: with radius 1 the density derivative is
    negative at distance 0 and zero at distance 1, so it increases on
    [0, h]; so does the near-density derivative. *)
Lemma derivative_kernels_increase :
  let s := init (H := Demo.platform) Demo.unitConfig [] SPH_instance in
  smoothingRadius (config s) = 1%Q
  /\ (densityDerivative s 0 < densityDerivative s 1)%Q
  /\ (nearDensityDerivative s 0 < nearDensityDerivative s 1)%Q.
Proof.
  cbv zeta. split; [reflexivity|]. split; reflexivity.
Qed.

(** ** Bucket walks: which indices are read *)

Section Walks.
Context `{Platform}.

Lemma bucketRun_bounds keys n key fuel idx j :
  j ∈ bucketRun keys n key fuel idx -> (idx <= j < n)%nat.
Proof.
  revert idx. induction fuel as [|fuel IH]; intros idx Hj; simpl in Hj.
  - inversion Hj.
  - destruct (idx <? n)%nat eqn:Hlt; simpl in Hj; [|inversion Hj].
    apply Nat.ltb_lt in Hlt.
    destruct (default 0%nat (keys !! idx) =? key)%nat; [|inversion Hj].
    apply elem_of_cons in Hj. destruct Hj as [->|Hj]; [lia|].
    apply IH in Hj. lia.
Qed.

Lemma elem_of_flat_map {A B} (f : A -> list B) (l : list A) (y : B) :
  y ∈ flat_map f l <-> exists x, x ∈ l /\ y ∈ f x.
Proof.
  rewrite list_elem_of_In, in_flat_map.
  split; intros (x & Hx & Hy); exists x;
    [rewrite !list_elem_of_In|rewrite <- !list_elem_of_In]; auto.
Qed.

(** Every index the pressure and viscosity walks dereference lies in
    [1 .. N]: never the first entry, possibly one behind the last. *)
Lemma neighborReads_bounds s particle j :
  j ∈ neighborReads s particle -> (1 <= j <= length (_particles s))%nat.
Proof.
  unfold neighborReads. rewrite elem_of_flat_map.
  intros (key & _ & Hj).
  apply list_elem_of_fmap in Hj. destruct Hj as (i & -> & Hi).
  apply bucketRun_bounds in Hi. lia.
Qed.

Lemma densityReads_bounds s particle j :
  j ∈ densityReads s particle -> (j < length (_particles s))%nat.
Proof.
  unfold densityReads. rewrite elem_of_flat_map.
  intros (key & _ & Hj). apply bucketRun_bounds in Hj. lia.
Qed.

Lemma filter_none {A} (P : A -> Prop) `{forall x, Decision (P x)} (l : list A) :
  (forall x, x ∈ l -> ~ P x) -> filter P l = [].
Proof.
  induction l as [|a l IH]; intros Hl; [reflexivity|].
  rewrite filter_cons. destruct (decide (P a)) as [Hp|_].
  - exfalso. apply (Hl a); [left|exact Hp].
  - apply IH. intros x Hx. apply Hl. right. exact Hx.
Qed.

(** A particle alone in the array accepts no neighbour unless the entry
    behind the array happens to lie within the radius. *)
Lemma acceptedNeighbors_alone s particle :
  length (_particles s) = 1%nat ->
  withinRadius s particle strayParticle = false ->
  acceptedNeighbors s 0 particle = [].
Proof.
  intros Hn Hstray. unfold acceptedNeighbors.
  apply filter_none. intros j Hj [_ Hw].
  apply neighborReads_bounds in Hj. rewrite Hn in Hj.
  assert (j = 1%nat) as -> by lia.
  unfold particleAt in Hw.
  rewrite lookup_ge_None_2 in Hw by lia. simpl in Hw. congruence.
Qed.

End Walks.

(** ** One worker thread *)

Section SingleThread.
Context `{Platform}.

(** With one worker the only range is the whole array, and the passes run
    back to back. *)
Lemma step_one_thread dt s :
  _threads s = 1%nat ->
  let n := length (_particles s) in
  let s1 := buildIndex (applyExternalForces dt 0 n s) in
  let s2 := calculatePressureForce dt 0 n (calculateDensities 0 n s1) in
  let s3 :=
    if _useViscosity s2 then calculateViscosity dt 0 n (writeSnapshot 0 n s2) else s2 in
  step dt s = Completed (updatePositions dt 0 n s3).
Proof.
  intros Ht n. unfold step, stepRanges. rewrite Ht. fold n.
  replace ((n + 1 - 1) / 1)%nat with n by (rewrite Nat.div_1_r; lia).
  cbn [Nat.eqb threadRanges seq fmap list_fmap threadRange existsb fst snd dispatch
       fold_left Nat.mul Nat.add].
  rewrite Nat.min_id. rewrite orb_false_r.
  replace (n <? 0)%nat with false by (symmetry; apply Nat.ltb_ge; lia).
  reflexivity.
Qed.

Lemma forParticles_single body s p :
  _particles s = [p] ->
  forParticles body 0 1 s = with_particles [body s 0 p] s.
Proof.
  intros Hp. unfold forParticles. simpl. rewrite Hp. reflexivity.
Qed.

End SingleThread.

Section SingleParticle.
Context `{Platform}.
Local Open Scope Q_scope.

Lemma sort_post_single keys sorted : sort_post keys 1 sorted = true -> sorted = [0%nat].
Proof.
  unfold sort_post. rewrite !andb_true_iff. intros [[[Hlen Hlt] _] _].
  apply bool_decide_eq_true in Hlen.
  destruct sorted as [|a [|b l]]; try discriminate Hlen.
  simpl in Hlt. rewrite andb_true_r in Hlt. apply Nat.ltb_lt in Hlt.
  f_equal. lia.
Qed.

(** The index build of a one-particle engine keeps the particle where it is. *)
Lemma buildIndex_single s p :
  _particles s = [p] -> sized s -> sortOk s = true ->
  _particles (buildIndex s) = [p]
  /\ _config (buildIndex s) = _config s
  /\ _useViscosity (buildIndex s) = negb (Qeq_bool (viscosityStrength (_config s)) 0).
Proof.
  intros Hp (Hk & Hs & Ho & Hb & Hv) Hsort.
  unfold sortOk in Hsort. rewrite Hs, Hp in Hsort. apply sort_post_single in Hsort.
  split; [|split; reflexivity].
  unfold buildIndex, computeOffsets, reorderParticles.
  cbn [_particles _sortedIndices _keys _reorderBuffer].
  rewrite Hsort.
  assert (Hbk : length (_keys (buildSpatialHash s)) = 1%nat).
  { unfold buildSpatialHash; cbn [_keys].
    rewrite length_app, length_fmap, length_take, length_drop, Hk, Hp. reflexivity. }
  assert (Hbb : _reorderBuffer (buildSpatialHash s) = _reorderBuffer s) by reflexivity.
  assert (Hbp : _particles (buildSpatialHash s) = [p]) by exact Hp.
  rewrite Hbk, Hbb, Hb, Hp. simpl.
  unfold particleAt. rewrite Hbp. simpl.
  rewrite drop_ge by (rewrite Hb, Hp; simpl; lia). reflexivity.
Qed.

Lemma withinRadius_ext s s' p p' q :
  _config s = _config s' -> _predicted p = _predicted p' ->
  withinRadius s p q = withinRadius s' p' q.
Proof.
  intros Hc Hp. unfold withinRadius, squareDistance. rewrite Hc, Hp. reflexivity.
Qed.

(** With no accepted neighbour the pressure pass adds no force and applies
    the airborne drag. *)
Lemma pressureBody_alone dt s id p :
  acceptedNeighbors s id p = [] ->
  _position (pressureBody dt s id p) = _position p
  /\ d0 (_velocity (pressureBody dt s id p))
     == d0 (_velocity p) - d0 (_velocity p) * dt * 0.75
  /\ d1 (_velocity (pressureBody dt s id p))
     == d1 (_velocity p) - d1 (_velocity p) * dt * 0.75
  /\ d2 (_velocity (pressureBody dt s id p))
     == d2 (_velocity p) - d2 (_velocity p) * dt * 0.75.
Proof.
  intros Hacc. unfold pressureBody. rewrite Hacc.
  cbn [fold_left length Nat.ltb Nat.leb _position _velocity
       Vec.add Vec.sub Vec.scale Vec.zero d0 d1 d2].
  split; [reflexivity|]. repeat split; ring.
Qed.

Lemma resolveCollisions_y s q :
  d1 (_position (resolveCollisions s q))
  = fst (resolveAxis s (d1 (_position q)) (d1 (_velocity q)) (d1 (bounds (_config s))))
  /\ d1 (_velocity (resolveCollisions s q))
     = snd (resolveAxis s (d1 (_position q)) (d1 (_velocity q)) (d1 (bounds (_config s)))).
Proof.
  unfold resolveCollisions.
  destruct (resolveAxis s (d0 _) _ _), (resolveAxis s (d1 _) _ _), (resolveAxis s (d2 _) _ _).
  split; reflexivity.
Qed.

(* A component below the floor is put on the floor and its velocity turned. *)
Lemma resolveAxis_floor s position velocity halfBound :
  position <= - halfBound -> 0 < halfBound ->
  fst (resolveAxis s position velocity halfBound) == - halfBound
  /\ snd (resolveAxis s position velocity halfBound)
     = velocity * - collisionDamping (_config s).
Proof.
  intros Hpos Hb. unfold resolveAxis.
  assert (Habs : Qabs position == - position) by (apply Qabs_neg; lra).
  assert (Hhit : Qle_bool (halfBound - Qabs position) 0 = true).
  { apply Qle_bool_iff. rewrite Habs. lra. }
  rewrite Hhit. cbn [fst snd]. split; [|reflexivity].
  unfold sign. destruct (Qle_bool 0 position) eqn:E.
  - apply Qle_bool_iff in E. lra.
  - ring.
Qed.

End SingleParticle.

Section FloorBounce.
Context `{Platform}.
Local Open Scope Q_scope.

(** One step of an engine that holds a single particle, with viscosity off
    and with the entry behind the array outside the radius: the particle
    gets no pressure force, is slowed by the airborne drag, and is then
    moved and bounced by [positionBody]. *)
Lemma lone_particle_step dt s p :
  _particles s = [p] -> _threads s = 1%nat -> sized s ->
  sortOk (applyExternalForces dt 0 1 s) = true ->
  Qeq_bool (viscosityStrength (_config s)) 0 = true ->
  withinRadius s (externalForcesBody dt s 0 p) strayParticle = false ->
  exists s' dragged,
    step dt s = Completed s'
    /\ _config s' = _config s
    /\ _particles s' = [positionBody dt s' 0 dragged]
    /\ _position dragged = _position p
    /\ d1 (_velocity dragged)
       == d1 (_velocity (externalForcesBody dt s 0 p))
          - d1 (_velocity (externalForcesBody dt s 0 p)) * dt * 0.75.
Proof.
  intros Hp0 Hthreads Hsized Hsort Hvisc Hstray.
  rewrite (step_one_thread dt s Hthreads). rewrite Hp0. simpl length. cbv zeta.
  set (p1 := externalForcesBody dt s 0 p) in *.
  assert (HA : applyExternalForces dt 0 1 s = with_particles [p1] s)
    by (apply forParticles_single; exact Hp0).
  rewrite HA in *.
  set (sA := with_particles [p1] s) in *.
  assert (HsizedA : sized sA).
  { apply (sized_frame s); [|exact Hsized].
    apply frame_with_particles. rewrite Hp0. reflexivity. }
  destruct (buildIndex_single sA p1 eq_refl HsizedA Hsort) as (HpB & HcB & HvB).
  set (sB := buildIndex sA) in *.
  unfold calculateDensities, calculatePressureForce, updatePositions.
  rewrite (forParticles_single densityBody sB p1 HpB).
  set (p2 := densityBody sB 0 p1).
  set (sC := with_particles [p2] sB).
  rewrite (forParticles_single (pressureBody dt) sC p2 eq_refl).
  assert (Hacc : acceptedNeighbors sC 0 p2 = []).
  { apply acceptedNeighbors_alone; [reflexivity|].
    rewrite <- Hstray. apply withinRadius_ext; [exact HcB|reflexivity]. }
  destruct (pressureBody_alone dt sC 0 p2 Hacc) as (Hpos3 & _ & Hvel3 & _).
  set (p3 := pressureBody dt sC 0 p2) in *.
  set (sD := with_particles [p3] sC).
  assert (HvD : _useViscosity sD = false).
  { change (_useViscosity sD) with (_useViscosity sB). rewrite HvB.
    change (_config sA) with (_config s). rewrite Hvisc. reflexivity. }
  rewrite HvD.
  rewrite (forParticles_single (positionBody dt) sD p3 eq_refl).
  exists (with_particles [positionBody dt sD 0 p3] sD), p3.
  split; [reflexivity|]. split; [exact HcB|]. split; [reflexivity|].
  split; [exact Hpos3|exact Hvel3].
Qed.

(* Moving below the floor puts the particle on the floor and turns it. *)
Lemma floor_rebound dt s q :
  d1 (_position q) + d1 (_velocity q) * dt <= - d1 (bounds (_config s)) ->
  0 < d1 (bounds (_config s)) ->
  d1 (_position (positionBody dt s 0 q)) == - d1 (bounds (_config s))
  /\ d1 (_velocity (positionBody dt s 0 q))
     = d1 (_velocity q) * - collisionDamping (_config s).
Proof.
  intros Hbelow Hb. unfold positionBody.
  match goal with
  | |- context [resolveCollisions s ?r] =>
      destruct (resolveCollisions_y s r) as [Hry Hrv]; rewrite Hry, Hrv
  end.
  cbn [_position _velocity Vec.add Vec.scale d1].
  apply resolveAxis_floor; assumption.
Qed.

Lemma bounceStart_threads : _threads bounceStart = 1%nat.
Proof. unfold bounceStart. rewrite init_threads. simpl length. lia. Qed.

(** C6, as the code has it.  One particle at (0, -1, 0) with velocity
    (0, -2, 0), damping 0.5, no gravity, pressure and viscosity off,
    dt = 1/60.  The particle has fewer than 8 neighbours, so the pressure
    pass applies the airborne drag before the bounce: after one step
    position.y is -1 and velocity.y is 0.5 * (2 - 2 * dt * 0.75) = 79/80.
    This is stated for the runs in which the entry read behind the
    one-element array does not count as a neighbour. *)
Theorem floor_bounce_with_drag :
  let dt := 1 # 60 in
  sortOk (applyExternalForces dt 0 1 bounceStart) = true ->
  withinRadius bounceStart (externalForcesBody dt bounceStart 0 Demo.bounceParticle)
    strayParticle = false ->
  exists s' p',
    step dt bounceStart = Completed s'
    /\ _particles s' = [p']
    /\ d1 (_position p') == -1
    /\ d1 (_velocity p') == 79 # 80.
Proof.
  intros dt Hsort Hstray.
  destruct (lone_particle_step dt bounceStart Demo.bounceParticle eq_refl
              bounceStart_threads (init_sized _ _ _) Hsort eq_refl Hstray)
    as (s' & dragged & Hstep & Hcfg & Hparts & Hpos & Hvel).
  exists s', (positionBody dt s' 0 dragged).
  split; [exact Hstep|]. split; [exact Hparts|].
  assert (Hv : d1 (_velocity dragged) == - (79 # 40)) by (rewrite Hvel; reflexivity).
  destruct (floor_rebound dt s' dragged) as [Hy Hvy].
  - rewrite Hcfg, Hpos, Hv. unfold dt. compute. discriminate.
  - rewrite Hcfg. reflexivity.
  - rewrite Hy, Hvy, Hcfg, Hv. split; reflexivity.
Qed.

End FloorBounce.

(** C6 at work on the demo platform, whose stray entry is far away. *)
Lemma floor_bounce_with_drag_witness :
  let s0 := bounceStart (H := Demo.platform) in
  sortOk (H := Demo.platform) (applyExternalForces (1 # 60) 0 1 s0) = true
  /\ withinRadius s0 (externalForcesBody (1 # 60) s0 0 Demo.bounceParticle)
       (strayParticle (Platform := Demo.platform)) = false
  /\ exists s' p',
       step (H := Demo.platform) (1 # 60) s0 = Completed s'
       /\ _particles s' = [p']
       /\ (d1 (_position p') == -1)%Q
       /\ (d1 (_velocity p') == 79 # 80)%Q.
Proof.
  cbv zeta.
  assert (Hsort : sortOk (H := Demo.platform)
            (applyExternalForces (1 # 60) 0 1 (bounceStart (H := Demo.platform))) = true)
    by reflexivity.
  assert (Hstray : withinRadius (bounceStart (H := Demo.platform))
            (externalForcesBody (1 # 60) (bounceStart (H := Demo.platform)) 0
               Demo.bounceParticle)
            (strayParticle (Platform := Demo.platform)) = false)
    by reflexivity.
  split; [exact Hsort|]. split; [exact Hstray|].
  exact (floor_bounce_with_drag (H := Demo.platform) Hsort Hstray).
Defined.

(** C6, the claim as stated fails: on the demo platform the step leaves the
    particle on the floor with velocity.y = 79/80, not 1. *)
Lemma floor_bounce_not_unit_speed :
  exists s' p',
    step (H := Demo.platform) (1 # 60) (bounceStart (H := Demo.platform)) = Completed s'
    /\ _particles s' = [p']
    /\ (d1 (_position p') == -1)%Q
    /\ (d1 (_velocity p') == 79 # 80)%Q
    /\ ~ (d1 (_velocity p') == 1)%Q.
Proof.
  destruct (lone_particle_step (H := Demo.platform) (1 # 60)
              (bounceStart (H := Demo.platform)) Demo.bounceParticle eq_refl
              (bounceStart_threads (H := Demo.platform)) (init_sized _ _ _)
              eq_refl eq_refl eq_refl)
    as (s' & dragged & Hstep & Hcfg & Hparts & Hpos & Hvel).
  exists s', (positionBody (1 # 60) s' 0 dragged).
  split; [exact Hstep|]. split; [exact Hparts|].
  assert (Hv : (d1 (_velocity dragged) == - (79 # 40))%Q) by (rewrite Hvel; reflexivity).
  destruct (floor_rebound (1 # 60) s' dragged) as [Hy Hvy].
  - rewrite Hcfg, Hpos, Hv. compute. discriminate.
  - rewrite Hcfg. reflexivity.
  - rewrite Hy, Hvy, Hcfg, Hv. split; [reflexivity|]. split; [reflexivity|].
    compute. discriminate.
Qed.

(** ** The spatial index *)

Section OffsetTable.

Lemma nondecreasing_spec (l : list nat) :
  nondecreasing l = true ->
  forall i j a b, (i <= j)%nat -> l !! i = Some a -> l !! j = Some b -> (a <= b)%nat.
Proof.
  induction l as [|x l IH]; intros Hs i j a b Hij Hi Hj.
  - rewrite lookup_nil in Hi. discriminate.
  - assert (Htail : nondecreasing l = true).
    { destruct l as [|y l']; [reflexivity|].
      simpl in Hs. apply andb_true_iff in Hs. apply Hs. }
    assert (Hhead : forall m c, l !! m = Some c -> (x <= c)%nat).
    { intros m. induction m as [|m IHm]; intros c Hc.
      - destruct l as [|y l']; [discriminate|].
        simpl in Hs, Hc. apply andb_true_iff in Hs. destruct Hs as [Hxy _].
        apply Nat.leb_le in Hxy. congruence.
      - destruct (l !! m) as [c'|] eqn:Hm.
        + specialize (IHm c' eq_refl).
          assert (c' <= c)%nat by (apply (IH Htail m (S m) c' c); auto; lia).
          lia.
        + apply lookup_ge_None in Hm. apply lookup_lt_Some in Hc. lia. }
    destruct i as [|i], j as [|j]; simpl in Hi, Hj.
    + assert (a = b) by congruence. lia.
    + injection Hi as <-. eapply Hhead, Hj.
    + lia.
    + apply (IH Htail i j); auto. lia.
Qed.

Lemma fillOffsets_unfold keys n size :
  fillOffsets keys n size = fold_left (lowerOffset keys) (seq 0 size) (replicate size n).
Proof. reflexivity. Qed.

Lemma lowerOffset_prefix keys n size m :
  (m <= size)%nat -> (size <= n)%nat -> (size <= length keys)%nat ->
  let offsets := fold_left (lowerOffset keys) (seq 0 m) (replicate size n) in
  length offsets = size
  /\ forall k, (k < size)%nat -> exists v, offsets !! k = Some v /\ startOf keys n m k v.
Proof.
  intros Hm Hn Hkeys. induction m as [|m IH].
  - simpl. split; [apply length_replicate|].
    intros k Hk. exists n. split.
    + apply lookup_replicate. auto.
    + right. split; [reflexivity|]. intros j Hj. lia.
  - rewrite seq_S, fold_left_app. simpl.
    destruct (IH ltac:(lia)) as [Hlen Hspec]. clear IH.
    set (offsets := fold_left (lowerOffset keys) (seq 0 m) (replicate size n)) in *.
    destruct (lookup_lt_is_Some_2 keys m ltac:(lia)) as [km Hkm].
    unfold lowerOffset. rewrite Hkm. simpl.
    assert (Hstep : forall k, (k < size)%nat -> k <> km ->
              exists v, offsets !! k = Some v /\ startOf keys n (S m) k v).
    { intros k Hk Hne. destruct (Hspec k Hk) as (v & Hv & Hs). exists v. split; [exact Hv|].
      destruct Hs as [(Hvm & Hkv & Hmin)|(-> & Hnone)].
      - left. split; [lia|]. split; assumption.
      - right. split; [reflexivity|]. intros j Hj.
        destruct (decide (j = m)) as [->|Hjm]; [congruence|]. apply Hnone. lia. }
    destruct (decide (km < size)%nat) as [Hin|Hout].
    + destruct (Hspec km Hin) as (v & Hv & Hs). rewrite Hv. simpl.
      destruct Hs as [(Hvm & Hkv & Hmin)|(-> & Hnone)].
      * replace (m <? v)%nat with false by (symmetry; apply Nat.ltb_ge; lia).
        split; [exact Hlen|]. intros k Hk.
        destruct (decide (k = km)) as [->|Hne]; [|apply Hstep; assumption].
        exists v. split; [exact Hv|]. left. split; [lia|]. split; assumption.
      * replace (m <? n)%nat with true by (symmetry; apply Nat.ltb_lt; lia).
        split; [rewrite length_insert; exact Hlen|]. intros k Hk.
        destruct (decide (k = km)) as [->|Hne].
        -- exists m. split; [apply list_lookup_insert_eq; lia|].
           left. split; [lia|]. split; [exact Hkm|].
           intros j Hj. apply Hnone. exact Hj.
        -- rewrite list_lookup_insert_ne by congruence. apply Hstep; assumption.
    + assert (Hnone : offsets !! km = None) by (apply lookup_ge_None; lia).
      rewrite Hnone. simpl.
      split; [exact Hlen|]. intros k Hk. apply Hstep; [exact Hk|lia].
Qed.

(** The offset table [step] computes: entry [k] is the first index whose key
    is [k], or [n] when no key is [k]. *)
Lemma fillOffsets_spec keys n :
  length keys = n ->
  length (fillOffsets keys n n) = n
  /\ forall k, (k < n)%nat ->
       exists v, fillOffsets keys n n !! k = Some v /\ startOf keys n n k v.
Proof.
  intros Hlen. rewrite fillOffsets_unfold.
  apply lowerOffset_prefix; lia.
Qed.

End OffsetTable.

Section IndexBuild.
Context `{Platform}.

Lemma keyFromHash_ext s s' h :
  length (_particles s') = length (_particles s) -> keyFromHash s' h = keyFromHash s h.
Proof. intros Hn. unfold keyFromHash. rewrite Hn. reflexivity. Qed.

Lemma getCell_ext s s' p p' :
  _config s' = _config s -> _predicted p' = _predicted p -> getCell s' p' = getCell s p.
Proof. intros Hc Hp. unfold getCell. rewrite Hc, Hp. reflexivity. Qed.

Lemma keyFromHash_lt s h :
  (0 < length (_particles s))%nat -> (keyFromHash s h < length (_particles s))%nat.
Proof.
  intros Hn. unfold keyFromHash.
  pose proof (Z.mod_pos_bound (h mod 2 ^ 32) (Z.of_nat (length (_particles s))) ltac:(lia)).
  lia.
Qed.

Lemma buildSpatialHash_keys s :
  length (_keys s) = length (_particles s) -> _keys (buildSpatialHash s) = hashedKeys s.
Proof.
  intros Hk. unfold buildSpatialHash, hashedKeys; cbn [_keys].
  rewrite Hk, Nat.min_id, firstn_all.
  rewrite drop_ge by lia. apply app_nil_r.
Qed.

(** The three steps of the index build, spelled out for a sized state whose
    sort kept its contract. *)
Lemma buildIndex_fields s :
  sized s -> sortOk s = true ->
  let sorted := _sortedIndices (buildSpatialHash s) in
  let keys := (fun i => default 0%nat (hashedKeys s !! i)) <$> sorted in
  length sorted = length (_particles s)
  /\ _config (buildIndex s) = _config s
  /\ _particles (buildIndex s) = particleAt s <$> sorted
  /\ _keys (buildIndex s) = keys
  /\ _offsets (buildIndex s)
     = fillOffsets keys (length (_particles s)) (length (_particles s)).
Proof.
  intros (Hk & Hs & Ho & Hb & Hv) Hsort sorted keys.
  unfold sortOk, sort_post in Hsort. rewrite !andb_true_iff in Hsort.
  destruct Hsort as [[[Hlen _] _] _]. apply bool_decide_eq_true in Hlen.
  fold sorted in Hlen. rewrite Hs in Hlen.
  assert (Hk1 : _keys (buildSpatialHash s) = hashedKeys s)
    by (apply buildSpatialHash_keys; exact Hk).
  assert (Hn : Nat.min (length sorted)
                 (Nat.min (length (hashedKeys s)) (length (_reorderBuffer s)))
               = length sorted).
  { unfold hashedKeys. rewrite length_fmap, Hb, Hlen. lia. }
  assert (Hparts : _particles (buildIndex s) = particleAt s <$> sorted).
  { unfold buildIndex, computeOffsets, reorderParticles; cbn [_particles].
    rewrite Hk1. change (_reorderBuffer (buildSpatialHash s)) with (_reorderBuffer s).
    fold sorted. rewrite Hn, firstn_all.
    rewrite drop_ge by lia. rewrite app_nil_r. reflexivity. }
  assert (Hkeys : _keys (buildIndex s) = keys).
  { unfold buildIndex, computeOffsets, reorderParticles; cbn [_keys].
    rewrite Hk1. change (_reorderBuffer (buildSpatialHash s)) with (_reorderBuffer s).
    fold sorted. rewrite Hn, firstn_all.
    rewrite drop_ge by (unfold hashedKeys; rewrite length_fmap; lia).
    rewrite app_nil_r. reflexivity. }
  split; [exact Hlen|]. split; [reflexivity|]. split; [exact Hparts|].
  split; [exact Hkeys|].
  change (_offsets (buildIndex s))
    with (fillOffsets (_keys (reorderParticles (buildSpatialHash s)))
            (length (_particles (reorderParticles (buildSpatialHash s))))
            (length (_offsets s))).
  change (_keys (reorderParticles (buildSpatialHash s))) with (_keys (buildIndex s)).
  change (_particles (reorderParticles (buildSpatialHash s)))
    with (_particles (buildIndex s)).
  rewrite Hkeys, Hparts, length_fmap, Hlen, Ho. reflexivity.
Qed.

(** The index build establishes the index invariant. *)
Lemma buildIndex_indexed s :
  sized s -> sortOk s = true ->
  indexed (buildIndex s) /\ length (_particles (buildIndex s)) = length (_particles s).
Proof.
  intros Hsized Hsort.
  destruct (buildIndex_fields s Hsized Hsort) as (Hlen & Hcfg & Hparts & Hkeys & Hoffs).
  set (sorted := _sortedIndices (buildSpatialHash s)) in *.
  assert (Hn : length (_particles (buildIndex s)) = length (_particles s))
    by (rewrite Hparts, length_fmap; exact Hlen).
  split; [|exact Hn].
  assert (Hpost := Hsort). unfold sortOk, sort_post in Hpost.
  rewrite !andb_true_iff in Hpost. destruct Hpost as [[[_ Hrange] _] Hasc].
  fold sorted in Hrange, Hasc.
  destruct Hsized as (Hk & Hs & _). rewrite Hs in Hrange.
  rewrite (buildSpatialHash_keys s Hk) in Hasc.
  unfold indexed. rewrite Hn, Hkeys, Hoffs.
  assert (Hklen : length ((fun i => default 0%nat (hashedKeys s !! i)) <$> sorted)
                  = length (_particles s))
    by (rewrite length_fmap; exact Hlen).
  destruct (fillOffsets_spec _ _ Hklen) as [Holen Hospec].
  split; [exact Hklen|]. split; [exact Holen|].
  split; [apply nondecreasing_spec; exact Hasc|].
  split; [|exact Hospec].
  intros i p Hp. rewrite Hparts in Hp.
  rewrite list_lookup_fmap in Hp. rewrite list_lookup_fmap.
  destruct (sorted !! i) as [x|] eqn:Hx; [|discriminate]. simpl in Hp |- *.
  injection Hp as <-.
  assert (Hxn : (x < length (_particles s))%nat).
  { rewrite forallb_forall in Hrange. apply Nat.ltb_lt, Hrange.
    apply list_elem_of_In. eapply list_elem_of_lookup_2, Hx. }
  destruct (lookup_lt_is_Some_2 (_particles s) x Hxn) as [px Hpx].
  unfold particleAt. rewrite Hpx. simpl.
  unfold hashedKeys. rewrite list_lookup_fmap, Hpx. simpl.
  f_equal. rewrite (keyFromHash_ext s (buildIndex s)) by exact Hn.
  rewrite (getCell_ext s (buildIndex s) px px Hcfg eq_refl).
  reflexivity.
Qed.

End IndexBuild.

(** ** Buffer sizing is an invariant of the engine *)

Section Sizing.
Context `{Platform}.

Lemma sameShape_refl s : sameShape s s.
Proof. unfold sameShape. tauto. Qed.

Lemma sameShape_trans s1 s2 s3 : sameShape s1 s2 -> sameShape s2 s3 -> sameShape s1 s3.
Proof.
  unfold sameShape. intros (?&?&?&?&?&?&?) (?&?&?&?&?&?&?). repeat split; congruence.
Qed.

Lemma frame_sameShape s s' : frame s s' -> sameShape s s'.
Proof.
  unfold frame, sameShape. intros (_ & Ht & Hk & Hs & Ho & Hb & Hv & _ & Hn).
  rewrite Ht, Hk, Hs, Ho, Hb, Hv, Hn. tauto.
Qed.

Lemma sized_sameShape s s' : sameShape s s' -> sized s -> sized s'.
Proof.
  unfold sameShape, sized. intros (_&Hn&Hk&Hs&Ho&Hb&Hv) (?&?&?&?&?).
  rewrite Hn, Hk, Hs, Ho, Hb, Hv. tauto.
Qed.

Lemma dispatch_sameShape pass ranges s :
  (forall a b s, sameShape s (pass a b s)) -> sameShape s (dispatch pass ranges s).
Proof.
  intros Hp. unfold dispatch. apply fold_left_preserves; [apply sameShape_refl|].
  intros a r Ha. eapply sameShape_trans; [exact Ha|apply Hp].
Qed.

Lemma forParticles_sameShape body start end_ s : sameShape s (forParticles body start end_ s).
Proof. apply frame_sameShape, forParticles_frame. Qed.

Lemma writeSnapshot_sameShape start end_ s : sameShape s (writeSnapshot start end_ s).
Proof.
  unfold writeSnapshot. apply fold_left_preserves; [apply sameShape_refl|].
  intros a i Ha. eapply sameShape_trans; [exact Ha|].
  unfold sameShape; cbn [with_snapshot _threads _particles _keys _sortedIndices _offsets
                          _reorderBuffer _velocitySnapshot].
  rewrite length_insert. tauto.
Qed.

Lemma buildIndex_sameShape s : sized s -> sortOk s = true -> sameShape s (buildIndex s).
Proof.
  intros Hsized Hsort.
  destruct (buildIndex_fields s Hsized Hsort) as (Hlen & _ & Hparts & Hkeys & Hoffs).
  destruct Hsized as (Hk & Hs & Ho & Hb & Hv).
  assert (Hn : length (_particles (buildIndex s)) = length (_particles s))
    by (rewrite Hparts, length_fmap; exact Hlen).
  assert (Hklen : length (_keys (buildIndex s)) = length (_particles s))
    by (rewrite Hkeys, length_fmap; exact Hlen).
  unfold sameShape. split; [reflexivity|]. split; [exact Hn|].
  split; [congruence|].
  split; [change (_sortedIndices (buildIndex s)) with (_sortedIndices (buildSpatialHash s));
          congruence|].
  split.
  { rewrite Hoffs. rewrite <- Hkeys.
    destruct (fillOffsets_spec (_keys (buildIndex s)) _ Hklen) as [Hol _]. congruence. }
  split; [change (_reorderBuffer (buildIndex s)) with (_particles (buildIndex s));
          congruence|].
  reflexivity.
Qed.

(** The state on which [step] builds its index is sized when the engine is. *)
Lemma predicted_sized dt ranges s :
  sized s -> sized (dispatch (applyExternalForces dt) ranges s).
Proof.
  apply sized_sameShape, dispatch_sameShape. intros. apply forParticles_sameShape.
Qed.

(** [init] sizes the buffers, and a completed step whose sort kept its
    contract leaves them sized, with the same thread count. *)
Lemma step_sized dt s s' :
  sized s ->
  sortOk (dispatch (applyExternalForces dt) (stepRanges s) s) = true ->
  step dt s = Completed s' ->
  sized s' /\ sameShape s s'.
Proof.
  intros Hsized Hsort. unfold step.
  destruct (_threads s =? 0)%nat; [discriminate|].
  destruct (existsb _ _); [discriminate|].
  intros [= <-].
  set (ranges := stepRanges s) in *.
  set (sE := dispatch (applyExternalForces dt) ranges s) in *.
  assert (HE : sameShape s sE)
    by (apply dispatch_sameShape; intros; apply forParticles_sameShape).
  assert (HB : sameShape s (buildIndex sE)).
  { eapply sameShape_trans; [exact HE|].
    apply buildIndex_sameShape; [|exact Hsort]. eapply sized_sameShape; eassumption. }
  set (sB := buildIndex sE) in *.
  assert (Hpass : forall body sX, sameShape s sX ->
            sameShape s (dispatch (forParticles body) ranges sX)).
  { intros body sX HX. eapply sameShape_trans; [exact HX|].
    apply dispatch_sameShape. intros. apply forParticles_sameShape. }
  assert (Hfinal : sameShape s
            (dispatch (updatePositions dt) ranges
               (if _useViscosity
                     (dispatch (calculatePressureForce dt) ranges
                        (dispatch calculateDensities ranges sB))
                then dispatch (calculateViscosity dt) ranges
                       (dispatch writeSnapshot ranges
                          (dispatch (calculatePressureForce dt) ranges
                             (dispatch calculateDensities ranges sB)))
                else dispatch (calculatePressureForce dt) ranges
                       (dispatch calculateDensities ranges sB)))).
  { apply Hpass. destruct (_useViscosity _).
    - apply Hpass. eapply sameShape_trans.
      + apply Hpass, Hpass, HB.
      + apply dispatch_sameShape. intros. apply writeSnapshot_sameShape.
    - apply Hpass, Hpass, HB. }
  split; [eapply sized_sameShape; eassumption|exact Hfinal].
Qed.

End Sizing.

(** Buffer sizing, as an invariant of [step]: a step of a sized engine whose
    sort kept its contract either faults or completes in a sized state with
    the same particle count and thread count. *)
Theorem step_keeps_buffers_sized `{Platform} (dt : Q) (s : SPH) :
  sized s ->
  sortOk (dispatch (applyExternalForces dt) (stepRanges s) s) = true ->
  match step dt s with
  | Completed s' =>
      sized s'
      /\ length (_particles s') = length (_particles s)
      /\ _threads s' = _threads s
  | Faulted _ => True
  end.
Proof.
  intros Hsized Hsort. destruct (step dt s) as [s'|f] eqn:Hstep; [|exact I].
  destruct (step_sized dt s s' Hsized Hsort Hstep) as [Hs (Ht & Hn & _)].
  split; [exact Hs|]. split; [exact Hn|exact Ht].
Qed.

(** The invariant at work on the floor-bounce engine. *)
Lemma step_keeps_buffers_sized_witness :
  let s := bounceStart (H := Demo.platform) in
  sized s
  /\ sortOk (H := Demo.platform)
       (dispatch (applyExternalForces (1 # 60)) (stepRanges s) s) = true
  /\ match step (H := Demo.platform) (1 # 60) s with
     | Completed s' =>
         sized s'
         /\ length (_particles s') = length (_particles s)
         /\ _threads s' = _threads s
     | Faulted _ => True
     end.
Proof.
  cbv zeta.
  assert (Hsized : sized (bounceStart (H := Demo.platform))) by apply init_sized.
  assert (Hsort : sortOk (H := Demo.platform)
            (dispatch (applyExternalForces (1 # 60))
               (stepRanges (bounceStart (H := Demo.platform)))
               (bounceStart (H := Demo.platform))) = true) by reflexivity.
  split; [exact Hsized|]. split; [exact Hsort|].
  exact (step_keeps_buffers_sized (H := Demo.platform) (1 # 60) _ Hsized Hsort).
Defined.

Section Buckets.
Context `{Platform}.

Lemma bucketRun_keys keys n key fuel idx j :
  j ∈ bucketRun keys n key fuel idx -> default 0%nat (keys !! j) = key.
Proof.
  revert idx. induction fuel as [|fuel IH]; intros idx Hj; simpl in Hj.
  - inversion Hj.
  - destruct (idx <? n)%nat; simpl in Hj; [|inversion Hj].
    destruct (default 0%nat (keys !! idx) =? key)%nat eqn:Hk; [|inversion Hj].
    apply Nat.eqb_eq in Hk.
    apply elem_of_cons in Hj. destruct Hj as [->|Hj]; [exact Hk|].
    eapply IH, Hj.
Qed.

(* The walk does not stop before [j] when every entry up to [j] has the key. *)
Lemma bucketRun_reaches keys n key fuel idx j :
  (idx <= j)%nat -> (j - idx < fuel)%nat ->
  (forall m, (idx <= m <= j)%nat -> (m < n)%nat /\ default 0%nat (keys !! m) = key) ->
  j ∈ bucketRun keys n key fuel idx.
Proof.
  revert idx. induction fuel as [|fuel IH]; intros idx Hij Hfuel Hall; [lia|].
  simpl. destruct (Hall idx ltac:(lia)) as [Hn Hk].
  replace (idx <? n)%nat with true by (symmetry; apply Nat.ltb_lt; exact Hn).
  replace (default 0%nat (keys !! idx) =? key)%nat with true
    by (symmetry; apply Nat.eqb_eq; exact Hk).
  simpl. destruct (decide (j = idx)) as [->|Hne]; [left|].
  right. apply IH; [lia|lia|]. intros m Hm. apply Hall. lia.
Qed.

(* A walk visits consecutive indices. *)
Lemma bucketRun_seq keys n key fuel idx :
  bucketRun keys n key fuel idx = seq idx (length (bucketRun keys n key fuel idx)).
Proof.
  revert idx. induction fuel as [|fuel IH]; intros idx; simpl; [reflexivity|].
  destruct ((idx <? n)%nat && (default 0%nat (keys !! idx) =? key)%nat); [|reflexivity].
  simpl. f_equal. apply IH.
Qed.

Lemma indexed_sameIndex s s' : indexed s -> sameIndex s s' -> indexed s'.
Proof.
  intros (Hk & Ho & Hasc & Hkey & Hoff) (Hc & Hk' & Ho' & Hn & Hpred).
  unfold indexed. rewrite Hk', Ho', Hn.
  split; [exact Hk|]. split; [exact Ho|]. split; [exact Hasc|]. split; [|exact Hoff].
  intros i p' Hp'.
  destruct (lookup_lt_is_Some_2 (_particles s) i) as [p Hp].
  { rewrite <- Hn. eapply lookup_lt_Some, Hp'. }
  rewrite (Hkey i p Hp). f_equal.
  rewrite (keyFromHash_ext s s') by exact Hn.
  rewrite (getCell_ext s s' p p' Hc (Hpred i p p' Hp Hp')). reflexivity.
Qed.

Lemma sameIndex_refl s : sameIndex s s.
Proof.
  unfold sameIndex. repeat split. intros i p p' Hp Hp'. congruence.
Qed.

Lemma indexed_key_lt s i k :
  indexed s -> _keys s !! i = Some k -> (k < length (_particles s))%nat.
Proof.
  intros (Hk & _ & _ & Hkey & _) Hi.
  destruct (lookup_lt_is_Some_2 (_particles s) i) as [p Hp].
  { rewrite <- Hk. eapply lookup_lt_Some, Hi. }
  rewrite (Hkey i p Hp) in Hi. injection Hi as <-.
  apply keyFromHash_lt. apply lookup_lt_Some in Hp. lia.
Qed.

(** In an indexed state the walk of bucket [key] visits exactly the indices
    whose key is [key]. *)
Lemma bucketWalk_elem s key j :
  indexed s -> (key < length (_particles s))%nat ->
  j ∈ bucketWalk s key <-> _keys s !! j = Some key.
Proof.
  intros (Hk & Ho & Hasc & Hkey & Hoff) Hlt. unfold bucketWalk.
  destruct (Hoff key Hlt) as (v & Hv & Hstart). rewrite Hv. simpl.
  split.
  - intros Hj. pose proof (bucketRun_bounds _ _ _ _ _ _ Hj) as [_ Hjn].
    apply bucketRun_keys in Hj.
    destruct (lookup_lt_is_Some_2 (_keys s) j ltac:(lia)) as [kj Hkj].
    rewrite Hkj in Hj |- *. simpl in Hj. congruence.
  - intros Hj. pose proof (lookup_lt_Some _ _ _ Hj) as Hjn. rewrite Hk in Hjn.
    destruct Hstart as [(Hvn & Hkv & Hmin)|(-> & Hnone)];
      [|exfalso; apply (Hnone j Hjn Hj)].
    assert (Hvj : (v <= j)%nat).
    { destruct (decide (v <= j)%nat) as [|Hgt]; [assumption|].
      exfalso. apply (Hmin j ltac:(lia) Hj). }
    apply bucketRun_reaches; [exact Hvj|lia|].
    intros m Hm. split; [lia|].
    destruct (lookup_lt_is_Some_2 (_keys s) m ltac:(lia)) as [km Hkm].
    rewrite Hkm. simpl.
    pose proof (Hasc v m key km ltac:(lia) Hkv Hkm).
    pose proof (Hasc m j km key ltac:(lia) Hkm Hj). lia.
Qed.

Lemma bucketWalk_seq s key :
  bucketWalk s key = seq (default 0%nat (_offsets s !! key)) (length (bucketWalk s key)).
Proof. unfold bucketWalk. apply bucketRun_seq. Qed.

End Buckets.

(** C7: after the index build, the keys and offsets are as long as the
    particle array; for every index [i] the bucket of its key [k] is one
    range [start, e) of indices that begins at [offsets[k]] and contains
    [i], and no index outside the range has key [k]; the offset of a key no
    particle holds is N. *)
Theorem index_build_offsets `{Platform} (s : SPH) :
  sized s -> sortOk s = true ->
  let s' := buildIndex s in
  let n := length (_particles s') in
  n = length (_particles s)
  /\ length (_keys s') = n
  /\ length (_offsets s') = n
  /\ (forall i, (i < n)%nat ->
        exists k start e,
          _keys s' !! i = Some k
          /\ (k < n)%nat
          /\ _offsets s' !! k = Some start
          /\ (start <= i < e)%nat /\ (e <= n)%nat
          /\ forall j, _keys s' !! j = Some k <-> (start <= j < e)%nat)
  /\ (forall k, (k < n)%nat -> (forall i, _keys s' !! i <> Some k) ->
        _offsets s' !! k = Some n).
Proof.
  intros Hsized Hsort s' n.
  destruct (buildIndex_indexed s Hsized Hsort) as [Hidx Hn]. fold s' in Hidx, Hn.
  assert (Hidx' := Hidx). destruct Hidx' as (Hk & Ho & Hasc & Hkey & Hoff).
  fold n in Hk, Ho, Hoff.
  split; [exact Hn|]. split; [exact Hk|]. split; [exact Ho|]. split.
  - intros i Hi.
    destruct (lookup_lt_is_Some_2 (_keys s') i ltac:(lia)) as [k Hki].
    pose proof (indexed_key_lt s' i k Hidx Hki) as Hkn. fold n in Hkn.
    destruct (Hoff k Hkn) as (start & Hstart & Hspec).
    exists k, start, (start + length (bucketWalk s' k))%nat.
    assert (Hmem : forall j, _keys s' !! j = Some k
                     <-> (start <= j < start + length (bucketWalk s' k))%nat).
    { intros j. rewrite <- (bucketWalk_elem s' k j Hidx Hkn).
      rewrite (bucketWalk_seq s' k) at 1. rewrite Hstart. simpl.
      rewrite elem_of_seq. lia. }
    split; [exact Hki|]. split; [exact Hkn|]. split; [exact Hstart|].
    split; [apply Hmem, Hki|]. split; [|exact Hmem].
    destruct (length (bucketWalk s' k)) as [|len] eqn:Hlen; [apply Hmem in Hki; lia|].
    assert (Hlast : _keys s' !! (start + len)%nat = Some k) by (apply Hmem; lia).
    apply lookup_lt_Some in Hlast. lia.
  - intros k Hkn Hnone. destruct (Hoff k Hkn) as (v & Hv & Hspec).
    destruct Hspec as [(_ & Hkv & _)|(-> & _)]; [|exact Hv].
    exfalso. apply (Hnone v Hkv).
Qed.

(** ** The pressure and viscosity walks *)

Section NeighbourWalks.
Context `{Platform}.

Lemma wrap32_idem z : wrap32 (wrap32 z) = wrap32 z.
Proof.
  unfold wrap32.
  replace ((z + 2 ^ 31) mod 2 ^ 32 - 2 ^ 31 + 2 ^ 31)%Z with ((z + 2 ^ 31) mod 2 ^ 32)%Z
    by lia.
  rewrite Z.mod_mod by lia. reflexivity.
Qed.

Lemma addi_origin s particle :
  Vec.addi (getCell s particle) (mkVec3 0 0 0)%Z = getCell s particle.
Proof.
  unfold getCell, Vec.toInt, Vec.addi; cbn [d0 d1 d2].
  rewrite !Z.add_0_r, !wrap32_idem. reflexivity.
Qed.

(* The key of the particle's own cell is one of the 27 keys it walks. *)
Lemma own_key_walked s particle :
  keyFromHash s (hash (getCell s particle)) ∈ neighborKeys s particle.
Proof.
  unfold neighborKeys.
  apply (list_elem_of_fmap_2' _ _ (mkVec3 0 0 0)%Z).
  - unfold OFFSETS_3D.
    repeat first [apply list_elem_of_here | apply list_elem_of_further].
  - rewrite addi_origin. reflexivity.
Qed.

Lemma sameIndex_trans s1 s2 s3 : sameIndex s1 s2 -> sameIndex s2 s3 -> sameIndex s1 s3.
Proof.
  intros (Hc & Hk & Ho & Hn & Hp) (Hc' & Hk' & Ho' & Hn' & Hp').
  unfold sameIndex. repeat split; try congruence.
  intros i p p3 H1 H3.
  destruct (lookup_lt_is_Some_2 (_particles s2) i) as [p2 H2].
  { rewrite Hn. eapply lookup_lt_Some, H1. }
  rewrite (Hp' i p2 p3 H2 H3). apply (Hp i p p2 H1 H2).
Qed.

(* A pass whose body keeps [_predicted] keeps the index. *)
Lemma forParticles_sameIndex body start end_ s :
  (forall s i p, _predicted (body s i p) = _predicted p) ->
  sameIndex s (forParticles body start end_ s).
Proof.
  intros Hbody. unfold forParticles.
  apply fold_left_preserves; [apply sameIndex_refl|].
  intros a i Ha. destruct (_particles a !! i) as [p|] eqn:Hp; [|exact Ha].
  eapply sameIndex_trans; [exact Ha|].
  unfold sameIndex; cbn [with_particles _config _keys _offsets _particles].
  rewrite length_insert. repeat split.
  intros j q q' Hq Hq'.
  destruct (decide (i = j)) as [->|Hne].
  - rewrite list_lookup_insert_eq in Hq' by (eapply lookup_lt_Some, Hp).
    injection Hq' as <-. rewrite Hbody. congruence.
  - rewrite list_lookup_insert_ne in Hq' by exact Hne. congruence.
Qed.

Lemma dispatch_sameIndex pass ranges s :
  (forall a b s, sameIndex s (pass a b s)) -> sameIndex s (dispatch pass ranges s).
Proof.
  intros Hp. unfold dispatch. apply fold_left_preserves; [apply sameIndex_refl|].
  intros a r Ha. eapply sameIndex_trans; [exact Ha|apply Hp].
Qed.

Lemma writeSnapshot_sameIndex start end_ s : sameIndex s (writeSnapshot start end_ s).
Proof.
  unfold writeSnapshot. apply fold_left_preserves; [apply sameIndex_refl|].
  intros a i Ha. eapply sameIndex_trans; [exact Ha|].
  unfold sameIndex; cbn [with_snapshot _config _keys _offsets _particles].
  repeat split. intros j q q' Hq Hq'. congruence.
Qed.

(** Between the index build and the position update, [step] runs the
    density, pressure, snapshot and viscosity passes; each keeps the index.
    So the pressure pass and the viscosity pass of a step both walk states
    that have the index its build produced. *)
Lemma physics_passes_sameIndex dt ranges s :
  let sD := dispatch calculateDensities ranges s in
  let sP := dispatch (calculatePressureForce dt) ranges sD in
  let sV := dispatch (calculateViscosity dt) ranges (dispatch writeSnapshot ranges sP) in
  sameIndex s sD /\ sameIndex s sP /\ sameIndex s sV.
Proof.
  intros sD sP sV.
  assert (HD : sameIndex s sD).
  { apply dispatch_sameIndex. intros. apply forParticles_sameIndex. reflexivity. }
  assert (HP : sameIndex s sP).
  { eapply sameIndex_trans; [exact HD|].
    apply dispatch_sameIndex. intros. apply forParticles_sameIndex. reflexivity. }
  split; [exact HD|]. split; [exact HP|].
  eapply sameIndex_trans; [exact HP|].
  eapply sameIndex_trans.
  - apply dispatch_sameIndex. intros. apply writeSnapshot_sameIndex.
  - apply dispatch_sameIndex. intros. apply forParticles_sameIndex. reflexivity.
Qed.

Lemma neighborKeys_sameIndex s s' p p' :
  sameIndex s s' -> _predicted p' = _predicted p -> neighborKeys s' p' = neighborKeys s p.
Proof.
  intros (Hc & _ & _ & Hn & _) Hp. unfold neighborKeys.
  rewrite (getCell_ext s s' p p' Hc Hp).
  apply list_fmap_ext. intros _ offset _. apply keyFromHash_ext, Hn.
Qed.

Lemma bucketWalk_sameIndex s s' key : sameIndex s s' -> bucketWalk s' key = bucketWalk s key.
Proof.
  intros (_ & Hk & Ho & Hn & _). unfold bucketWalk. rewrite Hk, Ho, Hn. reflexivity.
Qed.

Lemma neighborReads_sameIndex s s' p p' :
  sameIndex s s' -> _predicted p' = _predicted p -> neighborReads s' p' = neighborReads s p.
Proof.
  intros Hsame Hp. unfold neighborReads.
  rewrite (neighborKeys_sameIndex s s' p p' Hsame Hp).
  apply flat_map_ext. intros key. rewrite (bucketWalk_sameIndex s s' key Hsame). reflexivity.
Qed.

Lemma particleAt_sameIndex s s' j :
  sameIndex s s' -> _predicted (particleAt s' j) = _predicted (particleAt s j).
Proof.
  intros (_ & _ & _ & Hn & Hpred). unfold particleAt.
  destruct (_particles s !! j) as [q|] eqn:Hq.
  - destruct (lookup_lt_is_Some_2 (_particles s') j) as [q' Hq'].
    { rewrite Hn. eapply lookup_lt_Some, Hq. }
    rewrite Hq'. simpl. eapply Hpred; eassumption.
  - rewrite (lookup_ge_None_2 (_particles s') j); [reflexivity|].
    rewrite Hn. apply lookup_ge_None, Hq.
Qed.

Lemma withinRadius_sameIndex s s' p p' q q' :
  sameIndex s s' -> _predicted p' = _predicted p -> _predicted q' = _predicted q ->
  withinRadius s' p' q' = withinRadius s p q.
Proof.
  intros (Hc & _) Hp Hq. unfold withinRadius, squareDistance. rewrite Hc, Hp, Hq. reflexivity.
Qed.

(** The passes between index build and position update accept, for every
    particle, the neighbours the index state itself accepts. *)
Lemma acceptedNeighbors_sameIndex s s' i p p' :
  sameIndex s s' -> _predicted p' = _predicted p ->
  acceptedNeighbors s' i p' = acceptedNeighbors s i p.
Proof.
  intros Hsame Hp. unfold acceptedNeighbors.
  rewrite (neighborReads_sameIndex s s' p p' Hsame Hp).
  apply list_filter_iff. intros j.
  rewrite (withinRadius_sameIndex s s' p p' (particleAt s j) (particleAt s' j) Hsame Hp
             (particleAt_sameIndex s s' j Hsame)).
  reflexivity.
Qed.

End NeighbourWalks.

(** C2: in every state that carries the index of a step with N >= 1
    particles (the states of its pressure and viscosity passes), the walk
    for the last particle of the array dereferences index N, one behind the
    last entry of the particle array and of the velocity snapshot. *)
Theorem neighbor_walk_reads_past_end `{Platform} (s sP : SPH) :
  sized s -> sortOk s = true -> (1 <= length (_particles s))%nat ->
  sameIndex (buildIndex s) sP ->
  let n := length (_particles sP) in
  n = length (_particles s)
  /\ _particles sP !! n = None
  /\ exists last,
       _particles sP !! (n - 1)%nat = Some last
       /\ n ∈ neighborReads sP last
       /\ particleAt sP n = strayParticle.
Proof.
  intros Hsized Hsort Hpos Hsame n.
  destruct (buildIndex_indexed s Hsized Hsort) as [Hidx Hn].
  pose proof (indexed_sameIndex _ _ Hidx Hsame) as HidxP.
  assert (HnP : n = length (_particles s)).
  { unfold n. destruct Hsame as (_ & _ & _ & Hlen & _). congruence. }
  assert (Hnone : _particles sP !! n = None) by (apply lookup_ge_None; unfold n; lia).
  split; [exact HnP|]. split; [exact Hnone|].
  destruct (lookup_lt_is_Some_2 (_particles sP) (n - 1)) as [last Hlast]; [unfold n in *; lia|].
  exists last. split; [exact Hlast|].
  split; [|unfold particleAt; rewrite Hnone; reflexivity].
  assert (HidxP' := HidxP). destruct HidxP' as (Hk & Ho & Hasc & Hkey & Hoff).
  pose proof (Hkey _ _ Hlast) as Hkl.
  set (key := keyFromHash sP (hash (getCell sP last))) in *.
  assert (Hkn : (key < length (_particles sP))%nat) by (eapply indexed_key_lt; eassumption).
  unfold neighborReads. apply elem_of_flat_map.
  exists key. split; [apply own_key_walked|].
  replace n with (S (n - 1)) at 1 by (unfold n in *; lia).
  apply list_elem_of_fmap_2. apply bucketWalk_elem; assumption.
Qed.

(** C2 at work: the one-particle engine of the floor-bounce scenario. *)
Lemma neighbor_walk_reads_past_end_witness :
  let s := init (H := Demo.platform) Demo.bounceConfig [Demo.bounceParticle] SPH_instance in
  sized s
  /\ sortOk (H := Demo.platform) s = true
  /\ (1 <= length (_particles s))%nat
  /\ exists last,
       _particles (buildIndex (H := Demo.platform) s) !! 0%nat = Some last
       /\ 1%nat ∈ neighborReads (buildIndex (H := Demo.platform) s) last.
Proof.
  cbv zeta.
  set (s := init (H := Demo.platform) Demo.bounceConfig [Demo.bounceParticle] SPH_instance).
  assert (Hsized : sized s) by (repeat split).
  assert (Hsort : sortOk (H := Demo.platform) s = true) by reflexivity.
  assert (Hpos : (1 <= length (_particles s))%nat) by (simpl; lia).
  split; [exact Hsized|]. split; [exact Hsort|]. split; [exact Hpos|].
  destruct (neighbor_walk_reads_past_end (H := Demo.platform) s
              (buildIndex (H := Demo.platform) s) Hsized Hsort Hpos
              (sameIndex_refl _)) as (Hn & _ & last & Hlast & Hread & _).
  exists last. rewrite Hn in Hlast, Hread. split; [exact Hlast|exact Hread].
Defined.

(** ** Neighbouring cells *)

Section Cells.
Local Open Scope Q_scope.

Lemma truncQ_nonneg (x : Q) :
  0 <= x ->
  (0 <= Vec.truncQ x)%Z /\ inject_Z (Vec.truncQ x) <= x /\ x < inject_Z (Vec.truncQ x) + 1.
Proof.
  intros Hx. destruct x as [n d].
  assert (Hn : (0 <= n)%Z) by (unfold Qle in Hx; simpl in Hx; lia).
  assert (Ht : Vec.truncQ (n # d) = Qfloor (n # d)).
  { unfold Vec.truncQ, Qfloor; simpl. apply Z.quot_div_nonneg; lia. }
  split; [unfold Vec.truncQ; simpl; apply Z.quot_pos; lia|].
  rewrite Ht. split; [apply Qfloor_le|].
  pose proof (Qlt_floor (n # d)) as H. rewrite inject_Z_plus in H. exact H.
Qed.

Lemma truncQ_nonpos (x : Q) :
  x <= 0 ->
  (Vec.truncQ x <= 0)%Z /\ x <= inject_Z (Vec.truncQ x) /\ inject_Z (Vec.truncQ x) - 1 < x.
Proof.
  intros Hx. destruct x as [n d].
  assert (Hn : (n <= 0)%Z) by (unfold Qle in Hx; simpl in Hx; lia).
  assert (Hq : Vec.truncQ (n # d) = (- ((- n) ÷ Z.pos d))%Z).
  { unfold Vec.truncQ; simpl. rewrite <- Z.quot_opp_l by lia. f_equal. lia. }
  assert (Ht : Vec.truncQ (n # d) = Qceiling (n # d)).
  { rewrite Hq. unfold Qceiling, Qfloor; simpl. f_equal. apply Z.quot_div_nonneg; lia. }
  split.
  - rewrite Hq. pose proof (Z.quot_pos (- n) (Z.pos d) ltac:(lia) ltac:(lia)). lia.
  - rewrite Ht. split; [apply Qle_ceiling|].
    pose proof (Qceiling_lt (n # d)) as H. unfold Z.sub in H.
    rewrite inject_Z_plus in H. exact H.
Qed.

Lemma truncQ_step (a b : Q) : a <= b -> b <= a + 1 ->
  Vec.truncQ b = Vec.truncQ a \/ Vec.truncQ b = (Vec.truncQ a + 1)%Z.
Proof.
  intros Hab Hba.
  assert (Hnear : ~ (Vec.truncQ b + 1 <= Vec.truncQ a)%Z
                  /\ ~ (Vec.truncQ a + 2 <= Vec.truncQ b)%Z).
  { rewrite !Zle_Qle, !inject_Z_plus.
    change (inject_Z 1) with 1. change (inject_Z 2) with 2.
    destruct (Qlt_le_dec a 0) as [Ha|Ha], (Qlt_le_dec b 0) as [Hb|Hb].
    - destruct (truncQ_nonpos a ltac:(lra)) as (_ & ? & ?).
      destruct (truncQ_nonpos b ltac:(lra)) as (_ & ? & ?). split; lra.
    - destruct (truncQ_nonpos a ltac:(lra)) as (Hza & ? & ?).
      destruct (truncQ_nonneg b Hb) as (Hzb & ? & ?).
      rewrite Zle_Qle in Hza, Hzb. change (inject_Z 0) with 0 in Hza, Hzb. split; lra.
    - lra.
    - destruct (truncQ_nonneg a Ha) as (_ & ? & ?).
      destruct (truncQ_nonneg b Hb) as (_ & ? & ?). split; lra. }
  lia.
Qed.

Lemma wrap32_add_l x y : wrap32 (wrap32 x + y) = wrap32 (x + y).
Proof.
  unfold wrap32. f_equal.
  replace ((x + 2 ^ 31) mod 2 ^ 32 - 2 ^ 31 + y + 2 ^ 31)%Z
    with ((x + 2 ^ 31) mod 2 ^ 32 + y)%Z by lia.
  rewrite Zplus_mod_idemp_l. f_equal. lia.
Qed.

Lemma truncQ_near (a b : Q) :
  -1 <= b - a <= 1 -> exists z, unitStep z /\ Vec.truncQ b = (Vec.truncQ a + z)%Z.
Proof.
  intros [Hlo Hhi]. unfold unitStep.
  destruct (Qlt_le_dec b a) as [Hlt|Hle].
  - destruct (truncQ_step b a ltac:(lra) ltac:(lra)) as [Heq|Heq].
    + exists 0%Z. split; [tauto|lia].
    + exists (-1)%Z. split; [tauto|lia].
  - destruct (truncQ_step a b Hle ltac:(lra)) as [Heq|Heq].
    + exists 0%Z. split; [tauto|lia].
    + exists 1%Z. split; [tauto|lia].
Qed.

Lemma offsets_complete x y z :
  unitStep x -> unitStep y -> unitStep z -> mkVec3 x y z ∈ OFFSETS_3D.
Proof.
  intros [-> | [-> | ->]] [-> | [-> | ->]] [-> | [-> | ->]]; unfold OFFSETS_3D;
    repeat first [apply list_elem_of_here | apply list_elem_of_further].
Qed.

Lemma axis_near (h pk qk : Q) :
  (qk - pk) * (qk - pk) <= h * h -> -1 <= qk / h - pk / h <= 1.
Proof.
  intros Hsq. unfold Qdiv.
  assert (E : qk * / h - pk * / h == (qk - pk) * / h) by ring.
  rewrite E. clear E.
  destruct (Qeq_dec h 0) as [Hz|Hnz].
  - rewrite Hz. change (/ 0) with 0. lra.
  - pose proof (Qmult_inv_r h Hnz) as Hinv.
    set (u := / h) in *. set (t := (qk - pk) * u).
    assert (Hu : 0 <= u * u) by nra.
    assert (Hm : (qk - pk) * (qk - pk) * (u * u) <= h * h * (u * u))
      by (apply Qmult_le_compat_r; assumption).
    assert (Ht : t * t <= 1).
    { assert (E1 : t * t == (qk - pk) * (qk - pk) * (u * u)) by (unfold t; ring).
      assert (E2 : h * h * (u * u) == (h * u) * (h * u)) by ring.
      rewrite E2, Hinv in Hm. lra. }
    nra.
Qed.

(** A particle within the radius of [p] sits in one of the 27 cells around
    the cell of [p]. *)
Lemma neighbour_cell s p q :
  withinRadius s p q = true ->
  exists offset, offset ∈ OFFSETS_3D /\ getCell s q = Vec.addi (getCell s p) offset.
Proof.
  unfold withinRadius, squareDistance. intros Hw. apply Qle_bool_iff in Hw.
  set (h := smoothingRadius (_config s)) in *.
  change (h ^ 2) with (h * h) in Hw.
  unfold Vec.dot, Vec.sub in Hw; cbn [d0 d1 d2] in Hw.
  set (P := _predicted p) in *. set (T := _predicted q) in *.
  assert (N0 : 0 <= (d0 T - d0 P) * (d0 T - d0 P))
    by (destruct (Qlt_le_dec (d0 T - d0 P) 0); nra).
  assert (N1 : 0 <= (d1 T - d1 P) * (d1 T - d1 P))
    by (destruct (Qlt_le_dec (d1 T - d1 P) 0); nra).
  assert (N2 : 0 <= (d2 T - d2 P) * (d2 T - d2 P))
    by (destruct (Qlt_le_dec (d2 T - d2 P) 0); nra).
  assert (H0 : (d0 T - d0 P) * (d0 T - d0 P) <= h * h) by lra.
  assert (H1 : (d1 T - d1 P) * (d1 T - d1 P) <= h * h) by lra.
  assert (H2 : (d2 T - d2 P) * (d2 T - d2 P) <= h * h) by lra.
  destruct (truncQ_near _ _ (axis_near h _ _ H0)) as (x & Hx & Ex).
  destruct (truncQ_near _ _ (axis_near h _ _ H1)) as (y & Hy & Ey).
  destruct (truncQ_near _ _ (axis_near h _ _ H2)) as (z & Hz & Ez).
  exists (mkVec3 x y z). split; [apply offsets_complete; assumption|].
  unfold getCell, Vec.toInt, Vec.divs, Vec.addi; cbn [d0 d1 d2].
  fold h P T. rewrite !wrap32_add_l, Ex, Ey, Ez. reflexivity.
Qed.

Lemma neighbour_key_walked s p q :
  withinRadius s p q = true ->
  keyFromHash s (hash (getCell s q)) ∈ neighborKeys s p.
Proof.
  intros Hw. destruct (neighbour_cell s p q Hw) as (offset & Hin & Hcell).
  unfold neighborKeys. apply (list_elem_of_fmap_2' _ _ offset); [exact Hin|].
  rewrite Hcell. reflexivity.
Qed.

End Cells.

(** ** How often a neighbour is accepted *)

Section Occurrences.

Lemma occurrences_cons j x l :
  occurrences j (x :: l) = ((if decide (x = j) then 1 else 0) + occurrences j l)%nat.
Proof.
  unfold occurrences. rewrite filter_cons. destruct (decide (x = j)); reflexivity.
Qed.

Lemma occurrences_app j l1 l2 :
  occurrences j (l1 ++ l2) = (occurrences j l1 + occurrences j l2)%nat.
Proof. unfold occurrences. rewrite filter_app, length_app. reflexivity. Qed.

Lemma occurrences_absent j l : j ∉ l -> occurrences j l = 0%nat.
Proof.
  induction l as [|x l IH]; intros Hj; [reflexivity|].
  rewrite occurrences_cons. rewrite not_elem_of_cons in Hj. destruct Hj as [Hne Hj].
  destruct (decide (x = j)); [congruence|]. apply IH, Hj.
Qed.

Lemma occurrences_present j l : j ∈ l -> (1 <= occurrences j l)%nat.
Proof.
  induction l as [|x l IH]; intros Hj; [inversion Hj|].
  rewrite occurrences_cons. apply elem_of_cons in Hj.
  destruct (decide (x = j)) as [->|Hne]; [lia|].
  destruct Hj as [->|Hj]; [congruence|]. specialize (IH Hj). lia.
Qed.

Lemma occurrences_NoDup j l : NoDup l -> j ∈ l -> occurrences j l = 1%nat.
Proof.
  induction 1 as [|x l Hx Hnd IH]; intros Hj; [inversion Hj|].
  rewrite occurrences_cons. apply elem_of_cons in Hj.
  destruct (decide (x = j)) as [->|Hne].
  - rewrite occurrences_absent by exact Hx. reflexivity.
  - destruct Hj as [->|Hj]; [congruence|]. rewrite IH by exact Hj. reflexivity.
Qed.

Lemma occurrences_filter (P : nat -> Prop) `{forall x, Decision (P x)} j l :
  P j -> occurrences j (filter P l) = occurrences j l.
Proof.
  intros Hj. induction l as [|x l IH]; [reflexivity|].
  rewrite filter_cons, (occurrences_cons j x l).
  destruct (decide (P x)) as [Hx|Hx].
  - rewrite occurrences_cons, IH. reflexivity.
  - destruct (decide (x = j)) as [->|_]; [contradiction|]. exact IH.
Qed.

Lemma occurrences_fmap_S j l : occurrences (S j) (S <$> l) = occurrences j l.
Proof.
  induction l as [|x l IH]; [reflexivity|].
  rewrite fmap_cons, !occurrences_cons, IH.
  destruct (decide (S x = S j)), (decide (x = j)); try reflexivity; lia.
Qed.

(* Each walk either holds [j] once (the walks of key [k0]) or not at all. *)
Lemma occurrences_flat_map (f : nat -> list nat) (keys : list nat) (j k0 : nat) :
  (forall key, key ∈ keys ->
     occurrences j (f key) = if decide (key = k0) then 1%nat else 0%nat) ->
  occurrences j (flat_map f keys) = occurrences k0 keys.
Proof.
  induction keys as [|key keys IH]; intros Hf; [reflexivity|].
  simpl. rewrite occurrences_app, occurrences_cons.
  rewrite (Hf key) by left.
  rewrite IH by (intros key' Hk; apply Hf; right; exact Hk). reflexivity.
Qed.

End Occurrences.

(** C1, as the code has it.  In the states of the pressure pass, a particle
    [q] at index [j] that differs from [p], lies within the radius and is
    not the first entry of its bucket is accepted once for every cell of
    [p]'s 27-cell neighbourhood whose key is [q]'s key, and there is at
    least one such cell.  [pressureBody] adds the two force terms of [q] and
    increments [neighborCount] once per acceptance. *)
Theorem accepted_once_per_matching_cell `{Platform} (s sP : SPH) (i j : nat)
    (p q : Particle) (kq start : nat) :
  sized s -> sortOk s = true -> sameIndex (buildIndex s) sP ->
  _particles sP !! i = Some p -> _particles sP !! j = Some q -> j <> i ->
  withinRadius sP p q = true ->
  _keys sP !! j = Some kq -> _offsets sP !! kq = Some start -> (start < j)%nat ->
  occurrences j (acceptedNeighbors sP i p) = occurrences kq (neighborKeys sP p)
  /\ (1 <= occurrences kq (neighborKeys sP p))%nat.
Proof.
  intros Hsized Hsort Hsame Hp Hq Hji Hwithin Hkq Hstart Hnotfirst.
  destruct (buildIndex_indexed s Hsized Hsort) as [Hidx0 _].
  pose proof (indexed_sameIndex _ _ Hidx0 Hsame) as Hidx.
  assert (Hidx' := Hidx). destruct Hidx' as (Hk & Ho & Hasc & Hkey & Hoff).
  pose proof (lookup_lt_Some _ _ _ Hq) as Hjn.
  pose proof (indexed_key_lt sP j kq Hidx Hkq) as Hkqn.
  split.
  2:{ apply occurrences_present.
      pose proof (Hkey j q Hq) as Hkq'. rewrite Hkq in Hkq'. injection Hkq' as ->.
      apply neighbour_key_walked, Hwithin. }
  unfold acceptedNeighbors.
  rewrite occurrences_filter.
  2:{ split; [exact Hji|]. unfold particleAt. rewrite Hq. exact Hwithin. }
  unfold neighborReads. apply occurrences_flat_map.
  intros key Hkey_in.
  assert (Hkeyn : (key < length (_particles sP))%nat).
  { unfold neighborKeys in Hkey_in. apply list_elem_of_fmap in Hkey_in.
    destruct Hkey_in as (off & -> & _). apply keyFromHash_lt. lia. }
  (* the entry before [j] belongs to the bucket of [j] *)
  assert (Hprev : _keys sP !! (j - 1)%nat = Some kq).
  { destruct (Hoff kq Hkqn) as (v & Hv & Hspec).
    assert (v = start) as -> by congruence.
    destruct Hspec as [(_ & Hks & _)|(_ & Hnone)]; [|exfalso; apply (Hnone j Hjn Hkq)].
    destruct (lookup_lt_is_Some_2 (_keys sP) (j - 1)) as [km Hkm]; [lia|].
    pose proof (Hasc start (j - 1)%nat kq km ltac:(lia) Hks Hkm).
    pose proof (Hasc (j - 1)%nat j km kq ltac:(lia) Hkm Hkq).
    rewrite Hkm. f_equal. lia. }
  replace j with (S (j - 1)) at 1 by lia.
  rewrite occurrences_fmap_S.
  destruct (decide (key = kq)) as [->|Hne].
  - apply occurrences_NoDup.
    + rewrite bucketWalk_seq. apply NoDup_seq.
    + apply bucketWalk_elem; assumption.
  - apply occurrences_absent. intros Hin.
    apply bucketWalk_elem in Hin; [|assumption|assumption]. congruence.
Qed.

(** The other half of the same off-by-one: index 0 is never dereferenced by
    a pressure or viscosity walk, so the particle stored first in the
    reordered array never contributes to the pressure or viscosity force of
    any particle, whatever the state. *)
Theorem first_entry_never_walked `{Platform} (s : SPH) (id : nat) (particle : Particle) :
  occurrences 0 (neighborReads s particle) = 0%nat
  /\ occurrences 0 (acceptedNeighbors s id particle) = 0%nat.
Proof.
  assert (Hreads : 0%nat ∉ neighborReads s particle).
  { intros Hin. apply neighborReads_bounds in Hin. lia. }
  split; apply occurrences_absent; [exact Hreads|].
  unfold acceptedNeighbors. intros Hin.
  apply list_elem_of_filter in Hin. destruct Hin as [_ Hin]. exact (Hreads Hin).
Qed.

(** ** The demo sort keeps the contract of the sort *)

Section DemoSort.
Import Demo.

Lemma insertKey_perm lt a l : insertKey lt a l ≡ₚ a :: l.
Proof.
  induction l as [|b l IH]; simpl; [reflexivity|].
  destruct (lt a b); [reflexivity|].
  rewrite IH. apply Permutation_swap.
Qed.

Lemma insertionSort_perm lt l : insertionSort lt l ≡ₚ l.
Proof.
  induction l as [|a l IH]; simpl; [reflexivity|].
  rewrite insertKey_perm, IH. reflexivity.
Qed.

Lemma nondecreasing_cons_iff x l :
  nondecreasing (x :: l) = true
  <-> Forall (fun y => (x <= y)%nat) l /\ nondecreasing l = true.
Proof.
  split.
  - intros Hs. split.
    + apply Forall_lookup. intros m y Hy.
      apply (nondecreasing_spec (x :: l) Hs 0 (S m) x y); [lia|reflexivity|exact Hy].
    + destruct l as [|y l']; [reflexivity|].
      simpl in Hs. apply andb_true_iff in Hs. apply Hs.
  - intros [Hall Hs]. destruct l as [|y l']; [reflexivity|].
    change (((x <=? y)%nat && nondecreasing (y :: l')) = true).
    apply andb_true_iff. split; [|exact Hs].
    apply Nat.leb_le. inversion Hall; assumption.
Qed.

Lemma insertKey_nondecreasing keys a l :
  nondecreasing ((fun i => default 0%nat (keys !! i)) <$> l) = true ->
  nondecreasing ((fun i => default 0%nat (keys !! i)) <$> insertKey (keyLess keys) a l) = true.
Proof.
  set (key := fun i => default 0%nat (keys !! i)).
  induction l as [|b l IH]; intros Hs; [reflexivity|].
  simpl. change (keyLess keys a b) with (key a <? key b)%nat.
  destruct (key a <? key b)%nat eqn:Hab.
  - rewrite fmap_cons. apply nondecreasing_cons_iff. split; [|exact Hs].
    apply Nat.ltb_lt in Hab.
    rewrite fmap_cons in Hs. apply nondecreasing_cons_iff in Hs. destruct Hs as [Hall _].
    rewrite fmap_cons. constructor; [lia|].
    eapply Forall_impl; [exact Hall|]. simpl. intros y Hy. lia.
  - apply Nat.ltb_ge in Hab.
    rewrite fmap_cons in Hs. apply nondecreasing_cons_iff in Hs. destruct Hs as [Hall Htail].
    rewrite fmap_cons. apply nondecreasing_cons_iff. split; [|apply IH, Htail].
    rewrite (insertKey_perm (keyLess keys) a l), fmap_cons.
    constructor; [exact Hab|exact Hall].
Qed.

Lemma insertionSort_post keys n :
  sort_post keys n (insertionSort (keyLess keys) (seq 0 n)) = true.
Proof.
  unfold sort_post. rewrite !andb_true_iff.
  pose proof (insertionSort_perm (keyLess keys) (seq 0 n)) as Hperm.
  repeat split.
  - apply bool_decide_eq_true. rewrite Hperm. apply length_seq.
  - apply forallb_forall. intros i Hi. apply Nat.ltb_lt.
    apply list_elem_of_In in Hi. rewrite Hperm in Hi. apply elem_of_seq in Hi. lia.
  - apply bool_decide_eq_true. rewrite Hperm. apply NoDup_seq.
  - generalize (seq 0 n). intros l. induction l as [|a l IH]; [reflexivity|].
    simpl. apply (insertKey_nondecreasing keys a). exact IH.
Qed.

(** On the demo platform the sort keeps its contract in every state, so
    there the statements that assume [sortOk] apply to every sized
    engine. *)
Lemma demo_sortOk s : sortOk (H := platform) s = true.
Proof. unfold sortOk. apply insertionSort_post. Qed.

End DemoSort.

Section DemoRuns.
Import Demo.

Lemma pairPressure_sameIndex : sameIndex (buildIndex pairPredicted) pairPressure.
Proof.
  unfold pairPressure.
  exact (proj1 (physics_passes_sameIndex (1 # 60) pairRanges (buildIndex pairPredicted))).
Qed.

Lemma pairPredicted_sized : sized pairPredicted.
Proof.
  apply (sized_frame pairStart); [|apply init_sized].
  apply dispatch_frame. intros. apply forParticles_frame.
Qed.

End DemoRuns.

(** C1 at work: the pair of the demo in the state the index build of
    step (1/60) leaves.  Particle 1 is within the radius of particle 0 and
    is the second entry of bucket 0. *)
Lemma accepted_once_per_matching_cell_witness :
  let sP := buildIndex (H := Demo.platform) Demo.pairPredicted in
  let p := particleAt (H := Demo.platform) sP 0 in
  let q := particleAt (H := Demo.platform) sP 1 in
  sized Demo.pairPredicted
  /\ sortOk (H := Demo.platform) Demo.pairPredicted = true
  /\ sameIndex sP sP
  /\ _particles sP !! 0%nat = Some p
  /\ _particles sP !! 1%nat = Some q
  /\ withinRadius sP p q = true
  /\ _keys sP !! 1%nat = Some 0%nat
  /\ _offsets sP !! 0%nat = Some 0%nat
  /\ occurrences 1 (acceptedNeighbors (H := Demo.platform) sP 0 p)
     = occurrences 0 (neighborKeys sP p)
  /\ (1 <= occurrences 0 (neighborKeys sP p))%nat.
Proof.
  cbv zeta.
  set (sP := buildIndex (H := Demo.platform) Demo.pairPredicted).
  assert (Hsort : sortOk (H := Demo.platform) Demo.pairPredicted = true) by reflexivity.
  assert (Hp : _particles sP !! 0%nat = Some (particleAt (H := Demo.platform) sP 0))
    by reflexivity.
  assert (Hq : _particles sP !! 1%nat = Some (particleAt (H := Demo.platform) sP 1))
    by reflexivity.
  assert (Hw : withinRadius sP (particleAt (H := Demo.platform) sP 0)
                 (particleAt (H := Demo.platform) sP 1) = true) by reflexivity.
  assert (Hk : _keys sP !! 1%nat = Some 0%nat) by reflexivity.
  assert (Ho : _offsets sP !! 0%nat = Some 0%nat) by reflexivity.
  split; [exact pairPredicted_sized|]. split; [exact Hsort|].
  split; [exact (sameIndex_refl sP)|]. split; [exact Hp|]. split; [exact Hq|].
  split; [exact Hw|]. split; [exact Hk|]. split; [exact Ho|].
  exact (accepted_once_per_matching_cell (H := Demo.platform)
           Demo.pairPredicted sP 0 1 _ _ 0 0
           pairPredicted_sized Hsort (sameIndex_refl sP) Hp Hq
           ltac:(discriminate) Hw Hk Ho ltac:(lia)).
Defined.

(** C1, the claim as stated fails.  At the start of the pressure pass of
    step (1/60) on the pair, particle 1 is within the radius of particle 0
    and is accepted 13 times as its neighbour, because 13 of the 27 cells
    around particle 0 hash to key 0, the key of particle 1: its force terms
    are added 13 times and [neighborCount] is 13. *)
Lemma neighbour_accepted_thirteen_times :
  exists p q,
    _particles Demo.pairPressure !! 0%nat = Some p
    /\ _particles Demo.pairPressure !! 1%nat = Some q
    /\ withinRadius Demo.pairPressure p q = true
    /\ occurrences 1 (acceptedNeighbors (H := Demo.platform) Demo.pairPressure 0 p) = 13%nat
    /\ length (acceptedNeighbors (H := Demo.platform) Demo.pairPressure 0 p) = 13%nat.
Proof.
  set (sB := buildIndex (H := Demo.platform) Demo.pairPredicted).
  pose proof pairPressure_sameIndex as Hsame. fold sB in Hsame.
  assert (Hlen : length (_particles Demo.pairPressure) = 2%nat).
  { destruct Hsame as (_ & _ & _ & Hn & _). rewrite Hn. reflexivity. }
  destruct (lookup_lt_is_Some_2 (_particles Demo.pairPressure) 0) as [p Hp]; [lia|].
  destruct (lookup_lt_is_Some_2 (_particles Demo.pairPressure) 1) as [q Hq]; [lia|].
  exists p, q. split; [exact Hp|]. split; [exact Hq|].
  assert (Hp0 : _particles sB !! 0%nat = Some (particleAt (H := Demo.platform) sB 0))
    by reflexivity.
  assert (Hq0 : _particles sB !! 1%nat = Some (particleAt (H := Demo.platform) sB 1))
    by reflexivity.
  destruct Hsame as (Hc & Hk & Ho & Hn & Hpred).
  pose proof (Hpred 0%nat _ _ Hp0 Hp) as Hpp.
  pose proof (Hpred 1%nat _ _ Hq0 Hq) as Hqq.
  assert (Hsame : sameIndex sB Demo.pairPressure) by (repeat split; assumption).
  rewrite (withinRadius_sameIndex sB Demo.pairPressure _ p _ q Hsame Hpp Hqq).
  rewrite (acceptedNeighbors_sameIndex (H := Demo.platform) sB Demo.pairPressure
             0 _ p Hsame Hpp).
  repeat split; reflexivity.
Qed.

(** C7 at work: three particles in three cells, two of which share key 1. *)
Lemma index_build_offsets_witness :
  sized Demo.tripleStart
  /\ sortOk (H := Demo.platform) Demo.tripleStart = true
  /\ length (_keys (buildIndex (H := Demo.platform) Demo.tripleStart)) = 3%nat
  /\ length (_offsets (buildIndex (H := Demo.platform) Demo.tripleStart)) = 3%nat.
Proof.
  assert (Hsized : sized Demo.tripleStart) by apply init_sized.
  assert (Hsort : sortOk (H := Demo.platform) Demo.tripleStart = true) by reflexivity.
  split; [exact Hsized|]. split; [exact Hsort|].
  destruct (index_build_offsets (H := Demo.platform) Demo.tripleStart Hsized Hsort)
    as (Hn & Hk & Ho & _).
  rewrite Hn in Hk, Ho. split; [exact Hk|exact Ho].
Defined.

(** ** Worker ranges and in-place loops *)

Section Loops.
Context `{Platform}.

Lemma forParticles_visit body start end_ s :
  forParticles body start end_ s = fold_left (visit body) (seq start (end_ - start)) s.
Proof. reflexivity. Qed.

Lemma dispatch_visit body ranges s :
  dispatch (forParticles body) ranges s = fold_left (visit body) (visited ranges) s.
Proof.
  revert s. induction ranges as [|r ranges IH]; intros s; [reflexivity|].
  unfold visited. simpl. rewrite fold_left_app. apply IH.
Qed.

Lemma visit_particles body s i p :
  _particles s !! i = Some p ->
  _particles (visit body s i) = <[i := body s i p]> (_particles s).
Proof. intros Hp. unfold visit. rewrite Hp. reflexivity. Qed.

(** A loop over [l] that keeps [Inv] leaves a particle satisfying [Q] at
    every index of [l]. *)
Lemma fold_visit_establish (Inv : SPH -> Prop) (Q : Particle -> Prop) body l s :
  Inv s ->
  (forall s i, Inv s -> Inv (visit body s i)) ->
  (forall s i p, Inv s -> _particles s !! i = Some p -> Q (body s i p)) ->
  Inv (fold_left (visit body) l s)
  /\ forall i p', i ∈ l -> _particles (fold_left (visit body) l s) !! i = Some p' -> Q p'.
Proof.
  intros Hs Hinv Hbody. induction l as [|x l IH] using rev_ind.
  - split; [exact Hs|]. intros i p' Hi. inversion Hi.
  - rewrite fold_left_app. simpl. destruct IH as [HI IH].
    set (s1 := fold_left (visit body) l s) in *.
    split; [apply Hinv, HI|].
    intros i p' Hi Hp'.
    destruct (_particles s1 !! x) as [p|] eqn:Hx.
    + rewrite (visit_particles body s1 x p Hx) in Hp'.
      destruct (decide (i = x)) as [->|Hne].
      * rewrite list_lookup_insert_eq in Hp' by (eapply lookup_lt_Some; exact Hx).
        injection Hp' as <-. eapply Hbody; eassumption.
      * rewrite list_lookup_insert_ne in Hp' by congruence.
        apply (IH i p'); [|exact Hp'].
        apply elem_of_app in Hi. destruct Hi as [Hi|Hi]; [exact Hi|].
        apply list_elem_of_singleton in Hi. congruence.
    + assert (Hsame : visit body s1 x = s1) by (unfold visit; rewrite Hx; reflexivity).
      rewrite Hsame in Hp'.
      destruct (decide (i = x)) as [->|Hne]; [congruence|].
      apply (IH i p'); [|exact Hp'].
      apply elem_of_app in Hi. destruct Hi as [Hi|Hi]; [exact Hi|].
      apply list_elem_of_singleton in Hi. congruence.
Qed.

Lemma threadRanges_visited n chunk threadCount :
  visited (threadRanges n threadCount chunk) = seq 0 (Nat.min (threadCount * chunk) n).
Proof.
  unfold visited, threadRanges.
  induction threadCount as [|t IH]; [reflexivity|].
  rewrite seq_S, fmap_app, flat_map_app, IH. simpl.
  rewrite app_nil_r.
  destruct (le_lt_dec (t * chunk) n) as [Hle|Hgt].
  - replace (Nat.min (t * chunk) n) with (t * chunk)%nat by lia.
    replace (Nat.min (chunk + t * chunk) n)
      with (t * chunk + (Nat.min (t * chunk + chunk) n - t * chunk))%nat by lia.
    rewrite seq_app. reflexivity.
  - replace (Nat.min (t * chunk + chunk) n - t * chunk)%nat with 0%nat by lia.
    replace (Nat.min (chunk + t * chunk) n) with (Nat.min (t * chunk) n) by lia.
    simpl. apply app_nil_r.
Qed.

Lemma chunks_cover n threadCount :
  (1 <= threadCount)%nat -> (n <= threadCount * ((n + threadCount - 1) / threadCount))%nat.
Proof.
  intros Ht.
  pose proof (Nat.div_mod_eq (n + threadCount - 1) threadCount) as E.
  pose proof (Nat.mod_upper_bound (n + threadCount - 1) threadCount ltac:(lia)) as B.
  nia.
Qed.

Lemma stepRanges_visited s :
  (1 <= _threads s)%nat -> visited (stepRanges s) = seq 0 (length (_particles s)).
Proof.
  intros Ht. unfold stepRanges. rewrite threadRanges_visited.
  f_equal. pose proof (chunks_cover (length (_particles s)) (_threads s) Ht). lia.
Qed.

Lemma overrun_iff n threadCount chunk :
  existsb (fun r => (n <? fst r)%nat) (threadRanges n threadCount chunk) = true
  <-> (1 <= threadCount /\ n < (threadCount - 1) * chunk)%nat.
Proof.
  unfold threadRanges. rewrite existsb_exists. split.
  - intros (r & Hr & Hlt). apply list_elem_of_In, list_elem_of_fmap in Hr.
    destruct Hr as (t & -> & Ht). apply elem_of_seq in Ht.
    apply Nat.ltb_lt in Hlt. simpl in Hlt. split; [lia|].
    assert (t * chunk <= (threadCount - 1) * chunk)%nat by (apply Nat.mul_le_mono_r; lia).
    lia.
  - intros [Ht Hlt]. exists (threadRange n chunk (threadCount - 1)). split.
    + apply list_elem_of_In, list_elem_of_fmap. exists (threadCount - 1)%nat.
      split; [reflexivity|]. apply elem_of_seq. lia.
    + apply Nat.ltb_lt. exact Hlt.
Qed.

End Loops.

Section StepOutcome.
Context `{Platform}.

Lemma step_no_threads dt s : _threads s = 0%nat -> step dt s = Faulted DivideByZero.
Proof. intros Ht. unfold step. rewrite Ht. reflexivity. Qed.

Lemma step_overrun dt s :
  _threads s <> 0%nat ->
  existsb (fun r => (length (_particles s) <? fst r)%nat) (stepRanges s) = true ->
  step dt s = Faulted IteratorOverrun.
Proof.
  intros Ht Hover. unfold step.
  destruct (_threads s =? 0)%nat eqn:E; [apply Nat.eqb_eq in E; contradiction|].
  rewrite Hover. reflexivity.
Qed.

Lemma step_completes dt s :
  _threads s <> 0%nat ->
  existsb (fun r => (length (_particles s) <? fst r)%nat) (stepRanges s) = false ->
  exists s', step dt s = Completed s'.
Proof.
  intros Ht Hover. unfold step.
  destruct (_threads s =? 0)%nat eqn:E; [apply Nat.eqb_eq in E; contradiction|].
  rewrite Hover. eexists. reflexivity.
Qed.

(* The worker ranges of an engine whose step does not fault. *)
Lemma step_completed_ranges dt s s' :
  step dt s = Completed s' ->
  (1 <= _threads s)%nat /\ visited (stepRanges s) = seq 0 (length (_particles s)).
Proof.
  intros Hstep.
  assert (Ht : (1 <= _threads s)%nat).
  { destruct (_threads s) eqn:E; [|lia].
    rewrite (step_no_threads dt s E) in Hstep. discriminate. }
  split; [exact Ht|apply stepRanges_visited, Ht].
Qed.

End StepOutcome.

(** How a step ends is decided by the particle count N and the thread count
    T alone, with chunk = (N + T - 1) / T: it divides by zero exactly when
    T = 0, it starts a worker behind the end of the array exactly when
    T >= 1 and (T - 1) * chunk > N, and it completes in every other case. *)
Theorem step_outcome_by_counts `{Platform} (dt : Q) (s : SPH) :
  let n := length (_particles s) in
  let t := _threads s in
  let chunk := ((n + t - 1) / t)%nat in
  (step dt s = Faulted DivideByZero <-> t = 0%nat)
  /\ (step dt s = Faulted IteratorOverrun <-> (1 <= t)%nat /\ (n < (t - 1) * chunk)%nat)
  /\ ((exists s', step dt s = Completed s') <-> (1 <= t)%nat /\ ((t - 1) * chunk <= n)%nat).
Proof.
  intros n t chunk.
  pose proof (overrun_iff n t chunk) as Hover.
  change (threadRanges n t chunk) with (stepRanges s) in Hover.
  destruct (decide (t = 0%nat)) as [Ht|Ht].
  - pose proof (step_no_threads dt s Ht) as E. rewrite E.
    split; [tauto|]. split.
    + split; [discriminate|lia].
    + split; [intros [s' Hs']; discriminate|lia].
  - destruct (existsb (fun r => (n <? fst r)%nat) (stepRanges s)) eqn:Hex.
    + pose proof (step_overrun dt s Ht Hex) as E. rewrite E.
      apply proj1 in Hover. specialize (Hover eq_refl).
      split; [split; [discriminate|lia]|].
      split; [tauto|].
      split; [intros [s' Hs']; discriminate|lia].
    + destruct (step_completes dt s Ht Hex) as [s' E]. rewrite E.
      assert (Hno : ~ (1 <= t /\ n < (t - 1) * chunk)%nat).
      { intros Hc. apply Hover in Hc. discriminate. }
      split; [split; [discriminate|lia]|].
      split; [split; [discriminate|intros Hc; contradiction]|].
      split; [lia|]. intros _. exists s'. reflexivity.
Qed.

(** A step that does not fault hands every particle to exactly one worker:
    read worker after worker, the ranges are the indices 0, 1, ..., N-1, each
    once and in order. *)
Theorem workers_visit_each_particle_once `{Platform} (dt : Q) (s s' : SPH) :
  step dt s = Completed s' ->
  visited (stepRanges s) = seq 0 (length (_particles s)).
Proof. intros Hstep. apply (step_completed_ranges dt s s' Hstep). Qed.

(** The first step after [init] cannot fault when there is at least one
    particle and the particles are at least (T - 1)^2 many, T being the
    hardware thread count (at least 1). *)
Theorem step_after_init_completes `{Platform} (c : SPHConfig) (particles : list Particle)
    (s0 : SPH) (dt : Q) :
  let threads := Nat.max 1 hardware_concurrency in
  (1 <= length particles)%nat ->
  ((threads - 1) * (threads - 1) <= length particles)%nat ->
  exists s', step dt (init c particles s0) = Completed s'.
Proof.
  intros threads Hone Hmany.
  set (s := init c particles s0).
  assert (Ht : _threads s = Nat.min threads (length particles)) by apply init_threads.
  assert (Hn : length (_particles s) = length particles) by reflexivity.
  apply step_completes; [lia|].
  destruct (existsb _ _) eqn:Hex; [|reflexivity].
  apply overrun_iff in Hex. destruct Hex as [_ Hex].
  rewrite Hn, Ht in Hex.
  set (n := length particles) in *. set (t := Nat.min threads n) in *.
  pose proof (Nat.div_mod_eq (n + t - 1) t) as E.
  set (chunk := ((n + t - 1) / t)%nat) in *.
  assert (Hsq : ((t - 1) * (t - 1) <= n)%nat).
  { assert (t - 1 <= threads - 1)%nat by lia.
    assert ((t - 1) * (t - 1) <= (threads - 1) * (threads - 1))%nat
      by (apply Nat.mul_le_mono; assumption).
    lia. }
  assert (Htc : (t * chunk <= n + t - 1)%nat) by lia.
  assert (1 <= t)%nat by lia.
  exfalso. nia.
Qed.

(** ** The walls *)

Section Walls.
Context `{Platform}.
Local Open Scope Q_scope.

Lemma resolveCollisions_axes s q :
  let b := bounds (_config s) in
  _position (resolveCollisions s q)
  = mkVec3 (fst (resolveAxis s (d0 (_position q)) (d0 (_velocity q)) (d0 b)))
           (fst (resolveAxis s (d1 (_position q)) (d1 (_velocity q)) (d1 b)))
           (fst (resolveAxis s (d2 (_position q)) (d2 (_velocity q)) (d2 b)))
  /\ _velocity (resolveCollisions s q)
     = mkVec3 (snd (resolveAxis s (d0 (_position q)) (d0 (_velocity q)) (d0 b)))
              (snd (resolveAxis s (d1 (_position q)) (d1 (_velocity q)) (d1 b)))
              (snd (resolveAxis s (d2 (_position q)) (d2 (_velocity q)) (d2 b)))
  /\ _predicted (resolveCollisions s q) = _predicted q
  /\ _density (resolveCollisions s q) = _density q
  /\ _nearDensity (resolveCollisions s q) = _nearDensity q.
Proof.
  unfold resolveCollisions.
  destruct (resolveAxis s (d0 _) _ _), (resolveAxis s (d1 _) _ _), (resolveAxis s (d2 _) _ _).
  repeat split; reflexivity.
Qed.

Lemma Qabs_sign (v : Q) : Qabs (sign v) == 1.
Proof. unfold sign. destruct (Qle_bool 0 v); reflexivity. Qed.

Lemma resolveAxis_inside s position velocity halfBound :
  Qabs (fst (resolveAxis s position velocity halfBound)) <= Qabs halfBound.
Proof.
  unfold resolveAxis. destruct (Qle_bool (halfBound - Qabs position) 0) eqn:E; cbn [fst].
  - rewrite Qabs_Qmult, Qabs_sign. lra.
  - apply Qle_bool_false in E. pose proof (Qle_Qabs halfBound). lra.
Qed.

Lemma resolveCollisions_inside s q : insideBox (bounds (_config s)) (resolveCollisions s q).
Proof.
  destruct (resolveCollisions_axes s q) as (Hp & _). unfold insideBox. rewrite Hp.
  cbn [d0 d1 d2]. repeat split; apply resolveAxis_inside.
Qed.

(* The position pass leaves every visited particle inside the box. *)
Lemma updatePositions_inside dt ranges s i p' :
  i ∈ visited ranges ->
  _particles (dispatch (updatePositions dt) ranges s) !! i = Some p' ->
  insideBox (bounds (_config s)) p'.
Proof.
  unfold updatePositions. rewrite dispatch_visit.
  destruct (fold_visit_establish (fun s1 => _config s1 = _config s)
              (insideBox (bounds (_config s))) (positionBody dt) (visited ranges) s) as [_ Hall].
  - reflexivity.
  - intros s1 j Hc. unfold visit. destruct (_particles s1 !! j); exact Hc.
  - intros s1 j p Hc _. rewrite <- Hc. unfold positionBody. apply resolveCollisions_inside.
  - exact (Hall i p').
Qed.

End Walls.

Section Rendezvous.
Context `{Platform}.

Lemma step_completed_eq dt s s' :
  step dt s = Completed s' ->
  s' = dispatch (updatePositions dt) (stepRanges s) (viscosityState dt s).
Proof.
  unfold step.
  destruct (_threads s =? 0)%nat; [discriminate|].
  destruct (existsb _ _); [discriminate|].
  intros [= <-]. reflexivity.
Qed.

Lemma buildIndex_length s :
  length (_particles (buildIndex s)) = length (_reorderBuffer s).
Proof.
  unfold buildIndex, computeOffsets, reorderParticles. cbn [_particles].
  change (_reorderBuffer (buildSpatialHash s)) with (_reorderBuffer s).
  rewrite length_app, length_fmap, length_take, length_drop. lia.
Qed.

Lemma pass_length body ranges s :
  length (_particles (dispatch (forParticles body) ranges s)) = length (_particles s).
Proof.
  assert (Hf : frame s (dispatch (forParticles body) ranges s))
    by (apply dispatch_frame; intros; apply forParticles_frame).
  apply Hf.
Qed.

Lemma pass_config body ranges s :
  _config (dispatch (forParticles body) ranges s) = _config s.
Proof.
  assert (Hf : frame s (dispatch (forParticles body) ranges s))
    by (apply dispatch_frame; intros; apply forParticles_frame).
  destruct Hf as (Hc & _). unfold coefficients in Hc. congruence.
Qed.

Lemma snapshot_pass_particles ranges s :
  _particles (dispatch writeSnapshot ranges s) = _particles s
  /\ _config (dispatch writeSnapshot ranges s) = _config s.
Proof.
  unfold dispatch. apply fold_left_preserves; [split; reflexivity|].
  intros a r [Hp Hc]. unfold writeSnapshot.
  apply fold_left_preserves; [split; assumption|].
  intros b i Hb. exact Hb.
Qed.

(* Particle count and configuration at the rendezvous of a step. *)
Lemma rendezvous_shape dt s :
  sized s ->
  let n := length (_particles s) in
  (length (_particles (predictedState dt s)) = n /\ _config (predictedState dt s) = _config s)
  /\ (length (_particles (indexState dt s)) = n /\ _config (indexState dt s) = _config s)
  /\ (length (_particles (densityState dt s)) = n /\ _config (densityState dt s) = _config s)
  /\ (length (_particles (pressureState dt s)) = n /\ _config (pressureState dt s) = _config s)
  /\ (length (_particles (viscosityState dt s)) = n
      /\ _config (viscosityState dt s) = _config s).
Proof.
  intros Hsized n.
  assert (HE : length (_particles (predictedState dt s)) = n
               /\ _config (predictedState dt s) = _config s).
  { unfold predictedState, applyExternalForces. rewrite pass_length, pass_config.
    split; reflexivity. }
  assert (HB : length (_particles (indexState dt s)) = n
               /\ _config (indexState dt s) = _config s).
  { unfold indexState. rewrite buildIndex_length. split.
    - pose proof (predicted_sized dt (stepRanges s) s Hsized) as (_ & _ & _ & Hb & _).
      unfold predictedState. rewrite Hb. apply HE.
    - change (_config (buildIndex (predictedState dt s))) with (_config (predictedState dt s)).
      apply HE. }
  assert (HD : length (_particles (densityState dt s)) = n
               /\ _config (densityState dt s) = _config s).
  { unfold densityState, calculateDensities. rewrite pass_length, pass_config. exact HB. }
  assert (HP : length (_particles (pressureState dt s)) = n
               /\ _config (pressureState dt s) = _config s).
  { unfold pressureState, calculatePressureForce. rewrite pass_length, pass_config. exact HD. }
  split; [exact HE|]. split; [exact HB|]. split; [exact HD|]. split; [exact HP|].
  unfold viscosityState. destruct (_useViscosity (pressureState dt s)); [|exact HP].
  unfold calculateViscosity. rewrite pass_length, pass_config.
  destruct (snapshot_pass_particles (stepRanges s) (pressureState dt s)) as [Hp Hc].
  rewrite Hp, Hc. exact HP.
Qed.

Lemma step_completed_length dt s s' :
  sized s -> step dt s = Completed s' -> length (_particles s') = length (_particles s).
Proof.
  intros Hsized Hstep. rewrite (step_completed_eq dt s s' Hstep).
  unfold updatePositions. rewrite pass_length.
  apply (rendezvous_shape dt s Hsized).
Qed.

End Rendezvous.

(** After every step that completes on a sized engine, each particle lies
    inside the box of the configuration: |position| <= |bounds| on every
    axis, whatever the time step, the forces and the velocities were. *)
Theorem step_keeps_particles_in_box `{Platform} (dt : Q) (s s' : SPH) (p' : Particle) :
  sized s ->
  step dt s = Completed s' ->
  p' ∈ _particles s' ->
  insideBox (bounds (_config s)) p'.
Proof.
  intros Hsized Hstep Hin.
  destruct (step_completed_ranges dt s s' Hstep) as [Ht Hvis].
  apply list_elem_of_lookup in Hin. destruct Hin as [i Hi].
  rewrite (step_completed_eq dt s s' Hstep) in Hi.
  destruct (rendezvous_shape dt s Hsized) as (_ & _ & _ & _ & Hn & Hc).
  rewrite <- Hc.
  apply (updatePositions_inside dt (stepRanges s) (viscosityState dt s) i p'); [|exact Hi].
  rewrite Hvis. apply elem_of_seq.
  apply lookup_lt_Some in Hi. unfold updatePositions in Hi. rewrite pass_length in Hi. lia.
Qed.

Section WallHits.
Context `{Platform}.
Local Open Scope Q_scope.

(* One axis of the position pass, for a particle that was inside the box. *)
Lemma resolveAxis_cases s position velocity halfBound dt :
  0 < dt -> 0 <= collisionDamping (_config s) -> Qabs position <= halfBound ->
  let moved := position + velocity * dt in
  (Qabs moved < halfBound -> resolveAxis s moved velocity halfBound = (moved, velocity))
  /\ (halfBound <= Qabs moved ->
      Qabs (fst (resolveAxis s moved velocity halfBound)) == halfBound
      /\ snd (resolveAxis s moved velocity halfBound)
         = velocity * - collisionDamping (_config s)
      /\ fst (resolveAxis s moved velocity halfBound)
         * snd (resolveAxis s moved velocity halfBound) <= 0).
Proof.
  intros Hdt Hdamp Hin moved. unfold resolveAxis.
  pose proof (Qabs_nonneg position) as Hp0.
  split.
  - intros Hlt.
    destruct (Qle_bool (halfBound - Qabs moved) 0) eqn:E; [|reflexivity].
    apply Qle_bool_iff in E. lra.
  - intros Hge.
    assert (E : Qle_bool (halfBound - Qabs moved) 0 = true) by (apply Qle_bool_iff; lra).
    rewrite E. cbn [fst snd].
    split; [|split; [reflexivity|]].
    + rewrite Qabs_Qmult, Qabs_sign, (Qabs_pos halfBound) by lra. ring.
    + set (damping := collisionDamping (_config s)) in *.
      pose proof (Qle_Qabs position) as Hle.
      pose proof (Qle_Qabs (- position)) as Hle'. rewrite Qabs_opp in Hle'.
      unfold sign. destruct (Qle_bool 0 moved) eqn:Es.
      * apply Qle_bool_iff in Es. rewrite (Qabs_pos moved Es) in Hge.
        assert (Hvdt : 0 <= velocity * dt) by (unfold moved in Hge; lra).
        assert (Hv : 0 <= velocity).
        { destruct (Qlt_le_dec velocity 0) as [Hneg|Hpos]; [|exact Hpos].
          assert (velocity * dt < 0) by nra. lra. }
        assert (0 <= halfBound * velocity) by (apply Qmult_le_0_compat; lra).
        assert (0 <= halfBound * velocity * damping) by (apply Qmult_le_0_compat; lra).
        lra.
      * apply Qle_bool_false in Es.
        rewrite (Qabs_neg moved) in Hge by lra.
        assert (Hvdt : velocity * dt <= 0) by (unfold moved in Hge; lra).
        assert (Hv : velocity <= 0).
        { destruct (Qlt_le_dec 0 velocity) as [Hpos|Hneg]; [|exact Hneg].
          assert (0 < velocity * dt) by nra. lra. }
        assert (0 <= halfBound * - velocity) by (apply Qmult_le_0_compat; lra).
        assert (0 <= halfBound * - velocity * damping) by (apply Qmult_le_0_compat; lra).
        lra.
Qed.

End WallHits.

(** The bounce of the position pass, axis by axis, for a particle that was
    inside the box, a positive time step and a damping that is not negative.
    If the moved position stays strictly inside, position and velocity are
    left as moved.  Otherwise the particle is put on the wall, its velocity
    on that axis is multiplied by - damping, and that velocity never points
    out of the box: position * velocity <= 0 on that axis. *)
Theorem wall_hit_turns_inward `{Platform} (dt : Q) (s : SPH) (id : nat) (q : Particle)
    (axis : Vec3 Q -> Q) :
  axis = d0 \/ axis = d1 \/ axis = d2 ->
  (0 < dt)%Q -> (0 <= collisionDamping (_config s))%Q ->
  (Qabs (axis (_position q)) <= axis (bounds (_config s)))%Q ->
  let moved := (axis (_position q) + axis (_velocity q) * dt)%Q in
  let q' := positionBody dt s id q in
  ((Qabs moved < axis (bounds (_config s)))%Q ->
     axis (_position q') = moved /\ axis (_velocity q') = axis (_velocity q))
  /\ ((axis (bounds (_config s)) <= Qabs moved)%Q ->
      (Qabs (axis (_position q')) == axis (bounds (_config s)))%Q
      /\ axis (_velocity q') = (axis (_velocity q) * - collisionDamping (_config s))%Q
      /\ (axis (_position q') * axis (_velocity q') <= 0)%Q).
Proof.
  intros Haxis Hdt Hdamp Hin moved q'.
  destruct (resolveAxis_cases s (axis (_position q)) (axis (_velocity q))
              (axis (bounds (_config s))) dt Hdt Hdamp Hin) as [Hfree Hhit].
  fold moved in Hfree, Hhit.
  assert (Hq' : axis (_position q')
                = fst (resolveAxis s moved (axis (_velocity q)) (axis (bounds (_config s))))
                /\ axis (_velocity q')
                   = snd (resolveAxis s moved (axis (_velocity q))
                            (axis (bounds (_config s))))).
  { unfold q', positionBody.
    match goal with
    | |- context [resolveCollisions s ?r] =>
        destruct (resolveCollisions_axes s r) as (Hp & Hv & _); rewrite Hp, Hv
    end.
    unfold moved.
    destruct Haxis as [-> | [-> | ->]]; split; reflexivity. }
  destruct Hq' as [Hp Hv]. rewrite Hp, Hv. split.
  - intros Hlt. rewrite (Hfree Hlt). split; reflexivity.
  - exact Hhit.
Qed.

(** ** The reorder keeps the particles *)

Section Reorder.
Context `{Platform}.

Lemma sort_post_perm keys n sorted : sort_post keys n sorted = true -> sorted ≡ₚ seq 0 n.
Proof.
  unfold sort_post. rewrite !andb_true_iff. intros [[[Hlen Hlt] Hnd] _].
  apply bool_decide_eq_true in Hlen. apply bool_decide_eq_true in Hnd.
  apply submseteq_length_Permutation.
  - apply NoDup_submseteq; [exact Hnd|].
    intros i Hi. apply elem_of_seq.
    rewrite forallb_forall in Hlt. apply list_elem_of_In, Hlt, Nat.ltb_lt in Hi. lia.
  - rewrite length_seq. lia.
Qed.

Lemma particleAt_seq s : particleAt s <$> seq 0 (length (_particles s)) = _particles s.
Proof.
  apply list_eq. intros i. rewrite list_lookup_fmap.
  destruct (_particles s !! i) as [p|] eqn:Hp.
  - rewrite lookup_seq_lt by (eapply lookup_lt_Some; exact Hp).
    simpl. unfold particleAt. rewrite Hp. reflexivity.
  - rewrite lookup_seq_ge by (apply lookup_ge_None; exact Hp). reflexivity.
Qed.

End Reorder.

(** The index build only rearranges the particle array: when the buffers are
    sized and the sort kept its contract, the particles after hash, sort,
    reorder and offsets are a permutation of the particles before, none
    lost, none duplicated, none altered. *)
Theorem buildIndex_permutes_particles `{Platform} (s : SPH) :
  sized s -> sortOk s = true -> _particles (buildIndex s) ≡ₚ _particles s.
Proof.
  intros Hsized Hsort.
  destruct (buildIndex_fields s Hsized Hsort) as (_ & _ & Hparts & _).
  rewrite Hparts.
  unfold sortOk in Hsort. apply sort_post_perm in Hsort.
  destruct Hsized as (_ & Hs & _). rewrite Hs in Hsort.
  rewrite Hsort. rewrite particleAt_seq. reflexivity.
Qed.

(** ** Every pass computes from the state at its rendezvous *)

Section Parallel.
Context `{Platform}.

Lemma fold_left_pointwise {A B} (f g : A -> B -> A) (l : list B) (a : A) :
  (forall a b, f a b = g a b) -> fold_left f l a = fold_left g l a.
Proof.
  intros Hfg. revert a. induction l as [|b l IH]; intros a; [reflexivity|].
  simpl. rewrite Hfg. apply IH.
Qed.

Lemma visit_length body s i : length (_particles (visit body s i)) = length (_particles s).
Proof.
  unfold visit. destruct (_particles s !! i); [|reflexivity].
  cbn [with_particles _particles]. apply length_insert.
Qed.

(** A loop that visits each index at most once, with a body that reads of
    the engine only what the loop keeps, computes every visited particle
    from the state before the loop. *)
Lemma fold_visit_parallel (R : SPH -> Prop) body l s :
  NoDup l -> R s ->
  (forall s1 i, R s1 -> R (visit body s1 i)) ->
  (forall s1 i p, R s1 -> body s1 i p = body s i p) ->
  R (fold_left (visit body) l s)
  /\ length (_particles (fold_left (visit body) l s)) = length (_particles s)
  /\ forall i p, _particles s !! i = Some p ->
       _particles (fold_left (visit body) l s) !! i
       = Some (if decide (i ∈ l) then body s i p else p).
Proof.
  intros Hnd Hs Hkeep Hbody. induction l as [|x l IH] using rev_ind.
  - split; [exact Hs|]. split; [reflexivity|]. intros i p Hp.
    destruct (decide (i ∈ [])) as [Hi|_]; [inversion Hi|exact Hp].
  - apply NoDup_app in Hnd. destruct Hnd as (Hndl & Hx & _).
    destruct (IH Hndl) as (HR & Hlen & Hall). clear IH.
    rewrite fold_left_app. simpl.
    set (s1 := fold_left (visit body) l s) in *.
    split; [apply Hkeep, HR|]. split; [rewrite visit_length; exact Hlen|].
    intros i p Hp.
    assert (Hxl : x ∉ l).
    { intros Hin. apply (Hx x Hin). apply list_elem_of_here. }
    destruct (decide (i = x)) as [->|Hne].
    + pose proof (Hall x p Hp) as H1.
      destruct (decide (x ∈ l)) as [Hin|_]; [contradiction|].
      rewrite (visit_particles body s1 x p H1).
      rewrite list_lookup_insert_eq by (eapply lookup_lt_Some; exact H1).
      destruct (decide (x ∈ l ++ [x])) as [_|Hno].
      * rewrite (Hbody s1 x p HR). reflexivity.
      * exfalso. apply Hno. apply elem_of_app. right. apply list_elem_of_here.
    + assert (Hvis : _particles (visit body s1 x) !! i = _particles s1 !! i).
      { unfold visit. destruct (_particles s1 !! x); [|reflexivity].
        cbn [with_particles _particles]. apply list_lookup_insert_ne. congruence. }
      rewrite Hvis, (Hall i p Hp).
      destruct (decide (i ∈ l)) as [Hin|Hout];
        destruct (decide (i ∈ l ++ [x])) as [Hin'|Hout']; try reflexivity; exfalso.
      * apply Hout'. apply elem_of_app. left. exact Hin.
      * apply elem_of_app in Hin'. destruct Hin' as [Hin'|Hin']; [contradiction|].
        apply list_elem_of_singleton in Hin'. contradiction.
Qed.

(* The same for a pass whose workers cover the whole array. *)
Lemma pass_parallel (R : SPH -> Prop) body ranges s :
  visited ranges = seq 0 (length (_particles s)) -> R s ->
  (forall s1 i, R s1 -> R (visit body s1 i)) ->
  (forall s1 i p, R s1 -> body s1 i p = body s i p) ->
  _particles (dispatch (forParticles body) ranges s) = imap (body s) (_particles s).
Proof.
  intros Hvis Hs Hkeep Hbody. rewrite dispatch_visit, Hvis.
  destruct (fold_visit_parallel R body (seq 0 (length (_particles s))) s
              (NoDup_seq _ _) Hs Hkeep Hbody) as (_ & Hlen & Hall).
  apply list_eq. intros i. rewrite list_lookup_imap.
  destruct (_particles s !! i) as [p|] eqn:Hp.
  - rewrite (Hall i p Hp). simpl.
    destruct (decide (i ∈ seq 0 (length (_particles s)))) as [_|Hout]; [reflexivity|].
    exfalso. apply Hout. apply elem_of_seq. apply lookup_lt_Some in Hp. lia.
  - simpl. apply lookup_ge_None. rewrite Hlen. apply lookup_ge_None. exact Hp.
Qed.

Lemma sameWalk_refl s : sameWalk s s.
Proof. split; [apply sameIndex_refl|split; reflexivity]. Qed.

Lemma sameFluid_refl s : sameFluid s s.
Proof.
  split; [apply sameWalk_refl|]. intros i p p' Hp Hp'.
  assert (p' = p) by congruence. subst. split; reflexivity.
Qed.

(* One write of a body that keeps the predicted position. *)
Lemma visit_sameIndex body s i :
  (forall s i p, _predicted (body s i p) = _predicted p) -> sameIndex s (visit body s i).
Proof.
  intros Hbody. unfold visit. destruct (_particles s !! i) as [p|] eqn:Hp;
    [|apply sameIndex_refl].
  unfold sameIndex; cbn [with_particles _config _keys _offsets _particles].
  rewrite length_insert. repeat split.
  intros j q q' Hq Hq'.
  destruct (decide (i = j)) as [->|Hne].
  - rewrite list_lookup_insert_eq in Hq' by (eapply lookup_lt_Some, Hp).
    injection Hq' as <-. rewrite Hbody. congruence.
  - rewrite list_lookup_insert_ne in Hq' by exact Hne. congruence.
Qed.

Lemma visit_fields body s i :
  coefficients (visit body s i) = coefficients s
  /\ _velocitySnapshot (visit body s i) = _velocitySnapshot s.
Proof. unfold visit. destruct (_particles s !! i); split; reflexivity. Qed.

Lemma visit_sameWalk body s0 s i :
  (forall s i p, _predicted (body s i p) = _predicted p) ->
  sameWalk s0 s -> sameWalk s0 (visit body s i).
Proof.
  intros Hbody (Hi & Hc & Hv). destruct (visit_fields body s i) as [Hc' Hv'].
  split; [|split; congruence].
  eapply sameIndex_trans; [exact Hi|apply visit_sameIndex, Hbody].
Qed.

Lemma visit_sameFluid body s0 s i :
  (forall s i p, _predicted (body s i p) = _predicted p) ->
  (forall s i p, _density (body s i p) = _density p
                 /\ _nearDensity (body s i p) = _nearDensity p) ->
  sameFluid s0 s -> sameFluid s0 (visit body s i).
Proof.
  intros Hbody Hdens [Hw Hd].
  split; [apply visit_sameWalk; assumption|].
  intros j q q' Hq Hq'. unfold visit in Hq'.
  destruct (_particles s !! i) as [p|] eqn:Hp; [|exact (Hd j q q' Hq Hq')].
  cbn [with_particles _particles] in Hq'.
  destruct (decide (i = j)) as [->|Hne].
  - rewrite list_lookup_insert_eq in Hq' by (eapply lookup_lt_Some, Hp).
    injection Hq' as <-. destruct (Hdens s j p) as [-> ->]. exact (Hd j q p Hq Hp).
  - rewrite list_lookup_insert_ne in Hq' by exact Hne. exact (Hd j q q' Hq Hq').
Qed.

Lemma particleAt_sameFluid s s' j :
  sameFluid s s' ->
  _density (particleAt s' j) = _density (particleAt s j)
  /\ _nearDensity (particleAt s' j) = _nearDensity (particleAt s j).
Proof.
  intros [((_ & _ & _ & Hn & _) & _) Hd]. unfold particleAt.
  destruct (_particles s !! j) as [q|] eqn:Hq.
  - destruct (lookup_lt_is_Some_2 (_particles s') j) as [q' Hq'].
    { rewrite Hn. eapply lookup_lt_Some, Hq. }
    rewrite Hq'. simpl. eapply Hd; eassumption.
  - rewrite (lookup_ge_None_2 (_particles s') j); [split; reflexivity|].
    rewrite Hn. apply lookup_ge_None, Hq.
Qed.

Lemma densityReads_sameIndex s s' p :
  sameIndex s s' -> densityReads s' p = densityReads s p.
Proof.
  intros Hsame. unfold densityReads.
  rewrite (neighborKeys_sameIndex s s' p p Hsame eq_refl).
  apply flat_map_ext. intros key. apply bucketWalk_sameIndex, Hsame.
Qed.

Lemma densityHits_sameIndex s s' p :
  sameIndex s s' -> densityHits s' p = densityHits s p.
Proof.
  intros Hsame. unfold densityHits. rewrite (densityReads_sameIndex s s' p Hsame).
  apply list_filter_iff. intros j.
  rewrite (withinRadius_sameIndex s s' p p (particleAt s j) (particleAt s' j) Hsame eq_refl
             (particleAt_sameIndex s s' j Hsame)).
  reflexivity.
Qed.

Lemma squareDistance_predicted p q q' :
  _predicted q' = _predicted q -> squareDistance p q' = squareDistance p q.
Proof. intros Hq. unfold squareDistance. rewrite Hq. reflexivity. Qed.

Lemma densityBody_hits s id p :
  densityBody s id p
  = {| _position := _position p; _predicted := _predicted p; _velocity := _velocity p;
       _density :=
         fold_left (fun density j =>
                      density + densityKernel s (sqrtf (squareDistance p (particleAt s j))))%Q
                   (densityHits s p) 0%Q;
       _nearDensity :=
         fold_left (fun nearDensity j =>
                      nearDensity
                      + nearDensityKernel s (sqrtf (squareDistance p (particleAt s j))))%Q
                   (densityHits s p) 0%Q |}.
Proof. reflexivity. Qed.

Lemma densityBody_ext s s' id p : sameWalk s s' -> densityBody s' id p = densityBody s id p.
Proof.
  intros (Hsame & Hc & _). rewrite !densityBody_hits.
  rewrite (densityHits_sameIndex s s' p Hsame).
  injection Hc as Hcfg HK2 HK3 _ _.
  f_equal; apply fold_left_pointwise; intros a j;
    rewrite (squareDistance_predicted p _ _ (particleAt_sameIndex s s' j Hsame));
    unfold densityKernel, nearDensityKernel; rewrite Hcfg, ?HK2, ?HK3; reflexivity.
Qed.

Lemma pressureTerm_ext s s' p q q' :
  coefficients s' = coefficients s ->
  _predicted q' = _predicted q -> _density q' = _density q ->
  _nearDensity q' = _nearDensity q ->
  pressureTerm s' p q' = pressureTerm s p q.
Proof.
  intros Hc Hp Hd Hn. injection Hc as Hcfg _ _ HG2 HG3.
  unfold pressureTerm, pressureFromDensity, nearPressureFromDensity, densityDerivative,
    nearDensityDerivative.
  rewrite (squareDistance_predicted p q q' Hp), Hcfg, HG2, HG3, Hp, Hd, Hn. reflexivity.
Qed.

Lemma pressureBody_ext dt s s' id p :
  sameFluid s s' -> pressureBody dt s' id p = pressureBody dt s id p.
Proof.
  intros Hfluid. pose proof Hfluid as [(Hsame & Hc & _) _]. unfold pressureBody.
  rewrite (acceptedNeighbors_sameIndex s s' id p p Hsame eq_refl).
  rewrite (fold_left_pointwise
             (fun force j => Vec.add force (pressureTerm s' p (particleAt s' j)))
             (fun force j => Vec.add force (pressureTerm s p (particleAt s j)))).
  - reflexivity.
  - intros a j. f_equal.
    destruct (particleAt_sameFluid s s' j Hfluid) as [Hd Hn].
    apply pressureTerm_ext; [exact Hc|apply particleAt_sameIndex, Hsame|exact Hd|exact Hn].
Qed.

Lemma viscosityBody_ext dt s s' id p :
  sameWalk s s' -> viscosityBody dt s' id p = viscosityBody dt s id p.
Proof.
  intros (Hsame & Hc & Hv). injection Hc as Hcfg _ _ _ _. unfold viscosityBody.
  rewrite (acceptedNeighbors_sameIndex s s' id p p Hsame eq_refl).
  unfold snapshotAt. rewrite Hv, Hcfg.
  rewrite (fold_left_pointwise
             (fun force neighborIndex =>
                Vec.add force
                  (Vec.scale
                     (Vec.sub (default strayVelocity (_velocitySnapshot s !! neighborIndex))
                              (default strayVelocity (_velocitySnapshot s !! id)))
                     (poly6Kernel s'
                        (sqrtf (squareDistance p (particleAt s' neighborIndex))))))
             (fun force neighborIndex =>
                Vec.add force
                  (Vec.scale
                     (Vec.sub (default strayVelocity (_velocitySnapshot s !! neighborIndex))
                              (default strayVelocity (_velocitySnapshot s !! id)))
                     (poly6Kernel s
                        (sqrtf (squareDistance p (particleAt s neighborIndex))))))).
  - reflexivity.
  - intros a j.
    rewrite (squareDistance_predicted p _ _ (particleAt_sameIndex s s' j Hsame)).
    unfold poly6Kernel. rewrite Hcfg. reflexivity.
Qed.

End Parallel.

Section ParallelStep.
Context `{Platform}.

Lemma visit_config body s i : _config (visit body s i) = _config s.
Proof. unfold visit. destruct (_particles s !! i); reflexivity. Qed.

Lemma externalForcesBody_ext dt s s' id p :
  _config s' = _config s -> externalForcesBody dt s' id p = externalForcesBody dt s id p.
Proof. intros Hc. unfold externalForcesBody. rewrite Hc. reflexivity. Qed.

Lemma positionBody_ext dt s s' id p :
  _config s' = _config s -> positionBody dt s' id p = positionBody dt s id p.
Proof.
  intros Hc. unfold positionBody, resolveCollisions, resolveAxis. rewrite Hc. reflexivity.
Qed.

(* The passes that read the engine's configuration only. *)
Lemma config_pass_parallel body ranges s :
  visited ranges = seq 0 (length (_particles s)) ->
  (forall s s' i p, _config s' = _config s -> body s' i p = body s i p) ->
  _particles (dispatch (forParticles body) ranges s) = imap (body s) (_particles s).
Proof.
  intros Hvis Hbody.
  apply (pass_parallel (fun s1 => _config s1 = _config s)); [exact Hvis|reflexivity| |].
  - intros s1 i Hc. rewrite visit_config. exact Hc.
  - intros s1 i p Hc. apply Hbody, Hc.
Qed.

Lemma density_pass_parallel ranges s :
  visited ranges = seq 0 (length (_particles s)) ->
  _particles (dispatch calculateDensities ranges s) = imap (densityBody s) (_particles s).
Proof.
  intros Hvis. unfold calculateDensities.
  apply (pass_parallel (sameWalk s)); [exact Hvis|apply sameWalk_refl| |].
  - intros s1 i Hw. apply visit_sameWalk; [reflexivity|exact Hw].
  - intros s1 i p Hw. apply densityBody_ext, Hw.
Qed.

Lemma pressure_pass_parallel dt ranges s :
  visited ranges = seq 0 (length (_particles s)) ->
  _particles (dispatch (calculatePressureForce dt) ranges s)
  = imap (pressureBody dt s) (_particles s).
Proof.
  intros Hvis. unfold calculatePressureForce.
  apply (pass_parallel (sameFluid s)); [exact Hvis|apply sameFluid_refl| |].
  - intros s1 i Hf. apply visit_sameFluid; [reflexivity|split; reflexivity|exact Hf].
  - intros s1 i p Hf. apply pressureBody_ext, Hf.
Qed.

Lemma viscosity_pass_parallel dt ranges s :
  visited ranges = seq 0 (length (_particles s)) ->
  _particles (dispatch (calculateViscosity dt) ranges s)
  = imap (viscosityBody dt s) (_particles s).
Proof.
  intros Hvis. unfold calculateViscosity.
  apply (pass_parallel (sameWalk s)); [exact Hvis|apply sameWalk_refl| |].
  - intros s1 i Hw. apply visit_sameWalk; [reflexivity|exact Hw].
  - intros s1 i p Hw. apply viscosityBody_ext, Hw.
Qed.

End ParallelStep.

(* The passes of a completed step, as maps over the particle array. *)
Lemma rendezvous_parallel `{Platform} (dt : Q) (s s' : SPH) :
  sized s -> step dt s = Completed s' ->
  _particles (predictedState dt s) = imap (externalForcesBody dt s) (_particles s)
  /\ _particles (densityState dt s)
     = imap (densityBody (indexState dt s)) (_particles (indexState dt s))
  /\ _particles (pressureState dt s)
     = imap (pressureBody dt (densityState dt s)) (_particles (densityState dt s))
  /\ (_useViscosity (pressureState dt s) = true ->
      _particles (viscosityState dt s)
      = imap (viscosityBody dt (dispatch writeSnapshot (stepRanges s) (pressureState dt s)))
             (_particles (pressureState dt s)))
  /\ _particles s'
     = imap (positionBody dt (viscosityState dt s)) (_particles (viscosityState dt s)).
Proof.
  intros Hsized Hstep.
  destruct (step_completed_ranges dt s s' Hstep) as [_ Hvis].
  destruct (rendezvous_shape dt s Hsized)
    as (_ & (HnB & _) & (HnD & _) & (HnP & _) & (HnV & _)).
  split.
  { apply config_pass_parallel; [exact Hvis|apply externalForcesBody_ext]. }
  split.
  { apply density_pass_parallel. rewrite HnB. exact Hvis. }
  split.
  { apply pressure_pass_parallel. rewrite HnD. exact Hvis. }
  split.
  { intros Hv. unfold viscosityState. rewrite Hv.
    destruct (snapshot_pass_particles (stepRanges s) (pressureState dt s)) as [Hp _].
    rewrite <- Hp. apply viscosity_pass_parallel. rewrite Hp, HnP. exact Hvis. }
  rewrite (step_completed_eq dt s s' Hstep).
  apply config_pass_parallel; [rewrite HnV; exact Hvis|apply positionBody_ext].
Qed.

(** In a step that completes on a sized engine, every pass computes each
    particle from the state at the rendezvous before the pass, not from what
    the pass has already written: the particle array after a pass is the
    body of the pass mapped over the array before it.  The result of a pass
    therefore does not depend on the order in which the workers run. *)
Theorem passes_compute_from_rendezvous `{Platform} (dt : Q) (s s' : SPH) :
  sized s -> step dt s = Completed s' ->
  _particles (predictedState dt s) = imap (externalForcesBody dt s) (_particles s)
  /\ _particles (densityState dt s)
     = imap (densityBody (indexState dt s)) (_particles (indexState dt s))
  /\ _particles (pressureState dt s)
     = imap (pressureBody dt (densityState dt s)) (_particles (densityState dt s))
  /\ (_useViscosity (pressureState dt s) = true ->
      _particles (viscosityState dt s)
      = imap (viscosityBody dt (dispatch writeSnapshot (stepRanges s) (pressureState dt s)))
             (_particles (pressureState dt s)))
  /\ _particles s'
     = imap (positionBody dt (viscosityState dt s)) (_particles (viscosityState dt s)).
Proof. exact (rendezvous_parallel dt s s'). Qed.

(** ** The density pass *)

Section DensityPass.
Context `{Platform}.
Local Open Scope Q_scope.

Lemma Qsquare_nonneg (x : Q) : 0 <= x * x.
Proof.
  destruct (Qlt_le_dec x 0) as [Hneg|Hpos].
  - assert (E : x * x == (- x) * (- x)) by ring. rewrite E.
    apply Qmult_le_0_compat; lra.
  - apply Qmult_le_0_compat; exact Hpos.
Qed.

(* In an indexed state a bucket walk holds each index of its bucket once. *)
Lemma bucketWalk_occurrences s key j kq :
  indexed s -> (key < length (_particles s))%nat -> _keys s !! j = Some kq ->
  occurrences j (bucketWalk s key) = if decide (key = kq) then 1%nat else 0%nat.
Proof.
  intros Hidx Hkey Hkq.
  destruct (decide (key = kq)) as [->|Hne].
  - apply occurrences_NoDup.
    + rewrite bucketWalk_seq. apply NoDup_seq.
    + apply bucketWalk_elem; assumption.
  - apply occurrences_absent. intros Hin.
    apply bucketWalk_elem in Hin; [|assumption|assumption]. congruence.
Qed.

Lemma neighborKeys_lt s p key :
  (0 < length (_particles s))%nat -> key ∈ neighborKeys s p ->
  (key < length (_particles s))%nat.
Proof.
  intros Hn Hin. unfold neighborKeys in Hin. apply list_elem_of_fmap in Hin.
  destruct Hin as (off & -> & _). apply keyFromHash_lt, Hn.
Qed.

Lemma densityHits_occurrences s p j q kq :
  indexed s -> _particles s !! j = Some q -> withinRadius s p q = true ->
  _keys s !! j = Some kq ->
  occurrences j (densityHits s p) = occurrences kq (neighborKeys s p)
  /\ (1 <= occurrences kq (neighborKeys s p))%nat.
Proof.
  intros Hidx Hq Hwithin Hkq.
  assert (Hidx' := Hidx). destruct Hidx' as (_ & _ & _ & Hkey & _).
  pose proof (lookup_lt_Some _ _ _ Hq) as Hjn.
  split.
  2:{ apply occurrences_present.
      pose proof (Hkey j q Hq) as Hkq'. rewrite Hkq in Hkq'. injection Hkq' as ->.
      apply neighbour_key_walked, Hwithin. }
  unfold densityHits. rewrite occurrences_filter.
  2:{ unfold particleAt. rewrite Hq. exact Hwithin. }
  unfold densityReads. apply occurrences_flat_map.
  intros key Hin. apply bucketWalk_occurrences; [exact Hidx| |exact Hkq].
  apply (neighborKeys_lt s p key); [lia|exact Hin].
Qed.

Lemma withinRadius_self s p : withinRadius s p p = true.
Proof.
  unfold withinRadius. apply Qle_bool_iff.
  assert (E : squareDistance p p == 0).
  { unfold squareDistance, Vec.dot, Vec.sub. cbn [d0 d1 d2]. ring. }
  rewrite E. set (h := smoothingRadius (_config s)).
  assert (Hsq : h ^ 2 == h * h) by (simpl; ring).
  rewrite Hsq. apply Qsquare_nonneg.
Qed.

(* Every particle of an indexed state is among its own density hits. *)
Lemma densityHits_self s i p :
  indexed s -> _particles s !! i = Some p -> i ∈ densityHits s p.
Proof.
  intros Hidx Hp.
  assert (Hidx' := Hidx). destruct Hidx' as (_ & _ & _ & Hkey & _).
  destruct (densityHits_occurrences s p i p _ Hidx Hp (withinRadius_self s p) (Hkey i p Hp))
    as [Hocc Hone].
  destruct (decide (i ∈ densityHits s p)) as [Hin|Hout]; [exact Hin|].
  apply occurrences_absent in Hout. lia.
Qed.

Lemma fold_sum_lower (f : nat -> Q) (l : list nat) (a : Q) :
  (forall j, 0 <= f j) ->
  a <= fold_left (fun acc j => acc + f j) l a
  /\ forall x, x ∈ l -> a + f x <= fold_left (fun acc j => acc + f j) l a.
Proof.
  intros Hf. revert a. induction l as [|b l IH]; intros a.
  - simpl. split; [lra|]. intros x Hx. inversion Hx.
  - simpl. destruct (IH (a + f b)) as [Hle Hall]. pose proof (Hf b) as Hb.
    split; [lra|]. intros x Hx. apply elem_of_cons in Hx. destruct Hx as [->|Hx].
    + exact Hle.
    + pose proof (Hall x Hx). lra.
Qed.

Lemma densityKernel_nonneg s d : 0 <= K_SpikyPow2 s -> 0 <= densityKernel s d.
Proof.
  intros HK. unfold densityKernel. destruct (Qltb d _); [|lra].
  apply Qmult_le_0_compat; [apply Qsquare_nonneg|exact HK].
Qed.

Lemma nearDensityKernel_nonneg s d : 0 <= K_SpikyPow3 s -> 0 <= nearDensityKernel s d.
Proof.
  intros HK. unfold nearDensityKernel. destruct (Qltb d _) eqn:E; [|lra].
  apply Qltb_true in E.
  apply Qmult_le_0_compat; [|exact HK].
  apply Qmult_le_0_compat; [apply Qsquare_nonneg|lra].
Qed.

Lemma kernels_at_zero s d :
  0 < smoothingRadius (_config s) -> 0 < K_SpikyPow2 s -> 0 < K_SpikyPow3 s -> d == 0 ->
  0 < densityKernel s d /\ 0 < nearDensityKernel s d.
Proof.
  intros Hh HK2 HK3 Hd. unfold densityKernel, nearDensityKernel.
  rewrite (Qltb_intro d _) by lra.
  set (h := smoothingRadius (_config s)) in *.
  assert (Hv : 0 < h - d) by lra.
  assert (Hvv : 0 < (h - d) * (h - d)) by (apply Qmult_lt_0_compat; exact Hv).
  split.
  - apply Qmult_lt_0_compat; assumption.
  - apply Qmult_lt_0_compat; [|exact HK3]. apply Qmult_lt_0_compat; assumption.
Qed.

(* The density a particle of an indexed state gets is positive. *)
Lemma densityBody_positive s i p :
  indexed s -> _particles s !! i = Some p ->
  0 < smoothingRadius (_config s) -> 0 < K_SpikyPow2 s -> 0 < K_SpikyPow3 s ->
  (forall x, x == 0 -> sqrtf x == 0) ->
  0 < _density (densityBody s i p) /\ 0 < _nearDensity (densityBody s i p).
Proof.
  intros Hidx Hp Hh HK2 HK3 Hsqrt. rewrite densityBody_hits. cbn [_density _nearDensity].
  pose proof (densityHits_self s i p Hidx Hp) as Hself.
  assert (Hd : sqrtf (squareDistance p (particleAt s i)) == 0).
  { apply Hsqrt. unfold particleAt. rewrite Hp. simpl.
    unfold squareDistance, Vec.dot, Vec.sub. cbn [d0 d1 d2]. ring. }
  destruct (kernels_at_zero s _ Hh HK2 HK3 Hd) as [H2 H3].
  split.
  - destruct (fold_sum_lower
                (fun j => densityKernel s (sqrtf (squareDistance p (particleAt s j))))
                (densityHits s p) 0) as [_ Hall].
    { intros j. apply densityKernel_nonneg. lra. }
    pose proof (Hall i Hself) as Hle. cbv beta in Hle. lra.
  - destruct (fold_sum_lower
                (fun j => nearDensityKernel s (sqrtf (squareDistance p (particleAt s j))))
                (densityHits s p) 0) as [_ Hall].
    { intros j. apply nearDensityKernel_nonneg. lra. }
    pose proof (Hall i Hself) as Hle. cbv beta in Hle. lra.
Qed.

End DensityPass.

(** The density walk stays inside the particle array: every index it
    dereferences is below the particle count and holds a particle.  (The
    pressure and viscosity walks increment first and can reach N.) *)
Theorem density_walk_in_range `{Platform} (s : SPH) (particle : Particle) (j : nat) :
  j ∈ densityReads s particle ->
  (j < length (_particles s))%nat /\ exists q, _particles s !! j = Some q.
Proof.
  intros Hin. apply densityReads_bounds in Hin. split; [exact Hin|].
  apply lookup_lt_is_Some_2, Hin.
Qed.

(** In the states that carry the index of a step, the density loop of a
    particle [p] accumulates a particle [q] within the radius once for every
    cell of [p]'s 27-cell neighbourhood whose key is [q]'s key, and there is
    at least one such cell: no neighbour within the radius is missed, the
    first entry of a bucket and [p] itself included. *)
Theorem density_counts_every_neighbour `{Platform} (s0 s : SPH) (j : nat)
    (p q : Particle) (kq : nat) :
  sized s0 -> sortOk s0 = true -> sameIndex (buildIndex s0) s ->
  _particles s !! j = Some q -> withinRadius s p q = true -> _keys s !! j = Some kq ->
  occurrences j (densityHits s p) = occurrences kq (neighborKeys s p)
  /\ (1 <= occurrences kq (neighborKeys s p))%nat.
Proof.
  intros Hsized Hsort Hsame Hq Hwithin Hkq.
  destruct (buildIndex_indexed s0 Hsized Hsort) as [Hidx0 _].
  pose proof (indexed_sameIndex _ _ Hidx0 Hsame) as Hidx.
  exact (densityHits_occurrences s p j q kq Hidx Hq Hwithin Hkq).
Qed.

Section DensityStep.
Context `{Platform}.
Local Open Scope Q_scope.

Lemma elem_of_imap_body {A B} (f : nat -> A -> B) (l : list A) (y : B) :
  y ∈ imap f l -> exists i x, l !! i = Some x /\ y = f i x.
Proof.
  intros Hin. apply list_elem_of_lookup in Hin. destruct Hin as [i Hi].
  rewrite list_lookup_imap in Hi.
  destruct (l !! i) as [x|] eqn:Hx; [|discriminate].
  injection Hi as <-. exists i, x. split; [exact Hx|reflexivity].
Qed.

Lemma positionBody_densities dt s i p :
  _density (positionBody dt s i p) = _density p
  /\ _nearDensity (positionBody dt s i p) = _nearDensity p.
Proof.
  unfold positionBody.
  match goal with
  | |- context [resolveCollisions s ?r] =>
      destruct (resolveCollisions_axes s r) as (_ & _ & _ & Hd & Hn); rewrite Hd, Hn
  end.
  split; reflexivity.
Qed.

End DensityStep.

(** Densities are positive after the density pass of a step and stay so to
    its end, when the radius and the two density coefficients are positive
    and the square root of zero is zero: every particle counts itself, at
    distance zero.  So the division by the neighbour's density in the
    pressure pass never divides by zero for a neighbour inside the array. *)
Theorem step_leaves_positive_densities `{Platform} (dt : Q) (s s' : SPH) :
  sized s -> sortOk (predictedState dt s) = true -> step dt s = Completed s' ->
  (0 < smoothingRadius (_config s))%Q -> (0 < K_SpikyPow2 s)%Q -> (0 < K_SpikyPow3 s)%Q ->
  (forall x, (x == 0)%Q -> (sqrtf x == 0)%Q) ->
  (forall p, p ∈ _particles (densityState dt s) ->
     (0 < _density p)%Q /\ (0 < _nearDensity p)%Q)
  /\ (forall p', p' ∈ _particles s' -> (0 < _density p')%Q /\ (0 < _nearDensity p')%Q).
Proof.
  intros Hsized Hsort Hstep Hh HK2 HK3 Hsqrt.
  destruct (rendezvous_parallel dt s s' Hsized Hstep) as (_ & HD & HP & HV & HS).
  pose proof (predicted_sized dt (stepRanges s) s Hsized) as HsizedE.
  destruct (buildIndex_indexed (predictedState dt s) HsizedE Hsort) as [Hidx _].
  fold (indexState dt s) in Hidx.
  assert (Hco : coefficients (indexState dt s) = coefficients s).
  { unfold indexState. rewrite buildIndex_coefficients. unfold predictedState.
    apply dispatch_coefficients. intros. apply forParticles_coefficients. }
  assert (Hcfg : _config (indexState dt s) = _config s) by exact (f_equal fst Hco).
  assert (H2 : K_SpikyPow2 (indexState dt s) = K_SpikyPow2 s)
    by exact (f_equal (fun c => fst (fst (fst (snd c)))) Hco).
  assert (H3 : K_SpikyPow3 (indexState dt s) = K_SpikyPow3 s)
    by exact (f_equal (fun c => snd (fst (fst (snd c)))) Hco).
  assert (Hdens : forall p, p ∈ _particles (densityState dt s) ->
            (0 < _density p)%Q /\ (0 < _nearDensity p)%Q).
  { intros p Hp. rewrite HD in Hp. apply elem_of_imap_body in Hp.
    destruct Hp as (i & p0 & Hp0 & ->).
    apply densityBody_positive; [exact Hidx|exact Hp0| | | |exact Hsqrt].
    - rewrite Hcfg. exact Hh.
    - rewrite H2. exact HK2.
    - rewrite H3. exact HK3. }
  split; [exact Hdens|].
  assert (Hpres : forall p, p ∈ _particles (pressureState dt s) ->
            (0 < _density p)%Q /\ (0 < _nearDensity p)%Q).
  { intros p Hp. rewrite HP in Hp. apply elem_of_imap_body in Hp.
    destruct Hp as (i & p0 & Hp0 & ->).
    apply (Hdens p0). eapply list_elem_of_lookup_2. exact Hp0. }
  assert (Hvisc : forall p, p ∈ _particles (viscosityState dt s) ->
            (0 < _density p)%Q /\ (0 < _nearDensity p)%Q).
  { destruct (_useViscosity (pressureState dt s)) eqn:Hv.
    - intros p Hp. rewrite (HV eq_refl) in Hp. apply elem_of_imap_body in Hp.
      destruct Hp as (i & p0 & Hp0 & ->).
      apply (Hpres p0). eapply list_elem_of_lookup_2. exact Hp0.
    - unfold viscosityState. rewrite Hv. exact Hpres. }
  intros p' Hp'. rewrite HS in Hp'. apply elem_of_imap_body in Hp'.
  destruct Hp' as (i & p0 & Hp0 & ->).
  destruct (positionBody_densities dt (viscosityState dt s) i p0) as [-> ->].
  apply (Hvisc p0). eapply list_elem_of_lookup_2. exact Hp0.
Qed.

(** ** The velocity snapshot *)

Section Snapshot.
Context `{Platform}.

(* One write of the snapshot loop. *)
Lemma snapshot_write_fields s i :
  let s1 := with_snapshot (<[i := _velocity (particleAt s i)]> (_velocitySnapshot s)) s in
  _particles s1 = _particles s /\ _useViscosity s1 = _useViscosity s
  /\ length (_velocitySnapshot s1) = length (_velocitySnapshot s).
Proof. cbn. rewrite length_insert. repeat split. Qed.

Lemma fold_snapshot l s :
  let s' :=
    fold_left
      (fun s i => with_snapshot (<[i := _velocity (particleAt s i)]> (_velocitySnapshot s)) s)
      l s in
  _particles s' = _particles s /\ _useViscosity s' = _useViscosity s
  /\ length (_velocitySnapshot s') = length (_velocitySnapshot s)
  /\ forall i, _velocitySnapshot s' !! i
       = if decide (i ∈ l /\ (i < length (_velocitySnapshot s))%nat)
         then Some (_velocity (particleAt s i))
         else _velocitySnapshot s !! i.
Proof.
  induction l as [|x l IH] using rev_ind.
  - cbn [fold_left]. split; [reflexivity|]. split; [reflexivity|]. split; [reflexivity|].
    intros i. destruct (decide (i ∈ [] /\ _)) as [[Hin _]|_]; [inversion Hin|reflexivity].
  - rewrite fold_left_app. cbn [fold_left]. destruct IH as (Hp & Hu & Hlen & Hall).
    set (s1 := fold_left _ l s) in *.
    cbn [with_snapshot _particles _useViscosity _velocitySnapshot].
    rewrite length_insert.
    split; [exact Hp|]. split; [exact Hu|]. split; [exact Hlen|].
    intros i.
    assert (Hat : particleAt s1 x = particleAt s x) by (unfold particleAt; rewrite Hp; reflexivity).
    destruct (decide (i = x)) as [->|Hne].
    + destruct (decide (x < length (_velocitySnapshot s))%nat) as [Hlt|Hge].
      * rewrite list_lookup_insert_eq by lia. rewrite Hat.
        destruct (decide _) as [_|Hno]; [reflexivity|].
        exfalso. apply Hno. split; [|exact Hlt]. apply elem_of_app. right.
        apply list_elem_of_here.
      * rewrite list_insert_ge by lia. rewrite Hall.
        destruct (decide (x ∈ l /\ _)) as [[_ Hlt]|_]; [lia|].
        destruct (decide (x ∈ l ++ [x] /\ _)) as [[_ Hlt]|_]; [lia|reflexivity].
    + rewrite list_lookup_insert_ne by congruence. rewrite Hall.
      destruct (decide (i ∈ l /\ _)) as [[Hin Hlt]|Hout];
        destruct (decide (i ∈ l ++ [x] /\ _)) as [[Hin' Hlt']|Hout']; try reflexivity; exfalso.
      * apply Hout'. split; [|exact Hlt]. apply elem_of_app. left. exact Hin.
      * apply Hout. split; [|exact Hlt']. apply elem_of_app in Hin'.
        destruct Hin' as [Hin'|Hin']; [exact Hin'|].
        apply list_elem_of_singleton in Hin'. contradiction.
Qed.

Lemma dispatch_snapshot ranges s :
  dispatch writeSnapshot ranges s
  = fold_left
      (fun s i => with_snapshot (<[i := _velocity (particleAt s i)]> (_velocitySnapshot s)) s)
      (visited ranges) s.
Proof.
  revert s. induction ranges as [|r ranges IH]; intros s; [reflexivity|].
  unfold visited. simpl. rewrite fold_left_app. apply IH.
Qed.

(* The snapshot pass of workers that cover the array copies every velocity. *)
Lemma snapshot_pass ranges s :
  visited ranges = seq 0 (length (_particles s)) ->
  length (_velocitySnapshot s) = length (_particles s) ->
  _velocitySnapshot (dispatch writeSnapshot ranges s) = _velocity <$> _particles s
  /\ _useViscosity (dispatch writeSnapshot ranges s) = _useViscosity s.
Proof.
  intros Hvis Hlen. rewrite dispatch_snapshot, Hvis.
  destruct (fold_snapshot (seq 0 (length (_particles s))) s) as (_ & Hu & Hl & Hall).
  split; [|exact Hu].
  apply list_eq. intros i. rewrite Hall, list_lookup_fmap.
  destruct (decide _) as [[Hin Hlt]|Hout].
  - unfold particleAt.
    destruct (lookup_lt_is_Some_2 (_particles s) i) as [p Hp]; [lia|].
    rewrite Hp. reflexivity.
  - assert (Hge : (length (_particles s) <= i)%nat).
    { destruct (le_lt_dec (length (_particles s)) i) as [Hle|Hlt]; [exact Hle|].
      exfalso. apply Hout. split; [apply elem_of_seq; lia|lia]. }
    rewrite (lookup_ge_None_2 (_particles s) i) by exact Hge.
    apply lookup_ge_None. lia.
Qed.

Lemma pass_snapshot body ranges s :
  _velocitySnapshot (dispatch (forParticles body) ranges s) = _velocitySnapshot s
  /\ _useViscosity (dispatch (forParticles body) ranges s) = _useViscosity s.
Proof.
  assert (Hf : frame s (dispatch (forParticles body) ranges s))
    by (apply dispatch_frame; intros; apply forParticles_frame).
  destruct Hf as (_ & _ & _ & _ & _ & _ & Hv & Hu & _). split; assumption.
Qed.

End Snapshot.

(** What a completed step does with viscosity.  With viscosityStrength
    exactly 0 the step skips the snapshot and the viscosity pass: the
    snapshot buffer is left as it was and the particles go from the pressure
    pass straight to the position update.  With any other strength the
    snapshot holds, for every particle, the velocity the pressure pass left,
    and the viscosity pass runs on it. *)
Theorem step_viscosity_switch `{Platform} (dt : Q) (s s' : SPH) :
  sized s -> step dt s = Completed s' ->
  (Qeq_bool (viscosityStrength (_config s)) 0 = true ->
     _useViscosity s' = false
     /\ _velocitySnapshot s' = _velocitySnapshot s
     /\ viscosityState dt s = pressureState dt s)
  /\ (Qeq_bool (viscosityStrength (_config s)) 0 = false ->
     _useViscosity s' = true
     /\ _velocitySnapshot s' = _velocity <$> _particles (pressureState dt s)
     /\ _particles (viscosityState dt s)
        = imap (viscosityBody dt (dispatch writeSnapshot (stepRanges s) (pressureState dt s)))
               (_particles (pressureState dt s))).
Proof.
  intros Hsized Hstep.
  destruct (rendezvous_parallel dt s s' Hsized Hstep) as (_ & _ & _ & HV & _).
  destruct (step_completed_ranges dt s s' Hstep) as [_ Hvis].
  destruct (rendezvous_shape dt s Hsized) as ((_ & HcE) & _ & _ & (HnP & _) & _).
  rewrite (step_completed_eq dt s s' Hstep).
  unfold updatePositions.
  destruct (pass_snapshot (positionBody dt) (stepRanges s) (viscosityState dt s)) as [-> ->].
  assert (HuB : _useViscosity (indexState dt s)
                = negb (Qeq_bool (viscosityStrength (_config s)) 0)).
  { rewrite <- HcE. reflexivity. }
  assert (HvB : _velocitySnapshot (indexState dt s) = _velocitySnapshot s).
  { change (_velocitySnapshot (indexState dt s))
      with (_velocitySnapshot (predictedState dt s)).
    unfold predictedState, applyExternalForces. apply pass_snapshot. }
  assert (HP : _velocitySnapshot (pressureState dt s) = _velocitySnapshot s
               /\ _useViscosity (pressureState dt s)
                  = negb (Qeq_bool (viscosityStrength (_config s)) 0)).
  { unfold pressureState, calculatePressureForce.
    destruct (pass_snapshot (pressureBody dt) (stepRanges s) (densityState dt s)) as [-> ->].
    unfold densityState, calculateDensities.
    destruct (pass_snapshot densityBody (stepRanges s) (indexState dt s)) as [-> ->].
    split; assumption. }
  destruct HP as [HvP HuP].
  split; intros Hz; rewrite Hz in HuP; simpl in HuP.
  - unfold viscosityState. rewrite HuP. repeat split; assumption.
  - pose proof (HV HuP) as Hmap.
    unfold viscosityState in *. rewrite HuP in *.
    unfold calculateViscosity.
    destruct (pass_snapshot (viscosityBody dt) (stepRanges s)
                (dispatch writeSnapshot (stepRanges s) (pressureState dt s))) as [-> ->].
    destruct (snapshot_pass (stepRanges s) (pressureState dt s)) as [Hsnap Hu].
    + rewrite HnP. exact Hvis.
    + rewrite HvP, HnP. apply Hsized.
    + rewrite Hsnap, Hu. repeat split; assumption.
Qed.

(** ** More of the seeder *)

(** With a margin between 0 and half the box size, [spawnParticlesInBox]
    returns one particle per draw, [count] at most, and keeps every particle
    the margin away from the six faces.  When the floor minHeightRatio *
    halfBox fits under the top of that region no particle lies below it;
    when it does not, every particle lies exactly on the top. *)
Theorem spawnParticlesInBox_margin_and_floor (count : nat)
    (boxSize margin minHeightRatio : Q) (draws : list (Q * Q * Q)) :
  (0 <= margin)%Q -> (margin <= boxSize * 0.5)%Q -> Forall unitDraw draws ->
  let reach := (boxSize * 0.5 - margin)%Q in
  let floor := (minHeightRatio * (boxSize * 0.5))%Q in
  length (spawnParticlesInBox count boxSize margin minHeightRatio draws)
  = Nat.min count (length draws)
  /\ Forall (fun p =>
               (Qabs (d0 (_position p)) <= reach)%Q
               /\ (Qabs (d1 (_position p)) <= reach)%Q
               /\ (Qabs (d2 (_position p)) <= reach)%Q
               /\ ((floor <= reach)%Q -> (floor <= d1 (_position p))%Q)
               /\ ((reach < floor)%Q -> (d1 (_position p) == reach)%Q))
            (spawnParticlesInBox count boxSize margin minHeightRatio draws).
Proof.
  intros Hm0 Hm1 Hdraws reach floor. unfold spawnParticlesInBox.
  split; [rewrite length_fmap, length_take; reflexivity|].
  set (halfBox := (boxSize * 0.5)%Q) in *.
  assert (Hcm : clamp margin 0 halfBox = margin).
  { unfold clamp. rewrite (Qltb_elim margin 0 Hm0), (Qltb_elim halfBox margin Hm1).
    reflexivity. }
  rewrite Hcm. fold reach.
  set (minY0 := Qmax (- halfBox + margin)%Q (minHeightRatio * halfBox)%Q).
  set (minY := if Qltb reach minY0 then reach else minY0).
  assert (Hreach : (- halfBox + margin == - reach)%Q) by (unfold reach; ring).
  assert (Hr0 : (0 <= reach)%Q) by (unfold reach; lra).
  assert (Hmin0 : (- reach <= minY0)%Q /\ (floor <= minY0)%Q
                  /\ ((minY0 == - reach)%Q \/ (minY0 == floor)%Q)).
  { unfold minY0, Qmax. fold floor.
    destruct (Qle_bool floor (- halfBox + margin)) eqn:E.
    - apply Qle_bool_iff in E. repeat split; lra.
    - apply Qle_bool_false in E. repeat split; lra. }
  destruct Hmin0 as (Hlow0 & Hfl0 & Hcase).
  assert (HminY : (- reach <= minY)%Q /\ (minY <= reach)%Q
                  /\ ((floor <= reach)%Q -> (floor <= minY)%Q)
                  /\ ((reach < floor)%Q -> (minY == reach)%Q)).
  { unfold minY. destruct (Qltb reach minY0) eqn:E.
    - apply Qltb_true in E. repeat split; intros; lra.
    - apply Qltb_false in E. repeat split; intros; lra. }
  destruct HminY as (Hlow & Hhigh & Hfit & Htop).
  apply Forall_forall. intros p Hin.
  apply list_elem_of_fmap in Hin. destruct Hin as [[[ux uy] uz] [-> Hin]].
  assert (Hu : unitDraw (ux, uy, uz)).
  { rewrite Forall_forall in Hdraws. apply Hdraws.
    apply elem_of_take in Hin. destruct Hin as (i & Hi & _).
    eapply list_elem_of_lookup_2, Hi. }
  destruct Hu as (Hx & Hy & Hz); simpl in Hx, Hy, Hz.
  pose proof (uniform_bounds (- halfBox + margin) reach ux ltac:(lra) Hx) as Bx.
  pose proof (uniform_bounds minY reach uy ltac:(lra) Hy) as By.
  pose proof (uniform_bounds (- halfBox + margin) reach uz ltac:(lra) Hz) as Bz.
  unfold Particle_new; cbn [_position d0 d1 d2].
  split; [apply Qabs_Qle_condition; lra|].
  split; [apply Qabs_Qle_condition; lra|].
  split; [apply Qabs_Qle_condition; lra|].
  split.
  - intros Hf. specialize (Hfit Hf). lra.
  - intros Hf. specialize (Htop Hf). lra.
Qed.

(** ** Cells *)

Section OriginCell.
Context `{Platform}.
Local Open Scope Q_scope.

Lemma truncQ_small (x : Q) : -1 < x -> x < 1 -> Vec.truncQ x = 0%Z.
Proof.
  intros Hlo Hhi. destruct (Qlt_le_dec x 0) as [Hneg|Hpos].
  - destruct (truncQ_nonpos x ltac:(lra)) as (Hz & Hle & Hgt).
    assert (Hlt : inject_Z (-1) < inject_Z (Vec.truncQ x)).
    { change (inject_Z (-1)) with (-1). lra. }
    rewrite <- Zlt_Qlt in Hlt. lia.
  - destruct (truncQ_nonneg x Hpos) as (Hz & Hle & Hgt).
    assert (Hlt : inject_Z (Vec.truncQ x) < inject_Z 1).
    { change (inject_Z 1) with 1. lra. }
    rewrite <- Zlt_Qlt in Hlt. lia.
Qed.

Lemma quotient_small (x h : Q) : 0 < h -> - h < x -> x < h -> -1 < x / h /\ x / h < 1.
Proof.
  intros Hh Hlo Hhi. split.
  - apply Qlt_shift_div_l; [exact Hh|lra].
  - apply Qlt_shift_div_r; [exact Hh|lra].
Qed.

End OriginCell.

(** [getCell] truncates toward zero, it does not floor: with a positive
    radius h, every particle whose predicted position lies strictly between
    -h and h on each axis is in cell (0, 0, 0).  The cells along an axis are
    h wide except the one at the origin, which is 2h wide. *)
Theorem getCell_origin_is_double_width `{Platform} (s : SPH) (p : Particle) :
  let h := smoothingRadius (_config s) in
  (0 < h)%Q ->
  (- h < d0 (_predicted p))%Q -> (d0 (_predicted p) < h)%Q ->
  (- h < d1 (_predicted p))%Q -> (d1 (_predicted p) < h)%Q ->
  (- h < d2 (_predicted p))%Q -> (d2 (_predicted p) < h)%Q ->
  getCell s p = mkVec3 0%Z 0%Z 0%Z.
Proof.
  intros h Hh H0l H0h H1l H1h H2l H2h.
  unfold getCell, Vec.toInt, Vec.divs. cbn [d0 d1 d2]. fold h.
  destruct (quotient_small _ h Hh H0l H0h) as [A0 B0].
  destruct (quotient_small _ h Hh H1l H1h) as [A1 B1].
  destruct (quotient_small _ h Hh H2l H2h) as [A2 B2].
  rewrite (truncQ_small _ A0 B0), (truncQ_small _ A1 B1), (truncQ_small _ A2 B2).
  reflexivity.
Qed.

(** ** A particle on its own *)

Section LoneParticle.
Context `{Platform}.
Local Open Scope Q_scope.

(* The hit test and the side of the wall depend on the position up to ==. *)
Lemma resolveAxis_Qeq s position position' velocity velocity' halfBound :
  position == position' -> velocity == velocity' ->
  fst (resolveAxis s position velocity halfBound)
  == fst (resolveAxis s position' velocity' halfBound)
  /\ snd (resolveAxis s position velocity halfBound)
     == snd (resolveAxis s position' velocity' halfBound).
Proof.
  intros Hp Hv. unfold resolveAxis.
  assert (Habs : Qabs position == Qabs position') by (rewrite Hp; reflexivity).
  assert (Hhit : Qle_bool (halfBound - Qabs position) 0
                 = Qle_bool (halfBound - Qabs position') 0).
  { destruct (Qle_bool (halfBound - Qabs position) 0) eqn:E1;
      destruct (Qle_bool (halfBound - Qabs position') 0) eqn:E2; try reflexivity; exfalso.
    - apply Qle_bool_iff in E1. apply Qle_bool_false in E2. lra.
    - apply Qle_bool_iff in E2. apply Qle_bool_false in E1. lra. }
  assert (Hsign : sign position = sign position').
  { unfold sign.
    destruct (Qle_bool 0 position) eqn:E1; destruct (Qle_bool 0 position') eqn:E2;
      try reflexivity; exfalso.
    - apply Qle_bool_iff in E1. apply Qle_bool_false in E2. lra.
    - apply Qle_bool_iff in E2. apply Qle_bool_false in E1. lra. }
  rewrite Hhit, Hsign. destruct (Qle_bool (halfBound - Qabs position') 0); cbn [fst snd].
  - split; [reflexivity|]. rewrite Hv. reflexivity.
  - split; assumption.
Qed.

(** One step of an engine that holds a single particle, with viscosity off
    and with the entry behind the array outside the radius: the velocity
    the position pass starts from. *)
Lemma lone_particle_motion dt s p :
  _particles s = [p] -> _threads s = 1%nat -> sized s ->
  sortOk (applyExternalForces dt 0 1 s) = true ->
  Qeq_bool (viscosityStrength (_config s)) 0 = true ->
  withinRadius s (externalForcesBody dt s 0 p) strayParticle = false ->
  exists s' dragged,
    step dt s = Completed s'
    /\ _config s' = _config s
    /\ _particles s' = [positionBody dt s' 0 dragged]
    /\ _position dragged = _position p
    /\ d0 (_velocity dragged) == d0 (draggedVelocity dt s p)
    /\ d1 (_velocity dragged) == d1 (draggedVelocity dt s p)
    /\ d2 (_velocity dragged) == d2 (draggedVelocity dt s p).
Proof.
  intros Hp0 Hthreads Hsized Hsort Hvisc Hstray.
  rewrite (step_one_thread dt s Hthreads). rewrite Hp0. simpl length. cbv zeta.
  unfold draggedVelocity.
  set (p1 := externalForcesBody dt s 0 p) in *.
  assert (HA : applyExternalForces dt 0 1 s = with_particles [p1] s)
    by (apply forParticles_single; exact Hp0).
  rewrite HA in *.
  set (sA := with_particles [p1] s) in *.
  assert (HsizedA : sized sA).
  { apply (sized_frame s); [|exact Hsized].
    apply frame_with_particles. rewrite Hp0. reflexivity. }
  destruct (buildIndex_single sA p1 eq_refl HsizedA Hsort) as (HpB & HcB & HvB).
  set (sB := buildIndex sA) in *.
  unfold calculateDensities, calculatePressureForce, updatePositions.
  rewrite (forParticles_single densityBody sB p1 HpB).
  set (p2 := densityBody sB 0 p1).
  set (sC := with_particles [p2] sB).
  rewrite (forParticles_single (pressureBody dt) sC p2 eq_refl).
  assert (Hacc : acceptedNeighbors sC 0 p2 = []).
  { apply acceptedNeighbors_alone; [reflexivity|].
    rewrite <- Hstray. apply withinRadius_ext; [exact HcB|reflexivity]. }
  destruct (pressureBody_alone dt sC 0 p2 Hacc) as (Hpos3 & Hv0 & Hv1 & Hv2).
  set (p3 := pressureBody dt sC 0 p2) in *.
  set (sD := with_particles [p3] sC).
  assert (HvD : _useViscosity sD = false).
  { change (_useViscosity sD) with (_useViscosity sB). rewrite HvB.
    change (_config sA) with (_config s). rewrite Hvisc. reflexivity. }
  rewrite HvD.
  rewrite (forParticles_single (positionBody dt) sD p3 eq_refl).
  exists (with_particles [positionBody dt sD 0 p3] sD), p3.
  split; [reflexivity|]. split; [exact HcB|]. split; [reflexivity|].
  split; [exact Hpos3|].
  change (_velocity p2) with (_velocity p1) in Hv0, Hv1, Hv2.
  cbn [Vec.sub Vec.scale d0 d1 d2].
  split; [rewrite Hv0; ring|]. split; [rewrite Hv1; ring|rewrite Hv2; ring].
Qed.

End LoneParticle.

(** The law of motion of a particle on its own (one particle, one worker,
    viscosity off, the entry behind the array outside the radius).  Whatever
    the pressure multipliers and the target density are, the particle feels
    no pressure: one step adds gravity to the velocity, applies the airborne
    drag (factor 1 - 0.75 dt), moves the particle with that velocity and
    bounces it off the walls.  On every axis the new position and velocity
    are, up to ==, what the bounce makes of position + v dt and v, v being
    the dragged velocity. *)
Theorem lone_particle_law `{Platform} (dt : Q) (s : SPH) (p : Particle) :
  _particles s = [p] -> _threads s = 1%nat -> sized s ->
  sortOk (applyExternalForces dt 0 1 s) = true ->
  Qeq_bool (viscosityStrength (_config s)) 0 = true ->
  withinRadius s (externalForcesBody dt s 0 p) strayParticle = false ->
  exists s' p',
    step dt s = Completed s'
    /\ _particles s' = [p']
    /\ (d1 (draggedVelocity dt s p)
        == (d1 (_velocity p) + gravity (_config s) * dt) * (1 - 0.75 * dt))%Q
    /\ forall axis : Vec3 Q -> Q, axis = d0 \/ axis = d1 \/ axis = d2 ->
         let v := axis (draggedVelocity dt s p) in
         let moved := (axis (_position p) + v * dt)%Q in
         let halfBound := axis (bounds (_config s)) in
         (axis (_position p') == fst (resolveAxis s moved v halfBound))%Q
         /\ (axis (_velocity p') == snd (resolveAxis s moved v halfBound))%Q.
Proof.
  intros Hp0 Hthreads Hsized Hsort Hvisc Hstray.
  destruct (lone_particle_motion dt s p Hp0 Hthreads Hsized Hsort Hvisc Hstray)
    as (s' & dragged & Hstep & Hcfg & Hparts & Hpos & Hv0 & Hv1 & Hv2).
  exists s', (positionBody dt s' 0 dragged).
  split; [exact Hstep|]. split; [exact Hparts|].
  split.
  { unfold draggedVelocity, externalForcesBody.
    cbn [_velocity Vec.sub Vec.scale d0 d1 d2]. ring. }
  intros axis Haxis v moved halfBound.
  assert (Hq : axis (_position (positionBody dt s' 0 dragged))
               = fst (resolveAxis s (axis (_position p) + axis (_velocity dragged) * dt)
                        (axis (_velocity dragged)) halfBound)
               /\ axis (_velocity (positionBody dt s' 0 dragged))
                  = snd (resolveAxis s (axis (_position p) + axis (_velocity dragged) * dt)
                           (axis (_velocity dragged)) halfBound)).
  { unfold positionBody.
    match goal with
    | |- context [resolveCollisions s' ?r] =>
        destruct (resolveCollisions_axes s' r) as (Hp & Hv & _); rewrite Hp, Hv
    end.
    unfold resolveAxis. rewrite Hcfg. cbn [_position _velocity]. rewrite Hpos.
    unfold halfBound.
    destruct Haxis as [-> | [-> | ->]]; split; reflexivity. }
  destruct Hq as [-> ->].
  assert (Hv : (axis (_velocity dragged) == v)%Q).
  { unfold v. destruct Haxis as [-> | [-> | ->]]; assumption. }
  apply resolveAxis_Qeq; [|exact Hv].
  unfold moved. rewrite Hv. reflexivity.
Qed.

(** A completed step leaves the configuration and the four kernel
    coefficients as they were: only [init] and [setConfig] write them. *)
Theorem step_leaves_configuration `{Platform} (dt : Q) (s s' : SPH) :
  step dt s = Completed s' ->
  _config s' = _config s
  /\ K_SpikyPow2 s' = K_SpikyPow2 s /\ K_SpikyPow3 s' = K_SpikyPow3 s
  /\ K_SpikyPow2Grad s' = K_SpikyPow2Grad s /\ K_SpikyPow3Grad s' = K_SpikyPow3Grad s.
Proof.
  intros Hstep. pose proof (step_coefficients dt s s' Hstep) as Hc.
  unfold coefficients in Hc. injection Hc as -> -> -> -> ->. repeat split.
Qed.

(** ** The statements at work on the demo platform *)

Section DemoSteps.
Import Demo.

Lemma Qsqrt_zero (x : Q) : (x == 0)%Q -> (Qsqrt x == 0)%Q.
Proof.
  unfold Qeq. simpl. intros Hx.
  assert (Hn : Qnum x = 0%Z) by lia.
  rewrite Hn. reflexivity.
Qed.

(* The first step of the pair completes. *)
Lemma pairStart_completes : exists s', step (H := platform) (1 # 60) pairStart = Completed s'.
Proof. apply step_completes; [discriminate|reflexivity]. Qed.

Lemma pairStart_sized : sized pairStart.
Proof. apply init_sized. Qed.

End DemoSteps.

(** The two workers of the pair visit index 0 and index 1. *)
Lemma workers_visit_each_particle_once_witness :
  exists s',
    step (H := Demo.platform) (1 # 60) Demo.pairStart = Completed s'
    /\ visited (stepRanges Demo.pairStart) = [0; 1]%nat.
Proof.
  destruct pairStart_completes as [s' Hs'].
  exists s'. split; [exact Hs'|].
  exact (workers_visit_each_particle_once (H := Demo.platform) (1 # 60) Demo.pairStart s' Hs').
Defined.

(** Four hardware threads and ten particles: 3 * 3 <= 10. *)
Lemma step_after_init_completes_witness :
  (1 <= length (Demo.five ++ Demo.five))%nat
  /\ ((Nat.max 1 (hardware_concurrency (Platform := Demo.quad)) - 1)
      * (Nat.max 1 (hardware_concurrency (Platform := Demo.quad)) - 1)
      <= length (Demo.five ++ Demo.five))%nat
  /\ exists s',
       step (H := Demo.quad) (1 # 60)
         (init (H := Demo.quad) SPHConfig_default (Demo.five ++ Demo.five) SPH_instance)
       = Completed s'.
Proof.
  assert (H1 : (1 <= length (Demo.five ++ Demo.five))%nat) by (simpl; lia).
  assert (H2 : ((Nat.max 1 (hardware_concurrency (Platform := Demo.quad)) - 1)
                * (Nat.max 1 (hardware_concurrency (Platform := Demo.quad)) - 1)
                <= length (Demo.five ++ Demo.five))%nat) by (simpl; lia).
  split; [exact H1|]. split; [exact H2|].
  exact (step_after_init_completes (H := Demo.quad) SPHConfig_default
           (Demo.five ++ Demo.five) SPH_instance (1 # 60) H1 H2).
Defined.

(** The pair after its first step lies inside the unit box. *)
Lemma step_keeps_particles_in_box_witness :
  exists s' p',
    sized Demo.pairStart
    /\ step (H := Demo.platform) (1 # 60) Demo.pairStart = Completed s'
    /\ p' ∈ _particles s'
    /\ insideBox (bounds (_config Demo.pairStart)) p'.
Proof.
  destruct pairStart_completes as [s' Hs'].
  pose proof (step_completed_length (H := Demo.platform) (1 # 60) Demo.pairStart s'
                pairStart_sized Hs') as Hlen.
  destruct (lookup_lt_is_Some_2 (_particles s') 0) as [p' Hp'].
  { rewrite Hlen. simpl. lia. }
  assert (Hin : p' ∈ _particles s') by (eapply list_elem_of_lookup_2; exact Hp').
  exists s', p'. split; [exact pairStart_sized|]. split; [exact Hs'|]. split; [exact Hin|].
  exact (step_keeps_particles_in_box (H := Demo.platform) (1 # 60) Demo.pairStart s' p'
           pairStart_sized Hs' Hin).
Defined.

(** The floor bounce of the demo particle, on the vertical axis: it starts
    on the floor, moving down, and is turned back. *)
Lemma wall_hit_turns_inward_witness :
  let s := bounceStart (H := Demo.platform) in
  let q := Demo.bounceParticle in
  let q' := positionBody (1 # 60) s 0 q in
  (Qabs (d1 (_position q)) <= d1 (bounds (_config s)))%Q
  /\ (d1 (bounds (_config s)) <= Qabs (d1 (_position q) + d1 (_velocity q) * (1 # 60)))%Q
  /\ (Qabs (d1 (_position q')) == d1 (bounds (_config s)))%Q
  /\ (d1 (_position q') * d1 (_velocity q') <= 0)%Q.
Proof.
  cbv zeta.
  set (s := bounceStart (H := Demo.platform)).
  assert (Hdt : (0 < 1 # 60)%Q) by reflexivity.
  assert (Hdamp : (0 <= collisionDamping (_config s))%Q) by (vm_compute; discriminate).
  assert (Hin : (Qabs (d1 (_position Demo.bounceParticle)) <= d1 (bounds (_config s)))%Q)
    by (vm_compute; discriminate).
  assert (Hhit : (d1 (bounds (_config s))
                  <= Qabs (d1 (_position Demo.bounceParticle)
                           + d1 (_velocity Demo.bounceParticle) * (1 # 60)))%Q)
    by (vm_compute; discriminate).
  destruct (wall_hit_turns_inward (H := Demo.platform) (1 # 60) s 0 Demo.bounceParticle d1
              (or_intror (or_introl eq_refl)) Hdt Hdamp Hin) as [_ Hturn].
  destruct (Hturn Hhit) as (Hpos & _ & Hinward).
  split; [exact Hin|]. split; [exact Hhit|]. split; [exact Hpos|exact Hinward].
Defined.

(** The index build of the three-particle demo keeps its three particles. *)
Lemma buildIndex_permutes_particles_witness :
  sized Demo.tripleStart
  /\ sortOk (H := Demo.platform) Demo.tripleStart = true
  /\ _particles (buildIndex (H := Demo.platform) Demo.tripleStart)
     ≡ₚ _particles Demo.tripleStart.
Proof.
  assert (Hsized : sized Demo.tripleStart) by apply init_sized.
  assert (Hsort : sortOk (H := Demo.platform) Demo.tripleStart = true) by apply demo_sortOk.
  split; [exact Hsized|]. split; [exact Hsort|].
  exact (buildIndex_permutes_particles (H := Demo.platform) Demo.tripleStart Hsized Hsort).
Defined.

(** The first step of the pair: its prediction pass as a map. *)
Lemma passes_compute_from_rendezvous_witness :
  exists s',
    sized Demo.pairStart
    /\ step (H := Demo.platform) (1 # 60) Demo.pairStart = Completed s'
    /\ _particles (predictedState (1 # 60) Demo.pairStart)
       = imap (externalForcesBody (1 # 60) Demo.pairStart) (_particles Demo.pairStart).
Proof.
  destruct pairStart_completes as [s' Hs'].
  exists s'. split; [exact pairStart_sized|]. split; [exact Hs'|].
  exact (proj1 (passes_compute_from_rendezvous (H := Demo.platform) (1 # 60)
                  Demo.pairStart s' pairStart_sized Hs')).
Defined.

(** Particle 0 of the indexed pair reads itself in its density walk. *)
Lemma density_walk_in_range_witness :
  let s := buildIndex (H := Demo.platform) Demo.pairPredicted in
  let p := particleAt (H := Demo.platform) s 0 in
  0%nat ∈ densityReads s p
  /\ (0 < length (_particles s))%nat.
Proof.
  cbv zeta.
  set (s := buildIndex (H := Demo.platform) Demo.pairPredicted).
  destruct (buildIndex_indexed (H := Demo.platform) Demo.pairPredicted pairPredicted_sized
              (demo_sortOk _)) as [Hidx _].
  fold s in Hidx.
  assert (Hp : _particles s !! 0%nat = Some (particleAt (H := Demo.platform) s 0))
    by reflexivity.
  pose proof (densityHits_self (H := Demo.platform) s 0 _ Hidx Hp) as Hself.
  unfold densityHits in Hself. apply list_elem_of_filter in Hself.
  destruct Hself as [_ Hin].
  split; [exact Hin|].
  exact (proj1 (density_walk_in_range (H := Demo.platform) s _ 0 Hin)).
Defined.

(** The pair of the demo in the state its index build leaves: particle 1 is
    within the radius of particle 0 and is accumulated by its density loop
    once for each of the cells that hash to key 0. *)
Lemma density_counts_every_neighbour_witness :
  let s := buildIndex (H := Demo.platform) Demo.pairPredicted in
  let p := particleAt (H := Demo.platform) s 0 in
  let q := particleAt (H := Demo.platform) s 1 in
  _particles s !! 1%nat = Some q
  /\ withinRadius s p q = true
  /\ _keys s !! 1%nat = Some 0%nat
  /\ occurrences 1 (densityHits (H := Demo.platform) s p) = occurrences 0 (neighborKeys s p)
  /\ (1 <= occurrences 0 (neighborKeys s p))%nat.
Proof.
  cbv zeta.
  set (s := buildIndex (H := Demo.platform) Demo.pairPredicted).
  assert (Hq : _particles s !! 1%nat = Some (particleAt (H := Demo.platform) s 1))
    by reflexivity.
  assert (Hw : withinRadius s (particleAt (H := Demo.platform) s 0)
                 (particleAt (H := Demo.platform) s 1) = true) by reflexivity.
  assert (Hk : _keys s !! 1%nat = Some 0%nat) by reflexivity.
  split; [exact Hq|]. split; [exact Hw|]. split; [exact Hk|].
  exact (density_counts_every_neighbour (H := Demo.platform) Demo.pairPredicted s 1
           _ _ 0 pairPredicted_sized (demo_sortOk _) (sameIndex_refl s) Hq Hw Hk).
Defined.

(** The pair after its density pass and after its first step. *)
Lemma step_leaves_positive_densities_witness :
  exists s',
    step (H := Demo.platform) (1 # 60) Demo.pairStart = Completed s'
    /\ (0 < smoothingRadius (_config Demo.pairStart))%Q
    /\ (0 < K_SpikyPow2 Demo.pairStart)%Q
    /\ (0 < K_SpikyPow3 Demo.pairStart)%Q
    /\ (forall p', p' ∈ _particles s' -> (0 < _density p')%Q /\ (0 < _nearDensity p')%Q).
Proof.
  destruct pairStart_completes as [s' Hs'].
  assert (Hh : (0 < smoothingRadius (_config Demo.pairStart))%Q) by reflexivity.
  destruct (init_coefficients_pos (H := Demo.platform) Demo.bounceConfig
              [Demo.pairA; Demo.pairB] SPH_instance Hh) as (HK2 & HK3 & _).
  exists s'. split; [exact Hs'|]. split; [exact Hh|]. split; [exact HK2|].
  split; [exact HK3|].
  exact (proj2 (step_leaves_positive_densities (H := Demo.platform) (1 # 60)
                  Demo.pairStart s' pairStart_sized (demo_sortOk _) Hs' Hh HK2 HK3
                  Qsqrt_zero)).
Defined.

(** The pair runs with viscosity strength 0: its first step leaves the
    snapshot alone. *)
Lemma step_viscosity_switch_witness :
  exists s',
    step (H := Demo.platform) (1 # 60) Demo.pairStart = Completed s'
    /\ Qeq_bool (viscosityStrength (_config Demo.pairStart)) 0 = true
    /\ _useViscosity s' = false
    /\ _velocitySnapshot s' = _velocitySnapshot Demo.pairStart.
Proof.
  destruct pairStart_completes as [s' Hs'].
  assert (Hz : Qeq_bool (viscosityStrength (_config Demo.pairStart)) 0 = true)
    by reflexivity.
  destruct (step_viscosity_switch (H := Demo.platform) (1 # 60) Demo.pairStart s'
              pairStart_sized Hs') as [Hoff _].
  destruct (Hoff Hz) as (Hu & Hv & _).
  exists s'. split; [exact Hs'|]. split; [exact Hz|]. split; [exact Hu|exact Hv].
Defined.

(** The box, margin and floor of the renderer, spawnParticlesInBox(_, 2, 0.05, 0.5),
    on three draws. *)
Lemma spawnParticlesInBox_margin_and_floor_witness :
  let draws := [(0, 1 # 2, 1); (1 # 3, 1, 3 # 4); (1, 0, 1)]%Q in
  (0 <= 0.05)%Q /\ (0.05 <= 2 * 0.5)%Q /\ Forall unitDraw draws
  /\ length (spawnParticlesInBox 5 2 0.05 0.5 draws) = 3%nat
  /\ Forall (fun p => (0.5 * (2 * 0.5) <= d1 (_position p))%Q
                      /\ (Qabs (d0 (_position p)) <= 2 * 0.5 - 0.05)%Q)
            (spawnParticlesInBox 5 2 0.05 0.5 draws).
Proof.
  cbv zeta.
  assert (Hm0 : (0 <= 0.05)%Q) by (unfold Qle; simpl; lia).
  assert (Hm1 : (0.05 <= 2 * 0.5)%Q) by (unfold Qle; simpl; lia).
  assert (Hdraws : Forall unitDraw [(0, 1 # 2, 1); (1 # 3, 1, 3 # 4); (1, 0, 1)]%Q).
  { repeat constructor; unfold Qle; simpl; lia. }
  destruct (spawnParticlesInBox_margin_and_floor 5 2 0.05 0.5 _ Hm0 Hm1 Hdraws)
    as [Hlen Hall].
  split; [exact Hm0|]. split; [exact Hm1|]. split; [exact Hdraws|].
  split; [exact Hlen|].
  eapply Forall_impl; [exact Hall|].
  intros p (Hx & _ & _ & Hfloor & _). split; [|exact Hx].
  apply Hfloor. unfold Qle; simpl; lia.
Defined.

(** Particle A of the pair, at (0.05, 0.05, 0.05) with radius 0.2. *)
Lemma getCell_origin_is_double_width_witness :
  (0 < smoothingRadius (_config Demo.pairStart))%Q
  /\ getCell Demo.pairStart Demo.pairA = mkVec3 0%Z 0%Z 0%Z.
Proof.
  split; [reflexivity|].
  apply (getCell_origin_is_double_width (H := Demo.platform) Demo.pairStart Demo.pairA);
    reflexivity.
Defined.

(** The floor-bounce engine is a particle on its own. *)
Lemma lone_particle_law_witness :
  let s := bounceStart (H := Demo.platform) in
  exists s' p',
    step (H := Demo.platform) (1 # 60) s = Completed s'
    /\ _particles s' = [p']
    /\ (d1 (draggedVelocity (H := Demo.platform) (1 # 60) s Demo.bounceParticle)
        == (d1 (_velocity Demo.bounceParticle) + gravity (_config s) * (1 # 60))
           * (1 - 0.75 * (1 # 60)))%Q.
Proof.
  cbv zeta.
  destruct (lone_particle_law (H := Demo.platform) (1 # 60)
              (bounceStart (H := Demo.platform)) Demo.bounceParticle eq_refl
              (bounceStart_threads (H := Demo.platform)) (init_sized _ _ _)
              (demo_sortOk _) eq_refl eq_refl)
    as (s' & p' & Hstep & Hparts & Hv & _).
  exists s', p'. split; [exact Hstep|]. split; [exact Hparts|exact Hv].
Defined.

(** The first step of the pair leaves its configuration alone. *)
Lemma step_leaves_configuration_witness :
  exists s',
    step (H := Demo.platform) (1 # 60) Demo.pairStart = Completed s'
    /\ _config s' = Demo.bounceConfig.
Proof.
  destruct pairStart_completes as [s' Hs'].
  exists s'. split; [exact Hs'|].
  exact (proj1 (step_leaves_configuration (H := Demo.platform) (1 # 60) Demo.pairStart s'
                  Hs')).
Defined.

(** ** The camera *)

Section CameraVectors.
Context `{Platform} `{Libm}.
Local Open Scope Q_scope.

Lemma updateCameraVectors_fields c c' :
  Camera.updateCameraVectors c = Some c' ->
  let front :=
    mkVec3 (cosf (toRadians (Camera._yaw c)) * cosf (toRadians (Camera._pitch c)))
           (sinf (toRadians (Camera._pitch c)))
           (sinf (toRadians (Camera._yaw c)) * cosf (toRadians (Camera._pitch c))) in
  Camera._front c' = front
  /\ Camera._right c' = cross front Camera._worldUp
  /\ Camera._up c' = cross (cross front Camera._worldUp) front
  /\ Camera._position c' = Camera._position c
  /\ Camera._yaw c' = Camera._yaw c
  /\ Camera._pitch c' = Camera._pitch c
  /\ Camera._fov c' = Camera._fov c.
Proof.
  intros Hc front. unfold Camera.updateCameraVectors in Hc. fold front in Hc.
  destruct (normalize front); [|discriminate]. cbn [mbind option_bind] in Hc.
  destruct (normalize (cross front Camera._worldUp)); [|discriminate].
  cbn [mbind option_bind] in Hc.
  destruct (normalize (cross (cross front Camera._worldUp) front)); [|discriminate].
  cbn [mbind option_bind] in Hc.
  injection Hc as <-. repeat split.
Qed.

End CameraVectors.

(** [updateCameraVectors] drops the vectors its three calls of [normalize]
    return, so it leaves [_right] and [_up] as the raw cross products: right
    = front x worldUp and up = right x front.  They are orthogonal to
    [_front] and to each other, but they are not unit vectors: when [_front]
    has length 1 their squared length is 1 - front.y^2, which is below 1 as
    soon as front.y = sin(pitch) is not 0. *)
Theorem camera_axes_are_not_normalized `{Platform} `{Libm} (c c' : Camera.t) :
  Camera.updateCameraVectors c = Some c' ->
  let front := Camera._front c' in
  let right := Camera._right c' in
  let up := Camera._up c' in
  d1 front = sinf (toRadians (Camera._pitch c))
  /\ right = cross front Camera._worldUp
  /\ up = cross right front
  /\ (Vec.dot right front == 0)%Q
  /\ (Vec.dot up front == 0)%Q
  /\ (Vec.dot up right == 0)%Q
  /\ ((Vec.dot front front == 1)%Q ->
      (Vec.dot right right == 1 - d1 front * d1 front)%Q
      /\ (Vec.dot up up == 1 - d1 front * d1 front)%Q
      /\ (~ (d1 front == 0)%Q -> (Vec.dot right right < 1)%Q /\ (Vec.dot up up < 1)%Q)).
Proof.
  intros Hc front right up.
  destruct (updateCameraVectors_fields c c' Hc) as (Hf & Hr & Hu & _).
  rewrite <- Hf in Hr, Hu.
  unfold front, right, up. rewrite Hu, Hr.
  split; [rewrite Hf; reflexivity|].
  set (f := Camera._front c'). split; [reflexivity|]. split; [reflexivity|].
  assert (Hrr : (Vec.dot (cross f Camera._worldUp) (cross f Camera._worldUp)
                 == Vec.dot f f - d1 f * d1 f)%Q).
  { unfold Vec.dot, cross, Camera._worldUp. cbn [d0 d1 d2]. ring. }
  assert (Huu : (Vec.dot (cross (cross f Camera._worldUp) f)
                         (cross (cross f Camera._worldUp) f)
                 == (Vec.dot f f - d1 f * d1 f) * Vec.dot f f)%Q).
  { unfold Vec.dot, cross, Camera._worldUp. cbn [d0 d1 d2]. ring. }
  split; [unfold Vec.dot, cross, Camera._worldUp; cbn [d0 d1 d2]; ring|].
  split; [unfold Vec.dot, cross, Camera._worldUp; cbn [d0 d1 d2]; ring|].
  split; [unfold Vec.dot, cross, Camera._worldUp; cbn [d0 d1 d2]; ring|].
  intros Hunit. rewrite Hrr, Huu, Hunit.
  split; [ring|]. split; [ring|].
  intros Hy.
  assert (Hpos : (0 < d1 f * d1 f)%Q).
  { destruct (Qlt_le_dec (d1 f) 0) as [Hneg|Hge].
    - assert (E : (d1 f * d1 f == (- d1 f) * (- d1 f))%Q) by ring. rewrite E.
      apply Qmult_lt_0_compat; lra.
    - assert (0 < d1 f)%Q.
      { destruct (Qle_lt_or_eq _ _ Hge) as [Hlt|Heq]; [exact Hlt|].
        exfalso. apply Hy. rewrite <- Heq. reflexivity. }
      apply Qmult_lt_0_compat; assumption. }
  split; lra.
Qed.

Section CameraInput.
Context `{Platform} `{Libm}.
Local Open Scope Q_scope.

Lemma movementControls_fields pressed velocity c :
  let c' := Camera.movementControls pressed velocity c in
  Camera._front c' = Camera._front c /\ Camera._right c' = Camera._right c
  /\ Camera._up c' = Camera._up c /\ Camera._yaw c' = Camera._yaw c
  /\ Camera._pitch c' = Camera._pitch c /\ Camera._fov c' = Camera._fov c.
Proof.
  unfold Camera.movementControls.
  destruct (pressed GLFW_KEY_W), (pressed GLFW_KEY_S), (pressed GLFW_KEY_A),
    (pressed GLFW_KEY_D), (pressed GLFW_KEY_SPACE), (pressed GLFW_KEY_LEFT_SHIFT);
    repeat split.
Qed.

Lemma zoomControls_fields pressed zoomVelocity c :
  let c' := Camera.zoomControls pressed zoomVelocity c in
  Camera._position c' = Camera._position c /\ Camera._front c' = Camera._front c
  /\ Camera._right c' = Camera._right c /\ Camera._up c' = Camera._up c
  /\ Camera._yaw c' = Camera._yaw c /\ Camera._pitch c' = Camera._pitch c.
Proof.
  unfold Camera.zoomControls.
  destruct (pressed GLFW_KEY_EQUAL || pressed GLFW_KEY_KP_ADD),
    (pressed GLFW_KEY_MINUS || pressed GLFW_KEY_KP_SUBTRACT); repeat split.
Qed.

(* One rotation key. *)
Lemma rotation_key (b : bool) (turn : Camera.t -> Camera.t) c c' :
  (if b then Camera.updateCameraVectors (turn c) else Some c) = Some c' ->
  Camera._position c' = (if b then Camera._position (turn c) else Camera._position c)
  /\ Camera._yaw c' = (if b then Camera._yaw (turn c) else Camera._yaw c)
  /\ Camera._pitch c' = (if b then Camera._pitch (turn c) else Camera._pitch c)
  /\ Camera._fov c' = (if b then Camera._fov (turn c) else Camera._fov c).
Proof.
  destruct b.
  - intros Hc. destruct (updateCameraVectors_fields _ _ Hc) as (_ & _ & _ & Hp & Hy & Hpi & Hf).
    repeat split; assumption.
  - intros [= <-]. repeat split.
Qed.

Lemma rotationControls_fields pressed rotationVelocity c c' :
  Camera.rotationControls pressed rotationVelocity c = Some c' ->
  Camera._position c' = Camera._position c
  /\ Camera._fov c' = Camera._fov c
  /\ (Camera.MIN_PITCH <= Camera._pitch c <= Camera.MAX_PITCH ->
      Camera.MIN_PITCH <= Camera._pitch c' <= Camera.MAX_PITCH)
  /\ (pressed GLFW_KEY_R = false -> pressed GLFW_KEY_T = false ->
      Camera._pitch c' = Camera._pitch c)
  /\ (pressed GLFW_KEY_Q = false -> pressed GLFW_KEY_E = false ->
      Camera._yaw c' = Camera._yaw c).
Proof.
  unfold Camera.rotationControls. intros Hc.
  destruct (if pressed GLFW_KEY_Q then _ else _) as [c1|] eqn:H1; [|discriminate].
  cbn [mbind option_bind] in Hc.
  destruct (if pressed GLFW_KEY_E then _ else _) as [c2|] eqn:H2; [|discriminate].
  cbn [mbind option_bind] in Hc.
  destruct (if pressed GLFW_KEY_R then _ else _) as [c3|] eqn:H3; [|discriminate].
  cbn [mbind option_bind] in Hc.
  apply rotation_key in H1, H2, H3, Hc.
  destruct H1 as (P1 & Y1 & T1 & F1), H2 as (P2 & Y2 & T2 & F2),
    H3 as (P3 & Y3 & T3 & F3), Hc as (P4 & Y4 & T4 & F4).
  assert (Hrange : Camera.MIN_PITCH <= Camera.MAX_PITCH) by (vm_compute; discriminate).
  cbn [Camera.set_yaw Camera.set_pitch Camera._position Camera._yaw Camera._pitch
       Camera._fov] in *.
  split.
  { destruct (pressed GLFW_KEY_Q), (pressed GLFW_KEY_E), (pressed GLFW_KEY_R),
      (pressed GLFW_KEY_T); congruence. }
  split.
  { destruct (pressed GLFW_KEY_Q), (pressed GLFW_KEY_E), (pressed GLFW_KEY_R),
      (pressed GLFW_KEY_T); congruence. }
  split.
  { intros Hin.
    assert (H12 : Camera._pitch c2 = Camera._pitch c).
    { destruct (pressed GLFW_KEY_Q), (pressed GLFW_KEY_E); congruence. }
    assert (Hin3 : Camera.MIN_PITCH <= Camera._pitch c3 <= Camera.MAX_PITCH).
    { rewrite T3. destruct (pressed GLFW_KEY_R).
      - apply clamp_bounds, Hrange.
      - rewrite H12. exact Hin. }
    rewrite T4. destruct (pressed GLFW_KEY_T).
    - apply clamp_bounds, Hrange.
    - exact Hin3. }
  split.
  { intros HR HT. rewrite HR in *. rewrite HT in *.
    destruct (pressed GLFW_KEY_Q), (pressed GLFW_KEY_E); congruence. }
  intros HQ HE. rewrite HQ in *. rewrite HE in *.
  destruct (pressed GLFW_KEY_R), (pressed GLFW_KEY_T); congruence.
Qed.

End CameraInput.

(** [processInput] keeps the pitch within [MIN_PITCH, MAX_PITCH] and the
    field of view within [MIN_ZOOM, MAX_ZOOM], whatever keys are held and
    whatever the frame time is.  The pitch changes only while R or T is
    held (the arrow keys that the header documents are never asked for),
    and the field of view only while =, keypad +, - or keypad - is held. *)
Theorem processInput_keeps_pitch_and_fov_in_range `{Platform} `{Libm}
    (pressed : Key -> bool) (deltaTime : Q) (c c' : Camera.t) :
  Camera.processInput pressed deltaTime c = Some c' ->
  ((Camera.MIN_PITCH <= Camera._pitch c <= Camera.MAX_PITCH)%Q ->
   (Camera.MIN_PITCH <= Camera._pitch c' <= Camera.MAX_PITCH)%Q)
  /\ ((Camera.MIN_ZOOM <= Camera._fov c <= Camera.MAX_ZOOM)%Q ->
      (Camera.MIN_ZOOM <= Camera._fov c' <= Camera.MAX_ZOOM)%Q)
  /\ (pressed GLFW_KEY_R = false -> pressed GLFW_KEY_T = false ->
      Camera._pitch c' = Camera._pitch c)
  /\ (pressed GLFW_KEY_EQUAL = false -> pressed GLFW_KEY_KP_ADD = false ->
      pressed GLFW_KEY_MINUS = false -> pressed GLFW_KEY_KP_SUBTRACT = false ->
      Camera._fov c' = Camera._fov c).
Proof.
  unfold Camera.processInput. intros Hc.
  destruct (Camera.rotationControls _ _ _) as [c2|] eqn:Hrot; [|discriminate].
  cbn [mbind option_bind] in Hc. injection Hc as <-.
  destruct (rotationControls_fields _ _ _ _ Hrot) as (_ & Hfov & Hrange & Hpitch & _).
  destruct (movementControls_fields pressed (Camera._movementSpeed * deltaTime) c)
    as (_ & _ & _ & _ & Hmp & Hmf).
  rewrite Hmp in Hrange, Hpitch. rewrite Hmf in Hfov.
  destruct (zoomControls_fields pressed (Camera._zoomSpeed * deltaTime) c2)
    as (_ & _ & _ & _ & _ & Hzp).
  rewrite Hzp.
  assert (Hzoom : (Camera.MIN_ZOOM <= Camera.MAX_ZOOM)%Q) by (vm_compute; discriminate).
  split; [exact Hrange|]. split.
  { intros Hin. rewrite <- Hfov in Hin. unfold Camera.zoomControls.
    destruct (pressed GLFW_KEY_EQUAL || pressed GLFW_KEY_KP_ADD),
      (pressed GLFW_KEY_MINUS || pressed GLFW_KEY_KP_SUBTRACT);
      cbn [Camera.set_fov Camera._fov];
      first [apply clamp_bounds, Hzoom | exact Hin]. }
  split; [exact Hpitch|].
  intros H1 H2 H3 H4. unfold Camera.zoomControls. rewrite H1, H2, H3, H4. exact Hfov.
Qed.

(** Where [processInput] moves the camera: along the front and right
    vectors it had on entry and along the world's vertical, by 2.5 *
    deltaTime for each held key, opposite keys cancelling.  The rotation and
    zoom keys of the same call do not move it. *)
Theorem processInput_moves_along_entry_axes `{Platform} `{Libm}
    (pressed : Key -> bool) (deltaTime : Q) (c c' : Camera.t) :
  Camera.processInput pressed deltaTime c = Some c' ->
  let held k := if pressed k then 1%Q else 0%Q in
  let step := (Camera._movementSpeed * deltaTime)%Q in
  let along := ((held GLFW_KEY_W - held GLFW_KEY_S) * step)%Q in
  let aside := ((held GLFW_KEY_D - held GLFW_KEY_A) * step)%Q in
  let above := ((held GLFW_KEY_SPACE - held GLFW_KEY_LEFT_SHIFT) * step)%Q in
  (d0 (Camera._position c')
   == d0 (Camera._position c) + along * d0 (Camera._front c)
      + aside * d0 (Camera._right c))%Q
  /\ (d1 (Camera._position c')
      == d1 (Camera._position c) + along * d1 (Camera._front c)
         + aside * d1 (Camera._right c) + above)%Q
  /\ (d2 (Camera._position c')
      == d2 (Camera._position c) + along * d2 (Camera._front c)
         + aside * d2 (Camera._right c))%Q.
Proof.
  intros Hc held step along aside above. unfold Camera.processInput in Hc.
  destruct (Camera.rotationControls _ _ _) as [c2|] eqn:Hrot; [|discriminate].
  cbn [mbind option_bind] in Hc. injection Hc as <-.
  destruct (rotationControls_fields _ _ _ _ Hrot) as (Hpos & _).
  destruct (zoomControls_fields pressed (Camera._zoomSpeed * deltaTime) c2) as (Hz & _).
  rewrite Hz, Hpos. fold step.
  unfold along, aside, above, held, Camera.movementControls.
  destruct (pressed GLFW_KEY_W), (pressed GLFW_KEY_S), (pressed GLFW_KEY_A),
    (pressed GLFW_KEY_D), (pressed GLFW_KEY_SPACE), (pressed GLFW_KEY_LEFT_SHIFT);
    cbn [Camera.set_position Camera._position Camera._front Camera._right
         Vec.add Vec.sub Vec.scale d0 d1 d2];
    repeat split; ring.
Qed.

(** The view matrix, applied as the vertex shaders apply it, expresses a
    point in the camera's frame: its coordinates are the products of the
    point's offset from the camera with [_right], [_up] and - [_front], and
    the fourth coordinate is 1.  The camera's own position goes to the
    origin. *)
Theorem view_matrix_is_camera_frame (c : Camera.t) (p : Vec3 Q) :
  let offset := Vec.sub p (Camera._position c) in
  let '(x, y, z, w) := mat4_mul (Camera.getViewMatrix c) (d0 p, d1 p, d2 p, 1%Q) in
  (x == Vec.dot (Camera._right c) offset)%Q
  /\ (y == Vec.dot (Camera._up c) offset)%Q
  /\ (z == - Vec.dot (Camera._front c) offset)%Q
  /\ (w == 1)%Q
  /\ (p = Camera._position c -> (x == 0)%Q /\ (y == 0)%Q /\ (z == 0)%Q).
Proof.
  unfold Camera.getViewMatrix, mat4_mul, Vec.dot, Vec.sub. cbn [d0 d1 d2].
  split; [ring|]. split; [ring|]. split; [ring|]. split; [ring|].
  intros ->. repeat split; ring.
Qed.

(** The projection matrix maps the near plane to depth -1 and the far plane
    to depth +1, for every field of view and aspect ratio: for a point of
    the camera's frame at z = -1 the clip coordinates have z = -w, at z =
    -30 they have z = w, and w is -z throughout. *)
Theorem projection_maps_near_and_far_planes `{Libm} (c : Camera.t)
    (aspect x y z : Q) :
  let '(_, _, zc, wc) := mat4_mul (Camera.getProjectionMatrix aspect c) (x, y, z, 1%Q) in
  (wc == - z)%Q
  /\ ((z == - Camera._nearZoom)%Q -> (zc == - wc)%Q)
  /\ ((z == - Camera._farZoom)%Q -> (zc == wc)%Q).
Proof.
  unfold Camera.getProjectionMatrix, mat4_mul, Camera._nearZoom, Camera._farZoom.
  split; [ring|].
  split; intros Hz; rewrite Hz; field.
Qed.

(** ** Meshes *)

Section Meshes.
Local Open Scope Q_scope.

Lemma triples_length (l : list Q) : length (Mesh.triples l) = (length l / 3)%nat.
Proof.
  assert (Hgen : forall n l, (length l <= n)%nat ->
            length (Mesh.triples l) = (length l / 3)%nat).
  { clear l. induction n as [|n IH]; intros l Hn.
    - destruct l; [reflexivity|simpl in Hn; lia].
    - destruct l as [|x [|y [|z l']]]; try reflexivity.
      cbn [Mesh.triples length].
      rewrite IH by (simpl in Hn; lia).
      change (S (S (S (length l')))) with (3 + length l')%nat.
      replace (3 + length l')%nat with (1 * 3 + length l')%nat by lia.
      rewrite Nat.div_add_l by lia. reflexivity. }
  apply (Hgen (length l)). lia.
Qed.

(* Chunking a buffer whose first part holds whole vertices. *)
Lemma triples_app (l1 l2 : list Q) :
  (length l1 mod 3 = 0)%nat ->
  Mesh.triples (l1 ++ l2) = Mesh.triples l1 ++ Mesh.triples l2.
Proof.
  assert (Hgen : forall n l1, (length l1 <= n)%nat -> (length l1 mod 3 = 0)%nat ->
            Mesh.triples (l1 ++ l2) = Mesh.triples l1 ++ Mesh.triples l2).
  { induction n as [|n IH]; intros l Hn Hmod.
    - destruct l; [reflexivity|simpl in Hn; lia].
    - destruct l as [|x [|y [|z l']]]; try reflexivity; try discriminate Hmod.
      cbn [app Mesh.triples]. rewrite IH; [reflexivity|simpl in Hn; lia|].
      change (length (x :: y :: z :: l')) with (3 + length l')%nat in Hmod.
      replace (3 + length l')%nat with (length l' + 1 * 3)%nat in Hmod by lia.
      rewrite Nat.Div0.mod_add in Hmod. exact Hmod. }
  apply (Hgen (length l1)). lia.
Qed.

Lemma flat_map_length_const {A B} (f : A -> list B) (k : nat) (l : list A) :
  (forall x, length (f x) = k) -> length (flat_map f l) = (k * length l)%nat.
Proof.
  intros Hf. induction l as [|x l IH]; simpl; [lia|].
  rewrite length_app, Hf, IH. lia.
Qed.

Lemma triples_flat_map {A} (P : Vec3 Q -> Prop) (f : A -> list Q) (l : list A) :
  (forall x, (length (f x) mod 3 = 0)%nat /\ Forall P (Mesh.triples (f x))) ->
  (length (flat_map f l) mod 3 = 0)%nat /\ Forall P (Mesh.triples (flat_map f l)).
Proof.
  intros Hf. induction l as [|x l [IHm IHp]]; cbn [flat_map].
  - split; [reflexivity|constructor].
  - destruct (Hf x) as [Hm Hp]. split.
    + rewrite length_app, Nat.Div0.add_mod, Hm, IHm. reflexivity.
    + rewrite triples_app by exact Hm. apply Forall_app. split; assumption.
Qed.

Lemma upto_length (n : Z) : length (MeshFactory.upto n) = Z.to_nat n.
Proof. unfold MeshFactory.upto. rewrite length_fmap, length_seq. reflexivity. Qed.

End Meshes.

Section Sphere.
Context `{Libm}.
Local Open Scope Q_scope.

Lemma on_sphere (radius cphi sphi ctheta stheta : Q) :
  cphi * cphi + sphi * sphi == 1 -> ctheta * ctheta + stheta * stheta == 1 ->
  Vec.dot (mkVec3 (radius * sphi * ctheta) (radius * cphi) (radius * sphi * stheta))
          (mkVec3 (radius * sphi * ctheta) (radius * cphi) (radius * sphi * stheta))
  == radius * radius.
Proof.
  intros Hphi Htheta. unfold Vec.dot. cbn [d0 d1 d2].
  assert (E : radius * sphi * ctheta * (radius * sphi * ctheta)
              + radius * cphi * (radius * cphi)
              + radius * sphi * stheta * (radius * sphi * stheta)
              == radius * radius
                 * (sphi * sphi * (ctheta * ctheta + stheta * stheta) + cphi * cphi))
    by ring.
  rewrite E, Htheta.
  assert (E2 : sphi * sphi * 1 + cphi * cphi == cphi * cphi + sphi * sphi) by ring.
  rewrite E2, Hphi. ring.
Qed.

Lemma buildSphereVertices_length radius rings segments :
  length (MeshFactory.buildSphereVertices radius rings segments)
  = (18 * Z.to_nat segments * Z.to_nat rings)%nat.
Proof.
  unfold MeshFactory.buildSphereVertices.
  rewrite (flat_map_length_const _ (18 * Z.to_nat segments)).
  - rewrite upto_length. reflexivity.
  - intros i. cbv zeta. rewrite (flat_map_length_const _ 18).
    + rewrite upto_length. reflexivity.
    + intros j. reflexivity.
Qed.

Lemma buildSphereVertices_on_sphere radius rings segments :
  (forall t, cosf t * cosf t + sinf t * sinf t == 1) ->
  Forall (fun v => Vec.dot v v == radius * radius)
         (Mesh.triples (MeshFactory.buildSphereVertices radius rings segments)).
Proof.
  intros Hid. unfold MeshFactory.buildSphereVertices.
  apply triples_flat_map. intros i. cbv zeta.
  apply triples_flat_map. intros j. split; [reflexivity|].
  cbn [Mesh.triples].
  repeat constructor; apply on_sphere; apply Hid.
Qed.

End Sphere.

(** The sphere mesh: [createSphere] makes 6 vertices, two triangles, for
    each of the rings * segments patches (none for a count that is not
    positive), and when cos^2 + sin^2 = 1 every vertex it draws lies on the
    sphere of the given radius around the origin. *)
Theorem createSphere_vertices_on_sphere `{Libm} (radius : Q) (rings segments : Z) :
  (forall t, (cosf t * cosf t + sinf t * sinf t == 1)%Q) ->
  let mesh := MeshFactory.createSphere radius rings segments in
  Mesh._primitive mesh = Triangles
  /\ Mesh._vertexCount mesh = (6 * Z.to_nat segments * Z.to_nat rings)%nat
  /\ length (Mesh.draw mesh) = (6 * Z.to_nat segments * Z.to_nat rings)%nat
  /\ Forall (fun v => (Vec.dot v v == radius * radius)%Q) (Mesh.draw mesh).
Proof.
  intros Hid mesh.
  pose proof (buildSphereVertices_length radius rings segments) as Hlen.
  assert (Hcount : Mesh._vertexCount mesh = (6 * Z.to_nat segments * Z.to_nat rings)%nat).
  { unfold mesh, MeshFactory.createSphere, Mesh.new. cbn [Mesh._vertexCount].
    rewrite Hlen.
    replace (18 * Z.to_nat segments * Z.to_nat rings)%nat
      with ((6 * Z.to_nat segments * Z.to_nat rings) * 3)%nat by lia.
    apply Nat.div_mul. lia. }
  split; [reflexivity|]. split; [exact Hcount|].
  unfold Mesh.draw. rewrite Hcount.
  assert (Hbuf : Mesh.triples (Mesh.buffer mesh)
                 = Mesh.triples (MeshFactory.buildSphereVertices radius rings segments)
                 \/ Mesh.buffer mesh = []).
  { unfold mesh, MeshFactory.createSphere, Mesh.new. cbn [Mesh.buffer].
    destruct (_ =? 0)%nat; [right|left]; reflexivity. }
  split.
  - rewrite length_take, triples_length.
    unfold mesh, MeshFactory.createSphere, Mesh.new. cbn [Mesh.buffer].
    destruct (length _ / 3 =? 0)%nat eqn:E.
    + apply Nat.eqb_eq in E. rewrite Hlen in E.
      replace (18 * Z.to_nat segments * Z.to_nat rings)%nat
        with ((6 * Z.to_nat segments * Z.to_nat rings) * 3)%nat in E by lia.
      rewrite Nat.div_mul in E by lia. simpl. lia.
    + rewrite Hlen.
      replace (18 * Z.to_nat segments * Z.to_nat rings)%nat
        with ((6 * Z.to_nat segments * Z.to_nat rings) * 3)%nat by lia.
      rewrite Nat.div_mul by lia. lia.
  - apply Forall_take.
    destruct Hbuf as [-> | ->]; [|constructor].
    apply buildSphereVertices_on_sphere, Hid.
Qed.

(** The box mesh: [createBox] draws 24 vertices as 12 line segments, and
    these are the 12 edges of the box.  For every corner (+-hx, +-hy, +-hz)
    and every axis, the segment from the corner to the corner mirrored along
    that axis is drawn, in one direction or the other. *)
Theorem createBox_draws_the_twelve_edges (halfSize : Vec3 Q) :
  let mesh := MeshFactory.createBox halfSize in
  let edges := Mesh.segments (Mesh.draw mesh) in
  let corner := boxCorner halfSize in
  Mesh._primitive mesh = Lines
  /\ Mesh._vertexCount mesh = 24%nat
  /\ length edges = 12%nat
  /\ forall sx sy sz : bool,
       ((corner sx sy sz, corner (negb sx) sy sz) ∈ edges
        \/ (corner (negb sx) sy sz, corner sx sy sz) ∈ edges)
       /\ ((corner sx sy sz, corner sx (negb sy) sz) ∈ edges
           \/ (corner sx (negb sy) sz, corner sx sy sz) ∈ edges)
       /\ ((corner sx sy sz, corner sx sy (negb sz)) ∈ edges
           \/ (corner sx sy (negb sz), corner sx sy sz) ∈ edges).
Proof.
  cbv zeta. split; [reflexivity|]. split; [reflexivity|]. split; [reflexivity|].
  intros sx sy sz.
  unfold MeshFactory.createBox, Mesh.new, Mesh.draw, boxCorner.
  cbn [length Nat.div Nat.divmod fst Nat.eqb Mesh.buffer Mesh._vertexCount Mesh.triples
       take Mesh.segments].
  destruct sx, sy, sz; cbn [negb];
    repeat split;
    first [ left; solve [repeat first [apply list_elem_of_here | apply list_elem_of_further]]
          | right; solve [repeat first [apply list_elem_of_here | apply list_elem_of_further]] ].
Qed.

(** ** What is drawn *)

(** The colour [Particle::draw] hands to the shader is a colour: red, green
    and blue lie in [0, 1] for every velocity, green between 0.2 and 0.5.
    A particle whose speed is 5 or more is drawn (1, 0.2, 0), a particle
    whose speed is 0 is drawn (0, 0.5, 1). *)
Theorem drawColor_is_a_colour `{Platform} (particle : Particle) :
  let '(r, g, b) := drawColor particle in
  (0 <= r <= 1)%Q /\ (0.2 <= g <= 0.5)%Q /\ (0 <= b <= 1)%Q
  /\ ((5 <= norm (_velocity particle))%Q -> (r == 1)%Q /\ (g == 0.2)%Q /\ (b == 0)%Q)
  /\ ((norm (_velocity particle) == 0)%Q -> (r == 0)%Q /\ (g == 0.5)%Q /\ (b == 1)%Q).
Proof.
  unfold drawColor. cbv zeta.
  set (speed := norm (_velocity particle)).
  pose proof (clamp_bounds (speed / 5) 0 1 ltac:(lra)) as Hr.
  set (r := clamp (speed / 5) 0 1) in *.
  split; [exact Hr|]. split; [lra|]. split; [lra|].
  assert (Hfast : (5 <= speed)%Q -> (r == 1)%Q).
  { intros Hs. unfold r, clamp.
    assert (Hq : (1 <= speed / 5)%Q) by (apply Qle_shift_div_l; lra).
    rewrite (Qltb_elim (speed / 5) 0) by lra.
    destruct (Qltb 1 (speed / 5)) eqn:E; [reflexivity|].
    apply Qltb_false in E. lra. }
  assert (Hrest : (speed == 0)%Q -> (r == 0)%Q).
  { intros Hs. unfold r, clamp.
    assert (Hq : (speed / 5 == 0)%Q) by (rewrite Hs; reflexivity).
    rewrite (Qltb_elim (speed / 5) 0) by lra.
    rewrite (Qltb_elim 1 (speed / 5)) by lra. exact Hq. }
  split.
  - intros Hs. specialize (Hfast Hs). repeat split; lra.
  - intros Hs. specialize (Hrest Hs). repeat split; lra.
Qed.

(** [Renderer::draw] never writes [_boxHalfSize], so it compares the bounds
    of the configuration with the half size the renderer started with,
    not with the box it shows.  When the bounds move away from that half
    size the wireframe is rebuilt for them; when they come back to within
    0.0001 of it the wireframe is not rebuilt and still shows the bounds
    they came back from. *)
Theorem box_wireframe_goes_stale (r : Renderer.t) (away back : Vec3 Q) :
  Renderer.boundsChanged away r = true ->
  Renderer.boundsChanged back r = false ->
  let r1 := Renderer.refreshBox away r in
  let r2 := Renderer.refreshBox back r1 in
  Renderer._boxMesh r1 = MeshFactory.createBox away
  /\ Renderer._boxHalfSize r1 = Renderer._boxHalfSize r
  /\ Renderer._boxMesh r2 = MeshFactory.createBox away
  /\ Renderer._boxHalfSize r2 = Renderer._boxHalfSize r.
Proof.
  intros Haway Hback r1 r2.
  assert (H1 : r1 = {| Renderer._boxMesh := MeshFactory.createBox away;
                       Renderer._boxHalfSize := Renderer._boxHalfSize r |}).
  { unfold r1, Renderer.refreshBox. rewrite Haway. reflexivity. }
  assert (H2 : r2 = r1).
  { unfold r2, Renderer.refreshBox.
    assert (E : Renderer.boundsChanged back r1 = Renderer.boundsChanged back r)
      by (rewrite H1; reflexivity).
    rewrite E, Hback. reflexivity. }
  rewrite H2, H1. repeat split.
Qed.

(** ** The camera and the meshes on the demo platform *)

Section DemoCamera.
Local Open Scope Q_scope.

Lemma circle_identity (t : Q) :
  cosf (Libm := circle) t * cosf (Libm := circle) t
  + sinf (Libm := circle) t * sinf (Libm := circle) t == 1.
Proof.
  cbn [cosf sinf circle]. set (u := Qred t).
  assert (Hpos : 0 < 1 + u * u) by (pose proof (Qsquare_nonneg u); lra).
  field. intros Hz. rewrite Hz in Hpos. apply (Qlt_irrefl 0). exact Hpos.
Qed.

(* The tilted camera has its vectors: no norm is zero. *)
Lemma tilted_vectors :
  exists c', Camera.updateCameraVectors (H := Demo.platform) (H0 := circle) tilted = Some c'.
Proof.
  unfold Camera.updateCameraVectors.
  assert (E1 : forall v, Qeq_bool (norm (H := Demo.platform) v) 0 = false ->
                 exists w, normalize (H := Demo.platform) v = Some w).
  { intros v Hv. unfold normalize. rewrite Hv. eexists. reflexivity. }
  set (front := mkVec3 _ _ _).
  destruct (E1 front) as [w1 ->]; [reflexivity|]. cbn [mbind option_bind].
  destruct (E1 (cross front Camera._worldUp)) as [w2 ->]; [reflexivity|].
  cbn [mbind option_bind].
  destruct (E1 (cross (cross front Camera._worldUp) front)) as [w3 ->]; [reflexivity|].
  cbn [mbind option_bind].
  eexists. reflexivity.
Qed.

End DemoCamera.

(** The tilted camera: its front has length 1 and height 4/5, so its right
    and up vectors have squared length 9/25. *)
Lemma camera_axes_are_not_normalized_witness :
  exists c',
    Camera.updateCameraVectors (H := Demo.platform) (H0 := circle) tilted = Some c'
    /\ (Vec.dot (Camera._right c') (Camera._front c') == 0)%Q
    /\ (Vec.dot (Camera._up c') (Camera._front c') == 0)%Q
    /\ (Vec.dot (Camera._up c') (Camera._right c') == 0)%Q.
Proof.
  destruct tilted_vectors as [c' Hc'].
  exists c'. split; [exact Hc'|].
  destruct (camera_axes_are_not_normalized (H := Demo.platform) (H0 := circle) tilted c' Hc')
    as (_ & _ & _ & Hrf & Huf & Hur & _).
  split; [exact Hrf|]. split; [exact Huf|exact Hur].
Defined.

(** Holding W for a sixtieth of a second. *)
Lemma processInput_keeps_pitch_and_fov_in_range_witness :
  exists c',
    Camera.processInput (H := Demo.platform) (H0 := circle) onlyW (1 # 60) Camera.members
    = Some c'
    /\ Camera._pitch c' = Camera._pitch Camera.members
    /\ Camera._fov c' = Camera._fov Camera.members.
Proof.
  assert (Hc : exists c', Camera.processInput (H := Demo.platform) (H0 := circle) onlyW
                            (1 # 60) Camera.members = Some c')
    by (eexists; reflexivity).
  destruct Hc as [c' Hc']. exists c'. split; [exact Hc'|].
  destruct (processInput_keeps_pitch_and_fov_in_range (H := Demo.platform) (H0 := circle)
              onlyW (1 # 60) Camera.members c' Hc') as (_ & _ & Hpitch & Hfov).
  split; [apply Hpitch; reflexivity|apply Hfov; reflexivity].
Defined.

Lemma processInput_moves_along_entry_axes_witness :
  exists c',
    Camera.processInput (H := Demo.platform) (H0 := circle) onlyW (1 # 60) Camera.members
    = Some c'
    /\ (d2 (Camera._position c')
        == d2 (Camera._position Camera.members)
           + (1 - 0) * (Camera._movementSpeed * (1 # 60)) * d2 (Camera._front Camera.members)
           + (0 - 0) * (Camera._movementSpeed * (1 # 60))
             * d2 (Camera._right Camera.members))%Q.
Proof.
  assert (Hc : exists c', Camera.processInput (H := Demo.platform) (H0 := circle) onlyW
                            (1 # 60) Camera.members = Some c')
    by (eexists; reflexivity).
  destruct Hc as [c' Hc']. exists c'. split; [exact Hc'|].
  exact (proj2 (proj2 (processInput_moves_along_entry_axes (H := Demo.platform)
                         (H0 := circle) onlyW (1 # 60) Camera.members c' Hc'))).
Defined.

(** The particle sphere of [Particle::init]: radius 0.02, 16 rings, 24
    segments. *)
Lemma createSphere_vertices_on_sphere_witness :
  (forall t, (cosf (Libm := circle) t * cosf (Libm := circle) t
              + sinf (Libm := circle) t * sinf (Libm := circle) t == 1)%Q)
  /\ Mesh._vertexCount (MeshFactory.createSphere (H := circle) 0.02 16 24) = 2304%nat.
Proof.
  split; [exact circle_identity|].
  exact (proj1 (proj2 (createSphere_vertices_on_sphere (H := circle) 0.02 16 24
                         circle_identity))).
Defined.

(** The bounds slider moved from 1 to 2 and back to 1. *)
Lemma box_wireframe_goes_stale_witness :
  let r := Renderer.init (mkVec3 1 1 1)%Q in
  let away := (mkVec3 2 2 2)%Q in
  let back := (mkVec3 1 1 1)%Q in
  Renderer.boundsChanged away r = true
  /\ Renderer.boundsChanged back r = false
  /\ Renderer._boxMesh (Renderer.refreshBox back (Renderer.refreshBox away r))
     = MeshFactory.createBox away.
Proof.
  cbv zeta.
  assert (Haway : Renderer.boundsChanged (mkVec3 2 2 2)%Q (Renderer.init (mkVec3 1 1 1)%Q)
                  = true) by reflexivity.
  assert (Hback : Renderer.boundsChanged (mkVec3 1 1 1)%Q (Renderer.init (mkVec3 1 1 1)%Q)
                  = false) by reflexivity.
  split; [exact Haway|]. split; [exact Hback|].
  exact (proj1 (proj2 (proj2 (box_wireframe_goes_stale _ _ _ Haway Hback)))).
Defined.

(** ** Two laws of the passes *)

Section PassLaws.
Context `{Platform}.
Local Open Scope Q_scope.

Lemma resolveAxis_slows s position velocity halfBound :
  0 <= collisionDamping (_config s) <= 1 ->
  Qabs (snd (resolveAxis s position velocity halfBound)) <= Qabs velocity.
Proof.
  intros [Hlo Hhi]. unfold resolveAxis.
  destruct (Qle_bool (halfBound - Qabs position) 0); cbn [snd]; [|lra].
  rewrite Qabs_Qmult, Qabs_opp, (Qabs_pos (collisionDamping (_config s))) by exact Hlo.
  pose proof (Qabs_nonneg velocity) as Hv.
  assert (0 <= Qabs velocity * (1 - collisionDamping (_config s)))
    by (apply Qmult_le_0_compat; lra).
  lra.
Qed.


End PassLaws.

(** A bounce never speeds a particle up: with a damping between 0 and 1 the
    position update leaves, on every axis, a velocity whose size is at most
    what it was before the update. *)
Theorem bounce_never_speeds_up `{Platform} (dt : Q) (s : SPH) (id : nat) (q : Particle)
    (axis : Vec3 Q -> Q) :
  axis = d0 \/ axis = d1 \/ axis = d2 ->
  (0 <= collisionDamping (_config s) <= 1)%Q ->
  (Qabs (axis (_velocity (positionBody dt s id q))) <= Qabs (axis (_velocity q)))%Q.
Proof.
  intros Haxis Hdamp. unfold positionBody.
  match goal with
  | |- context [resolveCollisions s ?r] =>
      destruct (resolveCollisions_axes s r) as (_ & Hv & _); rewrite Hv
  end.
  cbn [_velocity].
  destruct Haxis as [-> | [-> | ->]]; cbn [d0 d1 d2]; apply resolveAxis_slows, Hdamp.
Qed.


(** The floor-bounce particle, damping 0.5. *)
Lemma bounce_never_speeds_up_witness :
  let s := bounceStart (H := Demo.platform) in
  (0 <= collisionDamping (_config s) <= 1)%Q
  /\ (Qabs (d1 (_velocity (positionBody (1 # 60) s 0 Demo.bounceParticle)))
      <= Qabs (d1 (_velocity Demo.bounceParticle)))%Q.
Proof.
  cbv zeta.
  assert (Hdamp : (0 <= collisionDamping (_config (bounceStart (H := Demo.platform))) <= 1)%Q)
    by (split; vm_compute; discriminate).
  split; [exact Hdamp|].
  exact (bounce_never_speeds_up (H := Demo.platform) (1 # 60) _ 0 Demo.bounceParticle d1
           (or_intror (or_introl eq_refl)) Hdamp).
Defined.

